(** * Identity reconciliation service

    A shallow embedding of the contact store ([Database]), of the
    reconciliation logic and the listing ([ContactService]) and of the
    request handlers ([ContactController]) of the Bitespeed identity
    service, followed by their properties.

    Conventions of the embedding:
    - a JavaScript [string | null | undefined] value is an [option string];
      it is truthy when it is [Some] of a non-empty string;
    - a string is the sequence of its code units, each below 256;
    - identifiers and times ([Date.getTime()]) are integers ([Z]), and so
      are the limit and the page of a listing, which stay below 2^53;
    - the SQLite table is the list of its rows in rowid order; a SELECT
      without ORDER BY returns them in that order, and ORDER BY keeps rows
      of equal key in that order;
    - an [async] method is a function from the store to the store after the
      call and either the resolved value or the rejection; calls do not
      interleave;
    - an array of objects is a list, and an array that shares its objects
      with it ([filter], [sort] of the filtered array) is a list of
      indices into it, so that an assignment to a property of an object is
      seen through every array that holds the object;
    - a call reads the clock of sqlite and the clock of the process once;
    - the store counts the statements it still executes before one fails,
      and keeps a journal of the writes it executed. The journal is not
      read by the service;
    - a request handler is a function from the store to the store after
      the call and the response it sends; a field of the request body is
      missing, a string, or a value of another type, of which the handler
      uses whether it is truthy and what [String] makes of it; the query
      parameters are given as [parseInt] returns them;
    - the sqlite3 binding is not part of the sources: what the service
      does with a value that is not a string is a parameter of the
      handler. *)

From Stdlib Require Import ZArith List String Ascii Bool Lia Permutation Sorted.
Import ListNotations.
Local Open Scope Z_scope.

(** * Part I: the program *)

(* ================================================================== *)
(** ** JavaScript values and array helpers *)

Module Js.

(** [v || null] on an optional string: the empty string is falsy. *)
Definition orNull (v : option string) : option string :=
  match v with
  | Some s => if String.eqb s EmptyString then None else Some s
  | None => None
  end.

Definition truthy (v : option string) : bool :=
  match orNull v with Some _ => true | None => false end.

(** [a === b] on [string | null]. *)
Definition strictEq (a b : option string) : bool :=
  match a, b with
  | Some x, Some y => String.eqb x y
  | None, None => true
  | _, _ => false
  end.

(** [a === b] on [number | null]. *)
Definition strictEqNum (a b : option Z) : bool :=
  match a, b with
  | Some x, Some y => Z.eqb x y
  | None, None => true
  | _, _ => false
  end.

(** [Array.prototype.sort] with the comparator
    [(a, b) => key(a) - key(b)]: the sort is stable, so an element goes
    in front of the later elements whose key is not smaller. *)
Section Sort.
Context {A : Type} (key : A -> Z).

Fixpoint insertOn (x : A) (l : list A) : list A :=
  match l with
  | [] => [x]
  | y :: t => if key x <=? key y then x :: y :: t else y :: insertOn x t
  end.

Fixpoint sortOn (l : list A) : list A :=
  match l with
  | [] => []
  | x :: t => insertOn x (sortOn t)
  end.
End Sort.

(** [new Set(iterable)] on numbers, as the array of its members in
    insertion order ([Array.from(set)]). *)
Definition setAdd (s : list Z) (x : Z) : list Z :=
  if existsb (Z.eqb x) s then s else s ++ [x].

Definition newSet (l : list Z) : list Z := fold_left setAdd l [].

(** [arr.includes(s)] on an array of strings. *)
Definition includes (arr : list string) (s : string) : bool :=
  existsb (String.eqb s) arr.

(** [arr[i] = x]: assignment to an index of the array. *)
Fixpoint assign {A : Type} (i : nat) (x : A) (arr : list A) : list A :=
  match arr, i with
  | [], _ => []
  | _ :: t, O => x :: t
  | y :: t, S j => y :: assign j x t
  end.

End Js.

(* ================================================================== *)
(** ** models/Contact *)

(** ['primary' | 'secondary']. *)
Inductive LinkPrecedence : Type := Primary | Secondary.

Definition precedence_eqb (a b : LinkPrecedence) : bool :=
  match a, b with
  | Primary, Primary | Secondary, Secondary => true
  | _, _ => false
  end.

Module Contact.
Record t : Type := mk {
  id : Z;
  phoneNumber : option string;
  email : option string;
  linkedId : option Z;
  linkPrecedence : LinkPrecedence;
  createdAt : Z;
  updatedAt : Z;
  deletedAt : option Z
}.
End Contact.

Module CreateContactData.
Record t : Type := mk {
  phoneNumber : option string;
  email : option string;
  linkedId : option Z;          (* [None]: the key is absent *)
  linkPrecedence : LinkPrecedence
}.
End CreateContactData.

(** The keys of [Partial<Contact>] that the service passes to
    [updateContact]; [None] is an absent key. *)
Module ContactUpdates.
Record t : Type := mk {
  linkedId : option Z;
  linkPrecedence : option LinkPrecedence
}.
End ContactUpdates.

Module IdentifyRequest.
Record t : Type := mk {
  email : option string;        (* [None]: undefined *)
  phoneNumber : option string
}.
End IdentifyRequest.

Record ConsolidatedContact : Type := mkConsolidated {
  primaryContactId : Z;
  emails : list string;
  phoneNumbers : list string;
  secondaryContactIds : list Z
}.

Definition isPrimary (c : Contact.t) : bool :=
  precedence_eqb (Contact.linkPrecedence c) Primary.

Definition isSecondary (c : Contact.t) : bool :=
  precedence_eqb (Contact.linkPrecedence c) Secondary.

(** [c.linkedId = v] and [c.linkPrecedence = v] on a contact object. *)
Definition setLinkedId (v : option Z) (c : Contact.t) : Contact.t :=
  Contact.mk (Contact.id c) (Contact.phoneNumber c) (Contact.email c)
             v (Contact.linkPrecedence c)
             (Contact.createdAt c) (Contact.updatedAt c) (Contact.deletedAt c).

Definition setLinkPrecedence (v : LinkPrecedence) (c : Contact.t) : Contact.t :=
  Contact.mk (Contact.id c) (Contact.phoneNumber c) (Contact.email c)
             (Contact.linkedId c) v
             (Contact.createdAt c) (Contact.updatedAt c) (Contact.deletedAt c).

(* ================================================================== *)
(** ** Promises over the store *)

Inductive Error : Type :=
| NoPrimaryContactsFound      (* Error('No primary contacts found') *)
| NoPrimaryContactFound       (* Error('No primary contact found')  *)
| TypeError                   (* property read on undefined         *)
| StorageError.               (* the sqlite callback received [err] *)

Inductive Outcome (A : Type) : Type :=
| Resolved (a : A)
| Rejected (e : Error).
Arguments Resolved {A} a.
Arguments Rejected {A} e.

(** A write that the store has executed. *)
Inductive Command : Type :=
| Insert (data : CreateContactData.t)
| Update (target : Z) (updates : ContactUpdates.t).

(** The store: the rows of table [contacts] in rowid order, the
    AUTOINCREMENT counter of the table, the writes executed so far, and
    the number of statements that sqlite still executes before one fails
    ([None]: none fails). *)
Record Database : Type := mkDatabase {
  rows : list Contact.t;
  sequence : Z;
  journal : list Command;
  faultAt : option nat
}.

(** The two clocks a call reads: sqlite's CURRENT_TIMESTAMP as the service
    reads it back ([new Date(row.createdAt)]), and [new Date()] of the
    process. *)
Record Clock : Type := mkClock {
  dbNow : Z;
  jsNow : Z
}.

Definition Async (A : Type) : Type := Database -> Database * Outcome A.

Definition ret {A : Type} (a : A) : Async A := fun db => (db, Resolved a).

Definition throw {A : Type} (e : Error) : Async A := fun db => (db, Rejected e).

Definition bind {A B : Type} (m : Async A) (k : A -> Async B) : Async B :=
  fun db =>
    match m db with
    | (db', Resolved a) => k a db'
    | (db', Rejected e) => (db', Rejected e)
    end.

Definition settle {A : Type} (o : Outcome A) : Async A := fun db => (db, o).

Declare Scope async_scope.
Delimit Scope async_scope with async.
Notation "x <- m ;; k" := (bind m (fun x => k))
  (at level 100, m at next level, right associativity) : async_scope.
Notation "m ;;; k" := (bind m (fun _ => k))
  (at level 100, right associativity) : async_scope.
Local Open Scope async_scope.

(** [Promise.all(xs.map(f))]. *)
Fixpoint promiseAll {A B : Type} (f : A -> Async B) (xs : list A) : Async (list B) :=
  match xs with
  | [] => ret []
  | x :: t => y <- f x ;; ys <- promiseAll f t ;; ret (y :: ys)
  end.

(* ================================================================== *)
(** ** database/Database *)

(** One statement handed to sqlite: it fails when the fault counter has
    reached zero, and counts down otherwise. *)
Definition statement : Async unit :=
  fun db =>
    match faultAt db with
    | None => (db, Resolved tt)
    | Some O => (db, Rejected StorageError)
    | Some (S n) =>
        (mkDatabase (rows db) (sequence db) (journal db) (Some n), Resolved tt)
    end.

(** [deletedAt IS NULL]. *)
Definition live (c : Contact.t) : bool :=
  match Contact.deletedAt c with None => true | Some _ => false end.

(** [email = ?] and [phoneNumber = ?] : a NULL column equals nothing. *)
Definition emailIs (e : string) (c : Contact.t) : bool :=
  match Contact.email c with Some x => String.eqb x e | None => false end.

Definition phoneIs (p : string) (c : Contact.t) : bool :=
  match Contact.phoneNumber c with Some x => String.eqb x p | None => false end.

(** [(id = ? OR linkedId = ?)] with both parameters [primaryId]. *)
Definition linkedTo (primaryId : Z) (c : Contact.t) : bool :=
  (Contact.id c =? primaryId) ||
  match Contact.linkedId c with Some l => l =? primaryId | None => false end.

(** [db.all(query)]: the rows that satisfy the WHERE clause, in table
    order. *)
Definition selectWhere (cond : Contact.t -> bool) : Async (list Contact.t) :=
  statement ;;; (fun db => (db, Resolved (filter cond (rows db)))).

(** The WHERE clause that [findContactsByEmailOrPhone] builds; there is
    none when neither value is given. *)
Definition whereEmailOrPhone (email phoneNumber : option string)
  : option (Contact.t -> bool) :=
  match Js.orNull email, Js.orNull phoneNumber with
  | Some e, Some p => Some (fun c => live c && (emailIs e c || phoneIs p c))
  | Some e, None => Some (fun c => live c && emailIs e c)
  | None, Some p => Some (fun c => live c && phoneIs p c)
  | None, None => None
  end.

Definition findContactsByEmailOrPhone (email phoneNumber : option string)
  : Async (list Contact.t) :=
  match whereEmailOrPhone email phoneNumber with
  | Some cond => selectWhere cond
  | None => ret []
  end.

(** [... ORDER BY createdAt ASC]: rows with the same createdAt stay in
    table order. *)
Definition findAllLinkedContacts (primaryId : Z) : Async (list Contact.t) :=
  found <- selectWhere (fun c => live c && linkedTo primaryId c) ;;
  ret (Js.sortOn Contact.createdAt found).

(** The rowid an AUTOINCREMENT table gives to the next row: one more than
    the largest rowid the table ever held. *)
Definition nextId (db : Database) : Z :=
  fold_left Z.max (map Contact.id (rows db)) (sequence db) + 1.

(** [data.linkedId || null] on a number: zero is falsy. *)
Definition linkedIdOrNull (v : option Z) : option Z :=
  match v with
  | Some n => if n =? 0 then None else Some n
  | None => None
  end.

(** The row that [INSERT INTO contacts ... VALUES (?, ?, ?, ?,
    CURRENT_TIMESTAMP, CURRENT_TIMESTAMP)] adds: an unbound (undefined)
    parameter is stored as NULL. *)
Definition createdRow (clk : Clock) (data : CreateContactData.t) (db : Database)
  : Contact.t :=
  Contact.mk (nextId db)
             (CreateContactData.phoneNumber data) (CreateContactData.email data)
             (CreateContactData.linkedId data) (CreateContactData.linkPrecedence data)
             (dbNow clk) (dbNow clk) None.

(** The object that [createContact] resolves to: built from [this.lastID]
    and [data], with [new Date()] for both times. *)
Definition createdObject (clk : Clock) (data : CreateContactData.t) (db : Database)
  : Contact.t :=
  Contact.mk (nextId db)
             (Js.orNull (CreateContactData.phoneNumber data))
             (Js.orNull (CreateContactData.email data))
             (linkedIdOrNull (CreateContactData.linkedId data))
             (CreateContactData.linkPrecedence data)
             (jsNow clk) (jsNow clk) None.

(** The store after the insertion. *)
Definition inserted (clk : Clock) (data : CreateContactData.t) (db : Database)
  : Database :=
  mkDatabase (rows db ++ [createdRow clk data db]) (nextId db)
             (journal db ++ [Insert data]) (faultAt db).

Definition createContact (clk : Clock) (data : CreateContactData.t)
  : Async Contact.t :=
  statement ;;;
  (fun db => (inserted clk data db, Resolved (createdObject clk data db))).

(** [SET key = ?, ..., updatedAt = CURRENT_TIMESTAMP] on one row. *)
Definition applyUpdates (clk : Clock) (updates : ContactUpdates.t)
  (c : Contact.t) : Contact.t :=
  Contact.mk (Contact.id c) (Contact.phoneNumber c) (Contact.email c)
             (match ContactUpdates.linkedId updates with
              | Some l => Some l
              | None => Contact.linkedId c
              end)
             (match ContactUpdates.linkPrecedence updates with
              | Some p => p
              | None => Contact.linkPrecedence c
              end)
             (Contact.createdAt c) (dbNow clk) (Contact.deletedAt c).

(** [UPDATE contacts SET ... WHERE id = ?]. *)
Definition updateRows (clk : Clock) (target : Z) (updates : ContactUpdates.t)
  (rs : list Contact.t) : list Contact.t :=
  map (fun c => if Contact.id c =? target then applyUpdates clk updates c else c) rs.

(** The store after the update. *)
Definition updated (clk : Clock) (target : Z) (updates : ContactUpdates.t)
  (db : Database) : Database :=
  mkDatabase (updateRows clk target updates (rows db)) (sequence db)
             (journal db ++ [Update target updates]) (faultAt db).

(** [Object.keys(updates)] is empty. *)
Definition noKey (updates : ContactUpdates.t) : bool :=
  match ContactUpdates.linkedId updates, ContactUpdates.linkPrecedence updates with
  | None, None => true
  | _, _ => false
  end.

(** The statement is [UPDATE contacts SET k1 = ?, ..., updatedAt =
    CURRENT_TIMESTAMP WHERE id = ?]; without a key it reads [SET ,
    updatedAt = ...], which sqlite refuses with a syntax error. *)
Definition updateContact (clk : Clock) (target : Z) (updates : ContactUpdates.t)
  : Async unit :=
  statement ;;;
  (if noKey updates then throw StorageError
   else fun db => (updated clk target updates db, Resolved tt)).

(* ================================================================== *)
(** ** services/ContactService *)

Definition needsNewSecondaryContact (existingContacts : list Contact.t)
  (email phoneNumber : option string) : bool :=
  let exactMatch :=
    existsb (fun contact =>
               Js.strictEq (Contact.email contact) (Js.orNull email) &&
               Js.strictEq (Contact.phoneNumber contact) (Js.orNull phoneNumber))
            existingContacts in
  if exactMatch then false
  else
    let hasNewEmail :=
      Js.truthy email &&
      negb (existsb (fun c => Js.strictEq (Contact.email c) email) existingContacts) in
    let hasNewPhone :=
      Js.truthy phoneNumber &&
      negb (existsb (fun c => Js.strictEq (Contact.phoneNumber c) phoneNumber)
                    existingContacts) in
    hasNewEmail || hasNewPhone.

(** [if (v && !arr.includes(v)) arr.push(v)]. *)
Definition pushIfNew (arr : list string) (v : option string) : list string :=
  match Js.orNull v with
  | Some s => if Js.includes arr s then arr else arr ++ [s]
  | None => arr
  end.

Definition buildConsolidatedContact (contacts : list Contact.t)
  : Outcome ConsolidatedContact :=
  let contacts := Js.sortOn Contact.createdAt contacts in
  match find isPrimary contacts with
  | None => Rejected NoPrimaryContactFound
  | Some primary =>
      let secondaryContacts := filter isSecondary contacts in
      let emails := pushIfNew [] (Contact.email primary) in
      let phoneNumbers := pushIfNew [] (Contact.phoneNumber primary) in
      let emails :=
        fold_left (fun acc contact => pushIfNew acc (Contact.email contact))
                  secondaryContacts emails in
      let phoneNumbers :=
        fold_left (fun acc contact => pushIfNew acc (Contact.phoneNumber contact))
                  secondaryContacts phoneNumbers in
      Resolved (mkConsolidated (Contact.id primary) emails phoneNumbers
                               (map Contact.id secondaryContacts))
  end.

(** References to the objects of an array: the indices, from [n] on, of
    the elements that satisfy [p] ([arr.filter(p)] shares its objects with
    [arr]). *)
Fixpoint refsFrom (n : nat) (p : Contact.t -> bool) (arr : list Contact.t)
  : list nat :=
  match arr with
  | [] => []
  | c :: t => if p c then n :: refsFrom (S n) p t else refsFrom (S n) p t
  end.

Definition filterRefs (p : Contact.t -> bool) (arr : list Contact.t) : list nat :=
  refsFrom 0 p arr.

(** [ref.createdAt.getTime()]. *)
Definition createdAtOf (heap : list Contact.t) (ref : nat) : Z :=
  match nth_error heap ref with
  | Some c => Contact.createdAt c
  | None => 0
  end.

(** [oldestPrimary.id], where [oldestPrimary] is [primaryContacts[0]]:
    undefined when the array is empty. *)
Definition oldestPrimaryId (heap : list Contact.t) (oldestPrimary : option nat)
  : Async Z :=
  match oldestPrimary with
  | Some ref =>
      match nth_error heap ref with
      | Some c => ret (Contact.id c)
      | None => throw TypeError
      end
  | None => throw TypeError
  end.

(** The first loop of [mergePrimaryContacts]: every primary other than
    the oldest is updated in the store and on the object. *)
Fixpoint demoteOtherPrimaries (clk : Clock) (oldestPrimary : option nat)
  (primaryContacts : list nat) (heap : list Contact.t)
  : Async (list Contact.t) :=
  match primaryContacts with
  | [] => ret heap
  | ref :: rest =>
      match nth_error heap ref with
      | None => demoteOtherPrimaries clk oldestPrimary rest heap
      | Some primary =>
          oldestId <- oldestPrimaryId heap oldestPrimary ;;
          if negb (Contact.id primary =? oldestId) then
            updateContact clk (Contact.id primary)
              (ContactUpdates.mk (Some oldestId) (Some Secondary)) ;;;
            demoteOtherPrimaries clk oldestPrimary rest
              (Js.assign ref
                 (setLinkPrecedence Secondary
                    (setLinkedId (Some oldestId) primary)) heap)
          else demoteOtherPrimaries clk oldestPrimary rest heap
      end
  end.

(** The second loop: every secondary that does not point to the oldest
    primary is updated in the store and on the object. *)
Fixpoint relinkSecondaries (clk : Clock) (oldestPrimary : option nat)
  (secondaryContacts : list nat) (heap : list Contact.t)
  : Async (list Contact.t) :=
  match secondaryContacts with
  | [] => ret heap
  | ref :: rest =>
      match nth_error heap ref with
      | None => relinkSecondaries clk oldestPrimary rest heap
      | Some sec =>
          oldestId <- oldestPrimaryId heap oldestPrimary ;;
          if negb (Js.strictEqNum (Contact.linkedId sec) (Some oldestId)) then
            updateContact clk (Contact.id sec)
              (ContactUpdates.mk (Some oldestId) None) ;;;
            relinkSecondaries clk oldestPrimary rest
              (Js.assign ref (setLinkedId (Some oldestId) sec) heap)
          else relinkSecondaries clk oldestPrimary rest heap
      end
  end.

Definition mergePrimaryContacts (clk : Clock) (primaryIds : list Z)
  (email phoneNumber : option string) : Async ConsolidatedContact :=
  allContactsGroups <- promiseAll findAllLinkedContacts primaryIds ;;
  let allContacts := List.concat allContactsGroups in
  let primaryContacts :=
    Js.sortOn (createdAtOf allContacts) (filterRefs isPrimary allContacts) in
  let oldestPrimary := hd_error primaryContacts in
  allContacts <- demoteOtherPrimaries clk oldestPrimary primaryContacts allContacts ;;
  let secondaryContacts := filterRefs isSecondary allContacts in
  allContacts <- relinkSecondaries clk oldestPrimary secondaryContacts allContacts ;;
  let needsNewContact := needsNewSecondaryContact allContacts email phoneNumber in
  if needsNewContact then
    oldestId <- oldestPrimaryId allContacts oldestPrimary ;;
    newSecondary <- createContact clk
      (CreateContactData.mk (Js.orNull phoneNumber) (Js.orNull email)
                            (Some oldestId) Secondary) ;;
    settle (buildConsolidatedContact (allContacts ++ [newSecondary]))
  else
    settle (buildConsolidatedContact allContacts).

(** The governing primary ids of the matched contacts: the set built in
    [identify], as an array. *)
Definition allPrimaryIdsOf (existingContacts : list Contact.t) : list Z :=
  let primaryContacts := filter isPrimary existingContacts in
  let secondaryContacts := filter isSecondary existingContacts in
  let primaryIdsFromSecondary :=
    List.concat (map (fun c => match Contact.linkedId c with
                               | Some l => [l]
                               | None => []
                               end) secondaryContacts) in
  Js.newSet (map Contact.id primaryContacts ++ primaryIdsFromSecondary).

Definition identify (clk : Clock) (request : IdentifyRequest.t)
  : Async ConsolidatedContact :=
  let email := IdentifyRequest.email request in
  let phoneNumber := IdentifyRequest.phoneNumber request in
  existingContacts <- findContactsByEmailOrPhone email phoneNumber ;;
  if (List.length existingContacts =? 0)%nat then
    newContact <- createContact clk
      (CreateContactData.mk (Js.orNull phoneNumber) (Js.orNull email)
                            None Primary) ;;
    settle (buildConsolidatedContact [newContact])
  else
    let allPrimaryIds := allPrimaryIdsOf existingContacts in
    match allPrimaryIds with
    | [] => throw NoPrimaryContactsFound
    | [primaryId] =>
        allLinkedContacts <- findAllLinkedContacts primaryId ;;
        let needsNewContact :=
          needsNewSecondaryContact allLinkedContacts email phoneNumber in
        if needsNewContact then
          newSecondary <- createContact clk
            (CreateContactData.mk (Js.orNull phoneNumber) (Js.orNull email)
                                  (Some primaryId) Secondary) ;;
          settle (buildConsolidatedContact (allLinkedContacts ++ [newSecondary]))
        else
          settle (buildConsolidatedContact allLinkedContacts)
    | _ => mergePrimaryContacts clk allPrimaryIds email phoneNumber
    end.

(* ================================================================== *)
(** ** JavaScript numbers and regular expressions *)

(** The value of an arithmetic expression on integers: an integer,
    an infinity or [NaN]. The integers stay below 2^53, where the
    arithmetic of doubles is exact. *)
Module Num.
Inductive t : Type :=
| Finite (n : Z)
| Infinity
| NegInfinity
| NaN.

(** [Math.ceil(a / b)] on integers. *)
Definition ceilDiv (a b : Z) : t :=
  if b =? 0 then
    (if a =? 0 then NaN else if 0 <? a then Infinity else NegInfinity)
  else Finite (- ((- a) / b)).

(** [n < x] for an integer [n]. *)
Definition ltb (n : Z) (x : t) : bool :=
  match x with
  | Finite m => n <? m
  | Infinity => true
  | NegInfinity | NaN => false
  end.

(** [parsed || d], where [parsed] is the result of [parseInt]: [NaN]
    ([None]) and [0] are falsy. *)
Definition orDefault (parsed : option Z) (d : Z) : Z :=
  match parsed with
  | Some n => if n =? 0 then d else n
  | None => d
  end.
End Num.

(** A regular expression without groups or look-around, and
    [regex.test(s)] for a pattern anchored by [^] and [$]: the whole
    string has to match. The matcher takes the derivative of the
    expression by each character in turn. *)
Module Regex.
Inductive t : Type :=
| Never                          (* no string                 *)
| Empty                          (* the empty string          *)
| Class (p : ascii -> bool)      (* one character of a class  *)
| Cat (r1 r2 : t)
| Alt (r1 r2 : t)
| Star (r : t).

(** [r+] and a literal character. *)
Definition Plus (r : t) : t := Cat r (Star r).

Definition Char (c : ascii) : t := Class (Ascii.eqb c).

Fixpoint nullable (r : t) : bool :=
  match r with
  | Never => false
  | Empty => true
  | Class _ => false
  | Cat r1 r2 => nullable r1 && nullable r2
  | Alt r1 r2 => nullable r1 || nullable r2
  | Star _ => true
  end.

Fixpoint derive (c : ascii) (r : t) : t :=
  match r with
  | Never => Never
  | Empty => Never
  | Class p => if p c then Empty else Never
  | Cat r1 r2 =>
      if nullable r1 then Alt (Cat (derive c r1) r2) (derive c r2)
      else Cat (derive c r1) r2
  | Alt r1 r2 => Alt (derive c r1) (derive c r2)
  | Star r1 => Cat (derive c r1) (Star r1)
  end.

Fixpoint accepts (r : t) (s : list ascii) : bool :=
  match s with
  | [] => nullable r
  | c :: rest => accepts (derive c r) rest
  end.

Definition test (r : t) (s : string) : bool :=
  accepts r (list_ascii_of_string s).

(** The classes [\d] and [\s] on code units below 256. *)
Definition digit (c : ascii) : bool :=
  (48 <=? nat_of_ascii c)%nat && (nat_of_ascii c <=? 57)%nat.

Definition space (c : ascii) : bool :=
  existsb (Nat.eqb (nat_of_ascii c)) [9; 10; 11; 12; 13; 32; 160]%nat.
End Regex.

(* ================================================================== *)
(** ** database/Database: lookup by id and listing *)

(** [db.get(query)]: the first row of the result, if any. *)
Definition findContactById (id : Z) : Async (option Contact.t) :=
  found <- selectWhere (fun c => (Contact.id c =? id) && live c) ;;
  ret (hd_error found).

(** [ORDER BY createdAt DESC]. *)
Definition orderByCreatedAtDesc (l : list Contact.t) : list Contact.t :=
  Js.sortOn (fun c => - Contact.createdAt c) l.

(** [LIMIT ? OFFSET ?]: a negative limit is no limit, a negative offset
    is no offset. *)
Definition limitOffset (limit offset : Z) (l : list Contact.t) : list Contact.t :=
  let rest := skipn (Z.to_nat offset) l in
  if limit <? 0 then rest else firstn (Z.to_nat limit) rest.

Module Database.
Record Listing : Type := mkListing {
  contacts : list Contact.t;
  total : Z
}.

(** The count of the live rows is read first, then the page. *)
Definition getAllContacts (limit offset : Z) : Async Listing :=
  counted <- selectWhere live ;;
  found <- selectWhere live ;;
  ret (mkListing (limitOffset limit offset (orderByCreatedAtDesc found))
                 (Z.of_nat (List.length counted))).
End Database.

(* ================================================================== *)
(** ** services/ContactService: listing *)

Module ContactService.
Record Pagination : Type := mkPagination {
  currentPage : Z;
  totalPages : Num.t;
  totalContacts : Z;
  limit : Z;
  hasNext : bool;
  hasPrevious : bool
}.

Record Page : Type := mkPage {
  contacts : list Contact.t;
  pagination : Pagination
}.

Definition getAllContacts (limit page : Z) : Async Page :=
  let offset := (page - 1) * limit in
  result <- Database.getAllContacts limit offset ;;
  let totalPages := Num.ceilDiv (Database.total result) limit in
  ret (mkPage (Database.contacts result)
              (mkPagination page totalPages (Database.total result) limit
                            (Num.ltb page totalPages) (1 <? page))).
End ContactService.

(* ================================================================== *)
(** ** controllers/ContactController *)

Module ContactController.

(** What [res.status(code).json(body)] sends. *)
Inductive Body : Type :=
| ErrorBody (error : string)
| ContactBody (contact : ConsolidatedContact)
| ListBody (success : bool) (data : list Contact.t)
           (pagination : ContactService.Pagination).

Record Response : Type := respond {
  status : Z;
  body : Body
}.

(** [/^[^\s@]+@[^\s@]+\.[^\s@]+$/] *)
Definition notSpaceOrAt (c : ascii) : bool :=
  negb (Regex.space c || Ascii.eqb c "@").

Definition emailRegex : Regex.t :=
  Regex.Cat (Regex.Plus (Regex.Class notSpaceOrAt))
    (Regex.Cat (Regex.Char "@")
      (Regex.Cat (Regex.Plus (Regex.Class notSpaceOrAt))
        (Regex.Cat (Regex.Char ".")
          (Regex.Plus (Regex.Class notSpaceOrAt))))).

Definition isValidEmail (email : string) : bool :=
  Regex.test emailRegex email.

(** [/^[\d\s\-\(\)\+]+$/] *)
Definition phoneChar (c : ascii) : bool :=
  Regex.digit c || Regex.space c ||
  Ascii.eqb c "-" || Ascii.eqb c "(" || Ascii.eqb c ")" || Ascii.eqb c "+".

Definition phoneRegex : Regex.t := Regex.Plus (Regex.Class phoneChar).

(** [phoneNumber.replace(/\D/g, '')] *)
Definition digitsOf (phoneNumber : string) : list ascii :=
  filter Regex.digit (list_ascii_of_string phoneNumber).

Definition isValidPhoneNumber (phoneNumber : string) : bool :=
  Regex.test phoneRegex phoneNumber &&
  (6 <=? List.length (digitsOf phoneNumber))%nat.

(** A field of [req.body]: missing, a string, or a value of another
    type ([null], a boolean, a number, an array, an object). Of such a
    value the handler uses whether it is truthy and what [String(v)]
    returns, [None] when the conversion throws (an object with a
    property [toString], or an array that holds one). *)
Inductive Field : Type :=
| Missing
| Text (s : string)
| Other (isTruthy : bool) (shown : option string).

Definition truthy (v : Field) : bool :=
  match v with
  | Missing => false
  | Text s => Js.truthy (Some s)
  | Other isTruthy _ => isTruthy
  end.

Definition isText (v : Field) : bool :=
  match v with
  | Text _ => true
  | _ => false
  end.

(** The string that [v] is, if it is one. *)
Definition asText (v : Field) : option string :=
  match v with
  | Text s => Some s
  | _ => None
  end.

(** A truthy value that is not a string. *)
Definition foreign (v : Field) : bool := truthy v && negb (isText v).

(** [String(v)], as [regex.test(v)] converts its argument. *)
Definition toString (v : Field) : Outcome string :=
  match v with
  | Missing => Resolved "undefined"%string
  | Text s => Resolved s
  | Other _ (Some shown) => Resolved shown
  | Other _ None => Rejected TypeError
  end.

(** [this.isValidEmail(v)] *)
Definition isValidEmailOf (v : Field) : Outcome bool :=
  match toString v with
  | Resolved s => Resolved (isValidEmail s)
  | Rejected e => Rejected e
  end.

(** [this.isValidPhoneNumber(v)]: only a string has the method
    [replace], which is called when the pattern matches. *)
Definition isValidPhoneNumberOf (v : Field) : Outcome bool :=
  match v with
  | Text s => Resolved (isValidPhoneNumber s)
  | _ =>
      match toString v with
      | Resolved s =>
          if Regex.test phoneRegex s then Rejected TypeError else Resolved false
      | Rejected e => Rejected e
      end
  end.

(** [v && !valid(v)] *)
Definition givenButNot (valid : Field -> Outcome bool) (v : Field) : Outcome bool :=
  if truthy v then
    match valid v with
    | Resolved ok => Resolved (negb ok)
    | Rejected e => Rejected e
    end
  else Resolved false.

(** [v || undefined] for a value that is a string when it is truthy. *)
Definition orUndefined (v : Field) : option string := Js.orNull (asText v).

(** What the [catch] block sends. *)
Definition internalError : Response :=
  respond 500 (ErrorBody "Internal server error").

(** [reqBody] is [req.body]: [None] when it is [undefined], and
    otherwise its fields [email] and [phoneNumber]. [beyond] is the call
    of the service with a truthy value that is not a string. *)
Definition identify (beyond : Field -> Field -> Async ConsolidatedContact)
  (clk : Clock) (reqBody : option (Field * Field))
  : Database -> Database * Response :=
  fun db =>
    match reqBody with
    | None => (db, internalError)
    | Some (email, phoneNumber) =>
        if negb (truthy email) && negb (truthy phoneNumber) then
          (db, respond 400
                 (ErrorBody "At least one of email or phoneNumber must be provided"))
        else
          match givenButNot isValidEmailOf email with
          | Rejected _ => (db, internalError)
          | Resolved true => (db, respond 400 (ErrorBody "Invalid email format"))
          | Resolved false =>
              match givenButNot isValidPhoneNumberOf phoneNumber with
              | Rejected _ => (db, internalError)
              | Resolved true =>
                  (db, respond 400 (ErrorBody "Invalid phone number format"))
              | Resolved false =>
                  let service :=
                    if foreign email || foreign phoneNumber
                    then beyond email phoneNumber
                    else identify clk (IdentifyRequest.mk (orUndefined email)
                                                          (orUndefined phoneNumber)) in
                  match service db with
                  | (db', Resolved consolidatedContact) =>
                      (db', respond 200 (ContactBody consolidatedContact))
                  | (db', Rejected _) => (db', internalError)
                  end
              end
          end
    end.

(** [parsedLimit] and [parsedPage] are what [parseInt] returns for the
    two query parameters: an integer, or [None] for [NaN]. *)
Definition getAllContacts (parsedLimit parsedPage : option Z)
  : Database -> Database * Response :=
  fun db =>
    let limit := Num.orDefault parsedLimit 50 in
    let page := Num.orDefault parsedPage 1 in
    if (limit <? 1) || (100 <? limit) then
      (db, respond 400 (ErrorBody "Limit must be between 1 and 100"))
    else if page <? 1 then
      (db, respond 400 (ErrorBody "Page must be greater than 0"))
    else
      match ContactService.getAllContacts limit page db with
      | (db', Resolved result) =>
          (db', respond 200 (ListBody true (ContactService.contacts result)
                                           (ContactService.pagination result)))
      | (db', Rejected _) =>
          (db', respond 500 (ErrorBody "Internal server error"))
      end.
End ContactController.

(* ================================================================== *)
(** ** What the queries return, and series of calls *)

(** No statement fails. *)
Definition healthy (db : Database) : Prop := faultAt db = None.

(** The candidate set of an observation. *)
Definition candidates (request : IdentifyRequest.t) (db : Database)
  : list Contact.t :=
  match whereEmailOrPhone (IdentifyRequest.email request)
                          (IdentifyRequest.phoneNumber request) with
  | Some cond => filter cond (rows db)
  | None => []
  end.

Definition governingIds (request : IdentifyRequest.t) (db : Database) : list Z :=
  allPrimaryIdsOf (candidates request db).

(** The members of the identity of [primaryId], as
    [findAllLinkedContacts] fetches them. *)
Definition membersOf (primaryId : Z) (db : Database) : list Contact.t :=
  Js.sortOn Contact.createdAt
    (filter (fun c => live c && linkedTo primaryId c) (rows db)).

(** The groups fetched for a list of governing ids, flattened. *)
Definition fetchedMembers (primaryIds : list Z) (db : Database)
  : list Contact.t :=
  List.concat (map (fun p => membersOf p db) primaryIds).

(** The store when no contact exists yet. *)
Definition emptyStore : Database := mkDatabase [] 0 [] None.

(** The store after a series of calls, each with the clocks it reads. *)
Definition afterCalls (calls : list (Clock * IdentifyRequest.t)) (db : Database)
  : Database :=
  fold_left (fun d call => fst (identify (fst call) (snd call) d)) calls db.

(** * Part II: the notions of the statements *)

(* ================================================================== *)
(** ** The loops of the merge in closed form *)

(** The statement is an update. *)
Definition isUpdate (cmd : Command) : Prop :=
  match cmd with Update _ _ => True | Insert _ => False end.

(** What a loop does to an object it visits, and the row update it
    issues for it. *)
Definition demote (oldestId : Z) (c : Contact.t) : Contact.t :=
  setLinkPrecedence Secondary (setLinkedId (Some oldestId) c).

Definition isOther (oldestId : Z) (c : Contact.t) : bool :=
  negb (Contact.id c =? oldestId).

Definition linkedElsewhere (oldestId : Z) (c : Contact.t) : bool :=
  negb (Js.strictEqNum (Contact.linkedId c) (Some oldestId)).

Definition demoteUpdate (oldestId : Z) : ContactUpdates.t :=
  ContactUpdates.mk (Some oldestId) (Some Secondary).

Definition relinkUpdate (oldestId : Z) : ContactUpdates.t :=
  ContactUpdates.mk (Some oldestId) None.

(** One iteration of a loop of the merge, on the store and on the array
    of objects: the object that [ref] designates is visited when it passes
    [test]; the row with its identifier is updated with [upd] and the
    object is assigned [mut] of itself. *)
Definition loopStep (clk : Clock) (test : Contact.t -> bool)
  (upd : ContactUpdates.t) (mut : Contact.t -> Contact.t)
  (st : Database * list Contact.t) (ref : nat) : Database * list Contact.t :=
  match nth_error (snd st) ref with
  | Some c =>
      if test c
      then (updated clk (Contact.id c) upd (fst st), Js.assign ref (mut c) (snd st))
      else st
  | None => st
  end.

Definition loopRun (clk : Clock) (test : Contact.t -> bool)
  (upd : ContactUpdates.t) (mut : Contact.t -> Contact.t)
  (refs : list nat) (st : Database * list Contact.t) : Database * list Contact.t :=
  fold_left (loopStep clk test upd mut) refs st.

(** An object after its visit. *)
Definition visit (test : Contact.t -> bool) (mut : Contact.t -> Contact.t)
  (c : Contact.t) : Contact.t :=
  if test c then mut c else c.

(** The row has the identifier of a visited object that passes the test. *)
Definition touched (test : Contact.t -> bool) (heap : list Contact.t)
  (refs : list nat) (row : Contact.t) : bool :=
  existsb (fun ref => match nth_error heap ref with
                      | Some c => test c && (Contact.id c =? Contact.id row)
                      | None => false
                      end) refs.

(** [ref.createdAt.getTime()] through the object the reference designates. *)
Definition createdAtOpt (o : option Contact.t) : Z :=
  match o with Some c => Contact.createdAt c | None => 0 end.

(** The oldest primary of the fetched members: the head of the sorted
    array of primaries. *)
Definition oldestOf (allContacts : list Contact.t) : option Contact.t :=
  hd_error (Js.sortOn Contact.createdAt (filter isPrimary allContacts)).

(** The objects after the first and after the second loop. *)
Definition afterDemote (oldestId : Z) (allContacts : list Contact.t)
  : list Contact.t :=
  map (fun c => if isPrimary c
                then visit (isOther oldestId) (demote oldestId) c else c)
      allContacts.

Definition afterRelink (oldestId : Z) (allContacts : list Contact.t)
  : list Contact.t :=
  map (fun c => if isSecondary c
                then visit (linkedElsewhere oldestId) (setLinkedId (Some oldestId)) c
                else c)
      allContacts.

Definition mergedObjects (oldestId : Z) (allContacts : list Contact.t)
  : list Contact.t :=
  afterRelink oldestId (afterDemote oldestId allContacts).

(** A row of the store after the first and after the second loop. *)
Definition rowAfterDemote (clk : Clock) (oldestId : Z)
  (allContacts : list Contact.t) (row : Contact.t) : Contact.t :=
  if existsb (fun c => isPrimary c && isOther oldestId c &&
                       (Contact.id c =? Contact.id row)) allContacts
  then applyUpdates clk (demoteUpdate oldestId) row else row.

Definition rowAfterRelink (clk : Clock) (oldestId : Z)
  (demoted : list Contact.t) (row : Contact.t) : Contact.t :=
  if existsb (fun c => isSecondary c && linkedElsewhere oldestId c &&
                       (Contact.id c =? Contact.id row)) demoted
  then applyUpdates clk (relinkUpdate oldestId) row else row.

Definition mergedRow (clk : Clock) (oldestId : Z)
  (allContacts : list Contact.t) (row : Contact.t) : Contact.t :=
  rowAfterRelink clk oldestId (afterDemote oldestId allContacts)
                 (rowAfterDemote clk oldestId allContacts row).

(* ================================================================== *)
(** ** The view and the test for new information, in the words of the specification *)

(** Ascending order of the keys. *)
Definition keyLe {A : Type} (key : A -> Z) (a b : A) : Prop := key a <= key b.

(** Ascending order of createdAt. *)
Definition byCreatedAt (a b : Contact.t) : Prop :=
  Contact.createdAt a <= Contact.createdAt b.

(** The distinct strings of a list, each at the place of its first
    occurrence. *)
Fixpoint firstOccurrences (l : list string) : list string :=
  match l with
  | [] => []
  | s :: t => s :: filter (fun x => negb (String.eqb x s)) (firstOccurrences t)
  end.

(** The values of a field that are present, in the order of the records. *)
Definition presentValues (field : Contact.t -> option string)
  (records : list Contact.t) : list string :=
  flat_map (fun c => match Js.orNull (field c) with
                     | Some s => [s]
                     | None => []
                     end) records.

(** [arr.push(s)] unless the array includes [s]. *)
Definition pushOne (arr : list string) (s : string) : list string :=
  if Js.includes arr s then arr else arr ++ [s].

(** A member has exactly the pair of the observation. *)
Definition hasExactPair (members : list Contact.t) (request : IdentifyRequest.t)
  : Prop :=
  exists c, In c members /\
            Contact.email c = Js.orNull (IdentifyRequest.email request) /\
            Contact.phoneNumber c = Js.orNull (IdentifyRequest.phoneNumber request).

(** The observation supplies an email or a phone number that no member
    has. *)
Definition suppliesUnseen (members : list Contact.t) (request : IdentifyRequest.t)
  : Prop :=
  (exists e, Js.orNull (IdentifyRequest.email request) = Some e /\
             forall c, In c members -> Contact.email c <> Some e) \/
  (exists p, Js.orNull (IdentifyRequest.phoneNumber request) = Some p /\
             forall c, In c members -> Contact.phoneNumber c <> Some p).

(** The new-information test in the words of the specification. *)
Definition newInformation (members : list Contact.t) (request : IdentifyRequest.t)
  : Prop :=
  ~ hasExactPair members request /\ suppliesUnseen members request.

(* ================================================================== *)
(** ** The invariant of the store *)

(** The identifiers of the table are distinct (PRIMARY KEY). *)
Definition uniqueIds (db : Database) : Prop :=
  NoDup (map Contact.id (rows db)).

(** A primary that is not removed has no link. *)
Definition primariesUnlinked (db : Database) : Prop :=
  forall c, In c (rows db) -> live c = true -> isPrimary c = true ->
            Contact.linkedId c = None.

(** The link of a secondary that is not removed is the identifier of a
    primary that is not removed: no secondary points to a secondary. *)
Definition secondariesPointToPrimary (db : Database) : Prop :=
  forall c, In c (rows db) -> live c = true -> isSecondary c = true ->
            exists p, In p (rows db) /\ live p = true /\ isPrimary p = true /\
                      Contact.linkedId c = Some (Contact.id p).


Definition wellLinked (db : Database) : Prop :=
  uniqueIds db /\ primariesUnlinked db /\ secondariesPointToPrimary db.


(* ================================================================== *)
(** ** What a call does to the table *)

(** The record that an observation adds under a primary. *)
Definition secondaryData (request : IdentifyRequest.t) (primaryId : Z)
  : CreateContactData.t :=
  CreateContactData.mk (Js.orNull (IdentifyRequest.phoneNumber request))
                       (Js.orNull (IdentifyRequest.email request))
                       (Some primaryId) Secondary.

Definition primaryData (request : IdentifyRequest.t) : CreateContactData.t :=
  CreateContactData.mk (Js.orNull (IdentifyRequest.phoneNumber request))
                       (Js.orNull (IdentifyRequest.email request))
                       None Primary.

(** The call from [db] to [db'] created no record: the table holds the
    same identifiers, and the statements executed are updates. *)
Definition createsNoRecord (db db' : Database) : Prop :=
  map Contact.id (rows db') = map Contact.id (rows db) /\
  exists updates,
    journal db' = journal db ++ updates /\ Forall isUpdate updates.

(** The call from [db] to [db'] created exactly one record, a secondary of
    [target] with the pair of the observation: the rows that existed are
    kept under their identifiers and one row with a new identifier follows
    them; one insertion was executed, after the updates. *)
Definition createsOneSecondary (db db' : Database)
  (request : IdentifyRequest.t) (target : Z) : Prop :=
  exists kept created updates,
    rows db' = kept ++ [created] /\
    map Contact.id kept = map Contact.id (rows db) /\
    ~ In (Contact.id created) (map Contact.id (rows db)) /\
    Contact.linkPrecedence created = Secondary /\
    Contact.linkedId created = Some target /\
    Contact.email created = Js.orNull (IdentifyRequest.email request) /\
    Contact.phoneNumber created = Js.orNull (IdentifyRequest.phoneNumber request) /\
    journal db' = journal db ++ updates ++ [Insert (secondaryData request target)] /\
    Forall isUpdate updates.

(** The primary that a matched observation is attached to: the governing
    primary when there is one, the oldest primary of the fetched members
    when there are several. *)
Definition governingTarget (request : IdentifyRequest.t) (db : Database)
  : option Z :=
  match governingIds request db with
  | [] => None
  | [primaryId] => Some primaryId
  | primaryIds => option_map Contact.id (oldestOf (fetchedMembers primaryIds db))
  end.

(** A stored record, not removed and linked if it is a secondary, has
    exactly the pair of an observation that gives a value. *)
Definition storedExactPair (request : IdentifyRequest.t) (db : Database) : Prop :=
  Js.truthy (IdentifyRequest.email request) ||
  Js.truthy (IdentifyRequest.phoneNumber request) = true /\
  exists c, In c (rows db) /\ live c = true /\
            (isPrimary c = true \/ Contact.linkedId c <> None) /\
            Contact.email c = Js.orNull (IdentifyRequest.email request) /\
            Contact.phoneNumber c = Js.orNull (IdentifyRequest.phoneNumber request).

(** The observation gives a value, and every value it gives is on a stored
    record that is not removed and that is a primary or has a link. *)
Definition valuesMet (request : IdentifyRequest.t) (db : Database) : Prop :=
  Js.truthy (IdentifyRequest.email request) ||
  Js.truthy (IdentifyRequest.phoneNumber request) = true /\
  (forall v, Js.orNull (IdentifyRequest.email request) = Some v ->
             exists c, In c (rows db) /\ live c = true /\
                       (isPrimary c = true \/ Contact.linkedId c <> None) /\
                       Contact.email c = Some v) /\
  (forall v, Js.orNull (IdentifyRequest.phoneNumber request) = Some v ->
             exists c, In c (rows db) /\ live c = true /\
                       (isPrimary c = true \/ Contact.linkedId c <> None) /\
                       Contact.phoneNumber c = Some v).

(** The two inconsistencies of the linkage that an observation can meet:
    candidates without any governing primary id, and governing ids whose
    fetched members hold no primary. *)
Definition noGoverningPrimary (request : IdentifyRequest.t) (db : Database) : Prop :=
  candidates request db <> [] /\ governingIds request db = [].

Definition noPrimaryMember (request : IdentifyRequest.t) (db : Database) : Prop :=
  governingIds request db <> [] /\
  filter isPrimary (fetchedMembers (governingIds request db) db) = [].

(** The call from [db] to [db'] merged the fetched members [all] into the
    identity of the primary with the earliest createdAt among them: the row
    of that survivor stays a primary; every other primary of [all] is a
    secondary linked to the survivor afterwards, and so is every secondary
    of [all]; the rows keep their identifiers, emails, phone numbers and
    times of creation, and with distinct identifiers the rows that are not
    in [all] are left as they are; a record that the call adds is a
    secondary of the survivor; and the view names the survivor. *)
Definition mergedIntoOldest (db db' : Database) (all : list Contact.t)
  (outcome : Outcome ConsolidatedContact) : Prop :=
  exists survivor rewritten created view,
    In survivor all /\
    isPrimary survivor = true /\
    (forall p, In p all -> isPrimary p = true ->
               Contact.createdAt survivor <= Contact.createdAt p) /\
    rows db' = map rewritten (rows db) ++ created /\
    (forall r, In r all -> isPrimary r = true ->
               Contact.id r = Contact.id survivor ->
               Contact.linkPrecedence (rewritten r) = Primary) /\
    (forall r, In r all -> isPrimary r = true ->
               Contact.id r <> Contact.id survivor ->
               Contact.linkPrecedence (rewritten r) = Secondary /\
               Contact.linkedId (rewritten r) = Some (Contact.id survivor)) /\
    (forall r, In r all -> isSecondary r = true ->
               Contact.linkPrecedence (rewritten r) = Secondary /\
               Contact.linkedId (rewritten r) = Some (Contact.id survivor)) /\
    (forall r, Contact.id (rewritten r) = Contact.id r /\
               Contact.email (rewritten r) = Contact.email r /\
               Contact.phoneNumber (rewritten r) = Contact.phoneNumber r /\
               Contact.createdAt (rewritten r) = Contact.createdAt r /\
               Contact.deletedAt (rewritten r) = Contact.deletedAt r) /\
    (uniqueIds db ->
     forall r, In r (rows db) -> ~ In r all -> rewritten r = r) /\
    (forall c, In c created ->
               Contact.linkPrecedence c = Secondary /\
               Contact.linkedId c = Some (Contact.id survivor)) /\
    outcome = Resolved view /\
    primaryContactId view = Contact.id survivor.

(** The survivor of the merge from [db] to [db'] is the first of the
    fetched members [all] among the primaries with the earliest createdAt:
    the primaries fetched before it are strictly younger, those fetched
    after it are not older. The view names it, its row keeps its
    precedence, and every other member is a secondary linked to it. *)
Definition firstEarliestSurvives (db db' : Database) (all : list Contact.t)
  (outcome : Outcome ConsolidatedContact) : Prop :=
  exists before survivor after view rewritten created,
    all = before ++ survivor :: after /\
    isPrimary survivor = true /\
    (forall p, In p before -> isPrimary p = true ->
               Contact.createdAt survivor < Contact.createdAt p) /\
    (forall p, In p after -> isPrimary p = true ->
               Contact.createdAt survivor <= Contact.createdAt p) /\
    outcome = Resolved view /\
    primaryContactId view = Contact.id survivor /\
    rows db' = map rewritten (rows db) ++ created /\
    (forall r, Contact.id r = Contact.id survivor ->
               Contact.linkPrecedence (rewritten r) = Contact.linkPrecedence r) /\
    (forall r, In r all -> Contact.id r <> Contact.id survivor ->
               Contact.linkPrecedence (rewritten r) = Secondary /\
               Contact.linkedId (rewritten r) = Some (Contact.id survivor)).

(* ================================================================== *)
(** ** Writes and failures *)

(** What the store holds, apart from its fault counter. *)
Definition stored (db : Database) : list Contact.t * Z * list Command :=
  (rows db, sequence db, journal db).

(** The effect of a write that the store executes. *)
Definition execute (clk : Clock) (db : Database) (cmd : Command) : Database :=
  match cmd with
  | Insert data => inserted clk data db
  | Update target updates => updated clk target updates db
  end.

Definition replay (clk : Clock) (cmds : list Command) (db : Database) : Database :=
  fold_left (execute clk) cmds db.

(** Whatever its outcome, a computation leaves the store as the writes it
    executed made it: none is undone. *)
Definition persists {A : Type} (clk : Clock) (m : Async A) : Prop :=
  forall db, exists cmds, stored (fst (m db)) = stored (replay clk cmds db).

(** The store [db] when the statement of index [n] from now is going to
    fail. *)
Definition withFault (n : nat) (db : Database) : Database :=
  mkDatabase (rows db) (sequence db) (journal db) (Some n).

(* ================================================================== *)
(** ** Stores of the examples *)

(** The store of the scenario of the specification after its first two
    calls: a primary and one secondary that shares its phone number. *)
Definition lorraineStore : Database :=
  afterCalls
    [(mkClock 100 100,
      IdentifyRequest.mk (Some "lorraine@x"%string) (Some "123"%string));
     (mkClock 200 200,
      IdentifyRequest.mk (Some "mcfly@x"%string) (Some "123"%string))]
    emptyStore.

(** Two identities, george's (created first) and biff's, which has a
    secondary; the observation that follows bridges them. *)
Definition georgeBiffStore : Database :=
  afterCalls
    [(mkClock 100 100,
      IdentifyRequest.mk (Some "george@x"%string) (Some "919191"%string));
     (mkClock 200 200,
      IdentifyRequest.mk (Some "biff@x"%string) (Some "717171"%string));
     (mkClock 300 300,
      IdentifyRequest.mk (Some "biff@x"%string) (Some "555555"%string))]
    emptyStore.

(** Two primaries created within the same second, and a secondary of the
    first of them. *)
Definition tieStore : Database :=
  afterCalls
    [(mkClock 100 100, IdentifyRequest.mk (Some "a@x"%string) (Some "111111"%string));
     (mkClock 100 100, IdentifyRequest.mk (Some "b@x"%string) (Some "222222"%string));
     (mkClock 200 200, IdentifyRequest.mk (Some "a@x"%string) (Some "333333"%string))]
    emptyStore.

(** A store whose primary was removed: its secondary is left without a
    primary among the fetched members. *)
Definition orphanStore : Database :=
  mkDatabase
    [Contact.mk 1 (Some "123"%string) (Some "lorraine@x"%string) None Primary
                100 100 (Some 250);
     Contact.mk 2 (Some "123"%string) (Some "mcfly@x"%string) (Some 1) Secondary
                200 200 None]
    2 [] None.

(* ================================================================== *)
(** ** The strings a regular expression matches *)

Inductive Matches : Regex.t -> list ascii -> Prop :=
| MatchesEmpty : Matches Regex.Empty []
| MatchesClass (p : ascii -> bool) (c : ascii) :
    p c = true -> Matches (Regex.Class p) [c]
| MatchesCat (r1 r2 : Regex.t) (s1 s2 : list ascii) :
    Matches r1 s1 -> Matches r2 s2 -> Matches (Regex.Cat r1 r2) (s1 ++ s2)
| MatchesAltL (r1 r2 : Regex.t) (s : list ascii) :
    Matches r1 s -> Matches (Regex.Alt r1 r2) s
| MatchesAltR (r1 r2 : Regex.t) (s : list ascii) :
    Matches r2 s -> Matches (Regex.Alt r1 r2) s
| MatchesStarNil (r : Regex.t) : Matches (Regex.Star r) []
| MatchesStarApp (r : Regex.t) (s1 s2 : list ascii) :
    Matches r s1 -> Matches (Regex.Star r) s2 ->
    Matches (Regex.Star r) (s1 ++ s2).

(** A non-empty string without white space and without [@]. *)
Definition plainPart (s : string) : Prop :=
  s <> EmptyString /\
  Forall (fun c => Regex.space c = false /\ c <> "@"%char)
         (list_ascii_of_string s).

(** The characters a phone number may hold. *)
Definition phoneCharacter (c : ascii) : Prop :=
  Regex.digit c = true \/ Regex.space c = true \/
  In c ["-"; "("; ")"; "+"]%char.

(* ================================================================== *)
(** ** The listing *)






(* ================================================================== *)
(** ** The view and the store *)

(** An object of the service and a row of the table show the same
    record. *)
Definition sameRecord (c r : Contact.t) : Prop :=
  Contact.id c = Contact.id r /\
  Contact.email c = Contact.email r /\
  Contact.phoneNumber c = Contact.phoneNumber r /\
  Contact.linkPrecedence c = Contact.linkPrecedence r.

(** The objects [contacts] are the records of the identity of
    [primaryId] in the store: each of them shows a live row that has the
    identifier [primaryId] or is linked to it, each such row is shown by
    one of them, and a live row with the identifier [primaryId] is a
    primary. *)
Definition standFor (contacts : list Contact.t) (primaryId : Z) (db : Database)
  : Prop :=
  (forall c, In c contacts ->
             exists r, In r (rows db) /\ live r = true /\
                       linkedTo primaryId r = true /\ sameRecord c r) /\
  (forall r, In r (rows db) -> live r = true -> linkedTo primaryId r = true ->
             exists c, In c contacts /\ sameRecord c r) /\
  (forall r, In r (rows db) -> live r = true -> Contact.id r = primaryId ->
             isPrimary r = true).

(** The view is the identity of its primary as the store holds it: the
    primary is a live primary of the table, the secondary identifiers
    are those of the live secondaries linked to it, and the emails and
    phone numbers are those of these records. *)
Definition viewOfStore (view : ConsolidatedContact) (db : Database) : Prop :=
  (exists p, In p (rows db) /\ live p = true /\ isPrimary p = true /\
             Contact.id p = primaryContactId view) /\
  (forall i, In i (secondaryContactIds view) <->
             exists c, In c (rows db) /\ live c = true /\
                       isSecondary c = true /\
                       Contact.linkedId c = Some (primaryContactId view) /\
                       Contact.id c = i) /\
  (forall e, In e (emails view) <->
             exists c, In c (rows db) /\ live c = true /\
                       linkedTo (primaryContactId view) c = true /\
                       Js.orNull (Contact.email c) = Some e) /\
  (forall n, In n (phoneNumbers view) <->
             exists c, In c (rows db) /\ live c = true /\
                       linkedTo (primaryContactId view) c = true /\
                       Js.orNull (Contact.phoneNumber c) = Some n).

(** The row has the email or the phone number of the observation. *)
Definition sharesValue (request : IdentifyRequest.t) (r : Contact.t) : Prop :=
  (exists e, Js.orNull (IdentifyRequest.email request) = Some e /\
             Contact.email r = Some e) \/
  (exists n, Js.orNull (IdentifyRequest.phoneNumber request) = Some n /\
             Contact.phoneNumber r = Some n).

(** Two views show the same identity: the same primary and the same
    identifiers, emails and phone numbers, whatever their order. *)
Definition sameIdentity (v w : ConsolidatedContact) : Prop :=
  primaryContactId v = primaryContactId w /\
  (forall i, In i (secondaryContactIds v) <-> In i (secondaryContactIds w)) /\
  (forall e, In e (emails v) <-> In e (emails w)) /\
  (forall n, In n (phoneNumbers v) <-> In n (phoneNumbers w)).

(** An object of the merge after both loops. *)
Definition mergedObject (oldestId : Z) (c : Contact.t) : Contact.t :=
  let d := if isPrimary c
           then visit (isOther oldestId) (demote oldestId) c else c in
  if isSecondary d
  then visit (linkedElsewhere oldestId) (setLinkedId (Some oldestId)) d
  else d.

(* ================================================================== *)
(** ** What the writes of a call leave alone *)

(** A write of the kind [identify] issues: an insertion, or an update
    that sets the link and does not make a primary. *)
Definition linkingWrite (cmd : Command) : Prop :=
  match cmd with
  | Insert _ => True
  | Update _ updates =>
      ContactUpdates.linkedId updates <> None /\
      ContactUpdates.linkPrecedence updates <> Some Primary
  end.

Definition isInsertion (cmd : Command) : bool :=
  match cmd with Insert _ => true | Update _ _ => false end.

Definition insertions (cmds : list Command) : nat :=
  List.length (filter isInsertion cmds).

(** The row [r'] is the row [r] after such writes: the identifier, the
    email, the phone number, the time of creation and the removal mark
    are the same, a secondary is still a secondary and a link is still a
    link. *)
Definition keptAs (r r' : Contact.t) : Prop :=
  Contact.id r' = Contact.id r /\
  Contact.email r' = Contact.email r /\
  Contact.phoneNumber r' = Contact.phoneNumber r /\
  Contact.createdAt r' = Contact.createdAt r /\
  Contact.deletedAt r' = Contact.deletedAt r /\
  (isSecondary r = true -> isSecondary r' = true) /\
  (Contact.linkedId r <> None -> Contact.linkedId r' <> None).

(** The table [rs'] is the table [rs] with its rows kept and [n] rows
    added after them under larger identifiers. *)
Definition grownBy (n : nat) (rs rs' : list Contact.t) : Prop :=
  exists kept added,
    rs' = kept ++ added /\
    Forall2 keptAs rs kept /\
    List.length added = n /\
    (forall c r, In c added -> In r rs -> Contact.id r < Contact.id c) /\
    (NoDup (map Contact.id rs) -> NoDup (map Contact.id rs')).

(** Whatever its outcome, a computation leaves the store as linking
    writes made it, at most [n] of them insertions. *)
Definition writesWithin {A : Type} (n : nat) (clk : Clock) (m : Async A) : Prop :=
  forall db, exists cmds,
    Forall linkingWrite cmds /\ (insertions cmds <= n)%nat /\
    stored (fst (m db)) = stored (replay clk cmds db).

(* ================================================================== *)
(** ** The oldest record of an identity *)

(** The primary of an identity is not younger than a secondary of it. *)
Definition primaryEarliest (db : Database) : Prop :=
  forall p c, In p (rows db) -> In c (rows db) ->
              live p = true -> live c = true ->
              isPrimary p = true -> isSecondary c = true ->
              Contact.linkedId c = Some (Contact.id p) ->
              Contact.createdAt p <= Contact.createdAt c.

(** No record of the store was created after the time [t]. *)
Definition notAfter (t : Z) (db : Database) : Prop :=
  forall r, In r (rows db) -> Contact.createdAt r <= t.

(** The clock of the store does not run backwards along the calls, from
    the time [t] on. *)
Definition clockAdvances (t : Z) (calls : list (Clock * IdentifyRequest.t)) : Prop :=
  Forall (fun call => t <= dbNow (fst call)) calls /\
  StronglySorted (fun a b => dbNow (fst a) <= dbNow (fst b)) calls.

(* ================================================================== *)
(** ** What the handler finds in a field *)

(** The field is truthy and [String] makes [s] of it. *)
Definition readsAs (v : ContactController.Field) (s : string) : Prop :=
  ContactController.truthy v = true /\
  ContactController.toString v = Resolved s.

(** The field is truthy and [String] throws on it. *)
Definition unreadable (v : ContactController.Field) : Prop :=
  ContactController.truthy v = true /\
  ContactController.toString v = Rejected TypeError.

(** The email is given and does not read as a well-formed email. *)
Definition emailWrong (v : ContactController.Field) : Prop :=
  exists s, readsAs v s /\ ContactController.isValidEmail s = false.

(** The email is not given, or reads as a well-formed email. *)
Definition emailPasses (v : ContactController.Field) : Prop :=
  ContactController.truthy v = false \/
  exists s, readsAs v s /\ ContactController.isValidEmail s = true.

(** The phone number is a string that is given and not well formed, or
    another truthy value that does not read as the characters of a
    phone number. *)
Definition phoneWrong (v : ContactController.Field) : Prop :=
  (ContactController.truthy v = true /\
   exists n, v = ContactController.Text n /\
             ContactController.isValidPhoneNumber n = false) \/
  (ContactController.foreign v = true /\
   exists s, ContactController.toString v = Resolved s /\
             Regex.test ContactController.phoneRegex s = false).

(** The phone number is a truthy value that is not a string, on which
    [String] throws or which reads as the characters of a phone number:
    the call of [replace] throws then. *)
Definition phoneThrows (v : ContactController.Field) : Prop :=
  ContactController.foreign v = true /\
  (ContactController.toString v = Rejected TypeError \/
   exists s, ContactController.toString v = Resolved s /\
             Regex.test ContactController.phoneRegex s = true).

(** The phone number is not given, or is a well-formed string. *)
Definition phonePasses (v : ContactController.Field) : Prop :=
  ContactController.truthy v = false \/
  exists n, v = ContactController.Text n /\
            ContactController.isValidPhoneNumber n = true.

(** The email is not a string and reads as a well-formed email: the
    handler hands the value itself to the service. *)
Definition foreignEmailPasses (v : ContactController.Field) : Prop :=
  ContactController.foreign v = true /\
  exists s, ContactController.toString v = Resolved s /\
            ContactController.isValidEmail s = true.

(** * Part III: lemmas and theorems *)

(* ================================================================== *)
(** ** Facts about the array helpers *)

Section SortFacts.
Context {A : Type} (key : A -> Z).

Lemma insertOn_perm (x : A) (l : list A) :
  Permutation (Js.insertOn key x l) (x :: l).
Proof.
  induction l as [|y t IH]; simpl; [reflexivity|].
  destruct (key x <=? key y); [reflexivity|].
  rewrite IH. apply perm_swap.
Qed.

Lemma sortOn_perm (l : list A) : Permutation (Js.sortOn key l) l.
Proof.
  induction l as [|x t IH]; simpl; [reflexivity|].
  rewrite insertOn_perm. now constructor.
Qed.

Lemma sortOn_In (l : list A) (x : A) : In x (Js.sortOn key l) <-> In x l.
Proof.
  split; intro H.
  - eapply Permutation_in; [apply sortOn_perm | exact H].
  - eapply Permutation_in; [symmetry; apply sortOn_perm | exact H].
Qed.

Lemma sortOn_length (l : list A) : List.length (Js.sortOn key l) = List.length l.
Proof. apply Permutation_length, sortOn_perm. Qed.

Lemma sortOn_nil (l : list A) : Js.sortOn key l = [] -> l = [].
Proof.
  intro H. apply length_zero_iff_nil.
  rewrite <- sortOn_length, H. reflexivity.
Qed.

Lemma insertOn_sorted (x : A) (l : list A) :
  StronglySorted (keyLe key) l -> StronglySorted (keyLe key) (Js.insertOn key x l).
Proof.
  induction l as [|y t IH]; simpl; intro Hs.
  - repeat constructor.
  - inversion Hs as [|? ? Ht Hy]; subst.
    destruct (key x <=? key y) eqn:E.
    + apply Z.leb_le in E. constructor; [exact Hs|].
      constructor; [exact E|].
      eapply Forall_impl; [|exact Hy].
      unfold keyLe. intros; lia.
    + apply Z.leb_gt in E. constructor; [now apply IH|].
      eapply Permutation_Forall; [symmetry; apply insertOn_perm|].
      constructor; [unfold keyLe; lia | exact Hy].
Qed.

Lemma sortOn_sorted (l : list A) : StronglySorted (keyLe key) (Js.sortOn key l).
Proof.
  induction l as [|x t IH]; simpl; [constructor|].
  now apply insertOn_sorted.
Qed.

Lemma insertOn_least (x : A) (l : list A) :
  Forall ((keyLe key) x) l -> Js.insertOn key x l = x :: l.
Proof.
  destruct l as [|y t]; simpl; [reflexivity|].
  intro H. inversion H as [|? ? Hy _]; subst.
  unfold keyLe in Hy. apply Z.leb_le in Hy. now rewrite Hy.
Qed.

(** Stability: sorting and filtering commute. *)
Lemma filter_insertOn (p : A -> bool) (x : A) (l : list A) :
  StronglySorted (keyLe key) l ->
  filter p (Js.insertOn key x l) =
  if p x then Js.insertOn key x (filter p l) else filter p l.
Proof.
  induction l as [|y t IH]; simpl; intro Hs.
  - destruct (p x); reflexivity.
  - inversion Hs as [|? ? Ht Hy]; subst.
    destruct (key x <=? key y) eqn:E; simpl.
    + destruct (p x); [|reflexivity].
      symmetry. apply insertOn_least.
      apply Z.leb_le in E.
      assert (Hall : Forall ((keyLe key) x) (y :: t)).
      { constructor; [exact E|].
        eapply Forall_impl; [|exact Hy]. unfold keyLe; intros; lia. }
      rewrite Forall_forall in *. intros z Hz.
      apply Hall. change (In z (filter p (y :: t))) in Hz.
      now apply filter_In in Hz.
    + rewrite (IH Ht).
      destruct (p y), (p x); simpl; try rewrite E; reflexivity.
Qed.

Lemma filter_sortOn (p : A -> bool) (l : list A) :
  filter p (Js.sortOn key l) = Js.sortOn key (filter p l).
Proof.
  induction l as [|x t IH]; simpl; [reflexivity|].
  rewrite filter_insertOn by apply sortOn_sorted.
  rewrite IH. destruct (p x); reflexivity.
Qed.

(** The head of the sorted array is the first element of the array
    whose key is least. *)
Lemma sortOn_head (l : list A) (x : A) (s : list A) :
  Js.sortOn key l = x :: s ->
  exists l1 l2,
    l = l1 ++ x :: l2 /\
    Forall (fun y => key x < key y) l1 /\
    Forall (fun y => key x <= key y) l2.
Proof.
  revert x s. induction l as [|a t IH]; simpl; intros x s H; [discriminate|].
  destruct (Js.sortOn key t) as [|y s'] eqn:Et.
  - apply sortOn_nil in Et. subst t. simpl in H.
    injection H as <- <-. exists [], []. repeat split; constructor.
  - simpl in H. destruct (key a <=? key y) eqn:E.
    + injection H as <- <-. apply Z.leb_le in E.
      exists [], t. repeat split; [constructor|].
      pose proof (sortOn_sorted t) as Hs. rewrite Et in Hs.
      inversion Hs as [|? ? _ Hy]; subst.
      apply Forall_forall. intros z Hz.
      apply sortOn_In in Hz. rewrite Et in Hz.
      destruct Hz as [<-|Hz]; [exact E|].
      rewrite Forall_forall in Hy. specialize (Hy z Hz).
      unfold keyLe in Hy. lia.
    + injection H as <- <-. apply Z.leb_gt in E.
      destruct (IH y s' eq_refl) as (l1 & l2 & -> & H1 & H2).
      exists (a :: l1), l2. repeat split; [|exact H2].
      constructor; [lia | exact H1].
Qed.

End SortFacts.

Lemma map_insertOn {A B : Type} (key : A -> Z) (g : B -> A) (x : B) (l : list B) :
  map g (Js.insertOn (fun b => key (g b)) x l) = Js.insertOn key (g x) (map g l).
Proof.
  induction l as [|y t IH]; simpl; [reflexivity|].
  destruct (key (g x) <=? key (g y)); simpl; [reflexivity|].
  now rewrite IH.
Qed.

Lemma map_sortOn {A B : Type} (key : A -> Z) (g : B -> A) (l : list B) :
  map g (Js.sortOn (fun b => key (g b)) l) = Js.sortOn key (map g l).
Proof.
  induction l as [|x t IH]; simpl; [reflexivity|].
  now rewrite map_insertOn, IH.
Qed.

Lemma find_hd_filter {A : Type} (p : A -> bool) (l : list A) :
  find p l = hd_error (filter p l).
Proof.
  induction l as [|x t IH]; simpl; [reflexivity|].
  destruct (p x); [reflexivity | exact IH].
Qed.

(** *** Sets of identifiers *)

Lemma setAdd_fold_In (l s : list Z) (x : Z) :
  In x (fold_left Js.setAdd l s) <-> In x s \/ In x l.
Proof.
  revert s. induction l as [|y t IH]; simpl; intro s; [tauto|].
  rewrite IH. unfold Js.setAdd.
  destruct (existsb (Z.eqb y) s) eqn:E.
  - apply existsb_exists in E. destruct E as (z & Hz & Hyz).
    apply Z.eqb_eq in Hyz. subst z.
    split; [tauto|]. intros [H|[<-|H]]; auto.
  - rewrite in_app_iff. simpl. tauto.
Qed.

Lemma setAdd_fold_NoDup (l s : list Z) :
  NoDup s -> NoDup (fold_left Js.setAdd l s).
Proof.
  revert s. induction l as [|y t IH]; simpl; intros s Hs; [exact Hs|].
  apply IH. unfold Js.setAdd.
  destruct (existsb (Z.eqb y) s) eqn:E; [exact Hs|].
  apply NoDup_app; [exact Hs | repeat constructor; intros [] |].
  intros a Ha [Hy|[]]. subst a.
  assert (existsb (Z.eqb y) s = true); [|congruence].
  apply existsb_exists. exists y. split; [exact Ha | apply Z.eqb_refl].
Qed.

Lemma newSet_In (l : list Z) (x : Z) : In x (Js.newSet l) <-> In x l.
Proof. unfold Js.newSet. rewrite setAdd_fold_In. simpl. tauto. Qed.

Lemma newSet_NoDup (l : list Z) : NoDup (Js.newSet l).
Proof. apply setAdd_fold_NoDup. constructor. Qed.

Lemma existsb_ext_on {A : Type} (f g : A -> bool) (l : list A) :
  (forall x, In x l -> f x = g x) -> existsb f l = existsb g l.
Proof.
  induction l as [|y t IH]; simpl; intro H; [reflexivity|].
  rewrite (H y) by now left. f_equal. apply IH. intros; apply H; now right.
Qed.

(** *** Assignment to an index *)

Lemma nth_error_assign {A : Type} (i j : nat) (x : A) (arr : list A) :
  nth_error (Js.assign i x arr) j =
  if Nat.eqb j i then option_map (fun _ => x) (nth_error arr i)
  else nth_error arr j.
Proof.
  revert i j. induction arr as [|y t IH]; intros i j; simpl.
  - destruct (Nat.eqb j i); destruct i, j; reflexivity.
  - destruct i as [|i], j as [|j]; simpl; try reflexivity.
    apply IH.
Qed.

Lemma map_assign {A B : Type} (f : A -> B) (i : nat) (x c : A) (arr : list A) :
  nth_error arr i = Some c -> f x = f c ->
  map f (Js.assign i x arr) = map f arr.
Proof.
  revert i. induction arr as [|y t IH]; intros i Hc Hf; simpl.
  - destruct i; reflexivity.
  - destruct i as [|i]; simpl in *.
    + injection Hc as ->. now rewrite Hf.
    + f_equal. now apply IH.
Qed.

(* ================================================================== *)
(** ** The store calls when no statement fails *)

Lemma statement_healthy (db : Database) :
  healthy db -> statement db = (db, Resolved tt).
Proof. unfold healthy, statement. now intros ->. Qed.

Lemma selectWhere_healthy (cond : Contact.t -> bool) (db : Database) :
  healthy db -> selectWhere cond db = (db, Resolved (filter cond (rows db))).
Proof.
  intro H. unfold selectWhere, bind. now rewrite statement_healthy.
Qed.

Lemma findContactsByEmailOrPhone_healthy (request : IdentifyRequest.t) (db : Database) :
  healthy db ->
  findContactsByEmailOrPhone (IdentifyRequest.email request)
                             (IdentifyRequest.phoneNumber request) db
  = (db, Resolved (candidates request db)).
Proof.
  intro H. unfold findContactsByEmailOrPhone, candidates.
  destruct (whereEmailOrPhone _ _); [now apply selectWhere_healthy | reflexivity].
Qed.

Lemma findAllLinkedContacts_healthy (primaryId : Z) (db : Database) :
  healthy db ->
  findAllLinkedContacts primaryId db = (db, Resolved (membersOf primaryId db)).
Proof.
  intro H. unfold findAllLinkedContacts, bind.
  now rewrite selectWhere_healthy.
Qed.

Lemma promiseAll_healthy (primaryIds : list Z) (db : Database) :
  healthy db ->
  promiseAll findAllLinkedContacts primaryIds db
  = (db, Resolved (map (fun p => membersOf p db) primaryIds)).
Proof.
  intro H. induction primaryIds as [|p t IH]; simpl; [reflexivity|].
  unfold bind at 1. rewrite findAllLinkedContacts_healthy by exact H.
  unfold bind at 1. now rewrite IH.
Qed.

Lemma createContact_healthy (clk : Clock) (data : CreateContactData.t) (db : Database) :
  healthy db ->
  createContact clk data db
  = (inserted clk data db, Resolved (createdObject clk data db)).
Proof.
  intro H. unfold createContact, bind. now rewrite statement_healthy.
Qed.

Lemma updateContact_healthy (clk : Clock) (target : Z)
  (updates : ContactUpdates.t) (db : Database) :
  healthy db -> noKey updates = false ->
  updateContact clk target updates db
  = (updated clk target updates db, Resolved tt).
Proof.
  intros H Hk. unfold updateContact, bind. now rewrite statement_healthy, Hk.
Qed.

(* ================================================================== *)
(** ** The two loops of the merge *)

Section Loop.
Variable clk : Clock.
Variable test : Contact.t -> bool.
Variable upd : ContactUpdates.t.
Variable mut : Contact.t -> Contact.t.
Hypothesis mut_id : forall c, Contact.id (mut c) = Contact.id c.
Hypothesis upd_idem : forall c,
  applyUpdates clk upd (applyUpdates clk upd c) = applyUpdates clk upd c.

Local Abbreviation step := (loopStep clk test upd mut).
Local Abbreviation run := (loopRun clk test upd mut).
Local Abbreviation visited := (visit test mut).
Local Abbreviation touchedBy := (touched test).

Lemma loopStep_healthy st ref : healthy (fst st) -> healthy (fst (step st ref)).
Proof.
  unfold loopStep. destruct (nth_error (snd st) ref) as [c|]; [|auto].
  destruct (test c); auto.
Qed.

Lemma loopRun_healthy refs st : healthy (fst st) -> healthy (fst (run refs st)).
Proof.
  revert st. unfold loopRun. induction refs as [|r t IH]; simpl; intros st H; [exact H|].
  apply IH, loopStep_healthy, H.
Qed.

Lemma loopStep_ids st ref :
  map Contact.id (snd (step st ref)) = map Contact.id (snd st).
Proof.
  unfold loopStep. destruct (nth_error (snd st) ref) as [c|] eqn:E; [|reflexivity].
  destruct (test c); [|reflexivity]. simpl.
  eapply map_assign; [exact E | apply mut_id].
Qed.

Lemma loopRun_ids refs st :
  map Contact.id (snd (run refs st)) = map Contact.id (snd st).
Proof.
  revert st. unfold loopRun. induction refs as [|r t IH]; simpl; intro st; [reflexivity|].
  unfold loopRun in IH. now rewrite IH, loopStep_ids.
Qed.

Lemma loopStep_sequence st ref :
  sequence (fst (step st ref)) = sequence (fst st).
Proof.
  unfold loopStep. destruct (nth_error (snd st) ref) as [c|]; [|reflexivity].
  destruct (test c); reflexivity.
Qed.

Lemma loopRun_sequence refs st :
  sequence (fst (run refs st)) = sequence (fst st).
Proof.
  revert st. unfold loopRun. induction refs as [|r t IH]; simpl; intro st; [reflexivity|].
  unfold loopRun in IH. now rewrite IH, loopStep_sequence.
Qed.

Lemma loopStep_nth st ref i :
  nth_error (snd (step st ref)) i =
  if Nat.eqb i ref then option_map visited (nth_error (snd st) ref)
  else nth_error (snd st) i.
Proof.
  unfold loopStep, visit.
  destruct (nth_error (snd st) ref) as [c|] eqn:E; simpl.
  - destruct (test c); simpl.
    + rewrite nth_error_assign, E. reflexivity.
    + destruct (Nat.eqb i ref) eqn:Ei; [|reflexivity].
      apply Nat.eqb_eq in Ei. now subst.
  - destruct (Nat.eqb i ref) eqn:Ei; [|reflexivity].
    apply Nat.eqb_eq in Ei. now subst.
Qed.

Lemma loopStep_journal st ref :
  exists cmds,
    journal (fst (step st ref)) = journal (fst st) ++ cmds /\
    Forall isUpdate cmds.
Proof.
  unfold loopStep. destruct (nth_error (snd st) ref) as [c|].
  - destruct (test c); simpl.
    + eexists. split; [reflexivity|]. repeat constructor.
    + exists []. now rewrite app_nil_r.
  - exists []. now rewrite app_nil_r.
Qed.

(** A loop issues updates only. *)
Lemma loopRun_journal refs st :
  exists cmds,
    journal (fst (run refs st)) = journal (fst st) ++ cmds /\
    Forall isUpdate cmds.
Proof.
  revert st. unfold loopRun. induction refs as [|r t IH]; simpl; intro st.
  - exists []. now rewrite app_nil_r.
  - destruct (IH (step st r)) as (c2 & H2 & F2).
    destruct (loopStep_journal st r) as (c1 & H1 & F1).
    exists (c1 ++ c2).
    rewrite H2, H1, app_assoc. split; [reflexivity|].
    apply Forall_app. now split.
Qed.

(** The objects after the loop: the visited ones are mutated. *)
Lemma loopRun_nth refs st i :
  NoDup refs ->
  nth_error (snd (run refs st)) i =
  if existsb (Nat.eqb i) refs then option_map visited (nth_error (snd st) i)
  else nth_error (snd st) i.
Proof.
  revert st. unfold loopRun. induction refs as [|r t IH]; simpl; intros st Hnd; [reflexivity|].
  inversion Hnd as [|? ? Hr Ht]; subst.
  unfold loopRun in IH. rewrite (IH _ Ht), !loopStep_nth.
  destruct (Nat.eqb i r) eqn:Ei; simpl; [|reflexivity].
  apply Nat.eqb_eq in Ei. subst i.
  destruct (existsb (Nat.eqb r) t) eqn:Et; [|reflexivity].
  exfalso. apply Hr. apply existsb_exists in Et.
  destruct Et as (x & Hx & Hrx). apply Nat.eqb_eq in Hrx. now subst.
Qed.

(** The row of the store after the loop: updated when some visited
    object that passes the test has its identifier. *)
Lemma touched_id heap refs row row' :
  Contact.id row' = Contact.id row ->
  touchedBy heap refs row' = touchedBy heap refs row.
Proof. intro H. unfold touched. now rewrite H. Qed.

Lemma applyUpdates_id row : Contact.id (applyUpdates clk upd row) = Contact.id row.
Proof. reflexivity. Qed.

Lemma loopRun_rows refs st :
  NoDup refs ->
  rows (fst (run refs st)) =
  map (fun row => if touchedBy (snd st) refs row
                  then applyUpdates clk upd row else row)
      (rows (fst st)).
Proof.
  revert st. unfold loopRun. induction refs as [|r t IH]; simpl; intros st Hnd.
  - now rewrite map_id.
  - inversion Hnd as [|? ? Hr Ht]; subst.
    unfold loopRun in IH. rewrite (IH _ Ht).
    assert (Hsame : forall row,
               touchedBy (snd (step st r)) t row = touchedBy (snd st) t row).
    { intro row. unfold touched. apply existsb_ext_on.
      intros x Hx. rewrite loopStep_nth.
      destruct (Nat.eqb x r) eqn:Ex; [|reflexivity].
      apply Nat.eqb_eq in Ex. now subst. }
    unfold loopStep at 2.
    destruct (nth_error (snd st) r) as [c|] eqn:Ec.
    + destruct (test c) eqn:Etc; simpl.
      * unfold updateRows. rewrite map_map. apply map_ext. intro row.
        rewrite Hsame.
        destruct (Contact.id row =? Contact.id c) eqn:Eid.
        -- rewrite (touched_id _ _ row (applyUpdates clk upd row) (applyUpdates_id row)).
           rewrite upd_idem. apply Z.eqb_eq in Eid.
           rewrite Eid, Z.eqb_refl. simpl.
           now destruct (touchedBy (snd st) t row).
        -- rewrite Z.eqb_sym, Eid. reflexivity.
      * apply map_ext. intro row. now rewrite Hsame.
    + simpl. apply map_ext. intro row. now rewrite Hsame.
Qed.
End Loop.

(** *** References into an array *)

Lemma refsFrom_In (p : Contact.t -> bool) (arr : list Contact.t) (n i : nat) :
  In i (refsFrom n p arr) <->
  (n <= i)%nat /\ exists c, nth_error arr (i - n) = Some c /\ p c = true.
Proof.
  revert n. induction arr as [|x t IH]; simpl; intro n.
  - split; [intros [] | intros (_ & c & Hc & _)].
    destruct (i - n)%nat; discriminate.
  - assert (Hrec : In i (refsFrom (S n) p t) <->
                   (n < i)%nat /\ exists c, nth_error (x :: t) (i - n) = Some c /\ p c = true).
    { rewrite IH. split; intros (Hle & c & Hc & Hp); (split; [lia|]); exists c; split; auto.
      - replace (i - n)%nat with (S (i - S n)) by lia. exact Hc.
      - replace (i - n)%nat with (S (i - S n)) in Hc by lia. exact Hc. }
    destruct (p x) eqn:Epx; simpl; rewrite Hrec.
    + split.
      * intros [<-|(Hlt & c & Hc & Hp)].
        -- split; [lia|]. exists x. rewrite Nat.sub_diag. auto.
        -- split; [lia|]. exists c. auto.
      * intros (Hle & c & Hc & Hp).
        destruct (Nat.eq_dec n i) as [->|Hne]; [now left|].
        right. split; [lia|]. exists c. auto.
    + split.
      * intros (Hlt & c & Hc & Hp). split; [lia|]. exists c. auto.
      * intros (Hle & c & Hc & Hp).
        destruct (Nat.eq_dec n i) as [->|Hne].
        -- rewrite Nat.sub_diag in Hc. simpl in Hc. congruence.
        -- split; [lia|]. exists c. auto.
Qed.

Lemma filterRefs_In (p : Contact.t -> bool) (arr : list Contact.t) (i : nat) :
  In i (filterRefs p arr) <-> exists c, nth_error arr i = Some c /\ p c = true.
Proof.
  unfold filterRefs. rewrite refsFrom_In, Nat.sub_0_r.
  split; [tauto|]. intro H. split; [lia | exact H].
Qed.

Lemma refsFrom_NoDup (p : Contact.t -> bool) (arr : list Contact.t) (n : nat) :
  NoDup (refsFrom n p arr).
Proof.
  revert n. induction arr as [|x t IH]; simpl; intro n; [constructor|].
  destruct (p x); [|apply IH].
  constructor; [|apply IH].
  rewrite refsFrom_In. lia.
Qed.

Lemma refsFrom_deref (p : Contact.t -> bool) (pre arr : list Contact.t) :
  map (nth_error (pre ++ arr)) (refsFrom (List.length pre) p arr)
  = map Some (filter p arr).
Proof.
  revert pre. induction arr as [|x t IH]; simpl; intro pre; [reflexivity|].
  specialize (IH (pre ++ [x])).
  rewrite <- app_assoc, length_app, Nat.add_1_r in IH. simpl in IH.
  destruct (p x); simpl; [|exact IH].
  rewrite IH. f_equal.
  rewrite nth_error_app2, Nat.sub_diag by lia. reflexivity.
Qed.

Lemma filterRefs_deref (p : Contact.t -> bool) (arr : list Contact.t) :
  map (nth_error arr) (filterRefs p arr) = map Some (filter p arr).
Proof. exact (refsFrom_deref p [] arr). Qed.

(** The sorted references designate the sorted objects. *)
Lemma sorted_refs_deref (p : Contact.t -> bool) (arr : list Contact.t) :
  map (nth_error arr) (Js.sortOn (createdAtOf arr) (filterRefs p arr))
  = map Some (Js.sortOn Contact.createdAt (filter p arr)).
Proof.
  change (createdAtOf arr) with (fun r => createdAtOpt (nth_error arr r)).
  rewrite (map_sortOn createdAtOpt (nth_error arr)), filterRefs_deref.
  symmetry. apply (map_sortOn createdAtOpt Some).
Qed.

Lemma touched_filterRefs (test p : Contact.t -> bool) (heap : list Contact.t)
  (refs : list nat) (row : Contact.t) :
  (forall i, In i refs <-> In i (filterRefs p heap)) ->
  touched test heap refs row =
  existsb (fun c => p c && test c && (Contact.id c =? Contact.id row)) heap.
Proof.
  intro Hrefs. apply eq_true_iff_eq. unfold touched.
  rewrite !existsb_exists. split.
  - intros (r & Hr & H). apply Hrefs, filterRefs_In in Hr.
    destruct Hr as (c & Hc & Hp). rewrite Hc in H.
    exists c. split; [eapply nth_error_In; eauto|]. now rewrite Hp.
  - intros (c & Hc & H). apply In_nth_error in Hc. destruct Hc as (r & Hr).
    apply andb_prop in H. destruct H as [H Hid].
    apply andb_prop in H. destruct H as [Hp Ht].
    exists r. split.
    + apply Hrefs, filterRefs_In. eauto.
    + rewrite Hr, Ht, Hid. reflexivity.
Qed.

(** The objects after a loop over references to all [p]-objects. *)
Lemma loopRun_heap (clk : Clock) (test p : Contact.t -> bool)
  (upd : ContactUpdates.t) (mut : Contact.t -> Contact.t)
  (refs : list nat) (db : Database) (heap : list Contact.t) :
  NoDup refs ->
  (forall i, In i refs <-> In i (filterRefs p heap)) ->
  snd (loopRun clk test upd mut refs (db, heap)) =
  map (fun c => if p c then visit test mut c else c) heap.
Proof.
  intros Hnd Hrefs. apply nth_error_ext. intro i.
  rewrite loopRun_nth by exact Hnd. simpl.
  rewrite nth_error_map.
  destruct (existsb (Nat.eqb i) refs) eqn:E.
  - apply existsb_exists in E. destruct E as (x & Hx & Hix).
    apply Nat.eqb_eq in Hix. subst x.
    apply Hrefs, filterRefs_In in Hx. destruct Hx as (c & Hc & Hp).
    rewrite Hc. simpl. now rewrite Hp.
  - destruct (nth_error heap i) as [c|] eqn:Hc; [|reflexivity]. simpl.
    destruct (p c) eqn:Hp; [|reflexivity].
    exfalso. assert (Hin : In i refs) by (apply Hrefs, filterRefs_In; eauto).
    assert (existsb (Nat.eqb i) refs = true); [|congruence].
    apply existsb_exists. exists i. split; [exact Hin | apply Nat.eqb_refl].
Qed.

(** The source loops are runs of [loopRun] while no statement fails. *)
Lemma demoteOtherPrimaries_run (clk : Clock) (ref0 : nat) (oldestId : Z)
  (refs : list nat) (heap : list Contact.t) (db : Database) :
  healthy db ->
  nth_error (map Contact.id heap) ref0 = Some oldestId ->
  demoteOtherPrimaries clk (Some ref0) refs heap db =
  (fst (loopRun clk (isOther oldestId) (demoteUpdate oldestId) (demote oldestId)
                refs (db, heap)),
   Resolved (snd (loopRun clk (isOther oldestId) (demoteUpdate oldestId)
                          (demote oldestId) refs (db, heap)))).
Proof.
  revert heap db. induction refs as [|r t IH]; intros heap db Hh H0; [reflexivity|].
  unfold loopRun. cbn [fold_left demoteOtherPrimaries].
  fold (loopRun clk (isOther oldestId) (demoteUpdate oldestId) (demote oldestId) t).
  unfold loopStep. cbn [fst snd].
  destruct (nth_error heap r) as [c|] eqn:Hc; [|now apply IH].
  assert (Hold : oldestPrimaryId heap (Some ref0) = ret oldestId).
  { unfold oldestPrimaryId. rewrite nth_error_map in H0.
    destruct (nth_error heap ref0); simpl in H0; [|discriminate].
    now injection H0 as ->. }
  unfold bind at 1. rewrite Hold. unfold ret at 1.
  unfold isOther.
  destruct (negb (Contact.id c =? oldestId)) eqn:E.
  - unfold bind. rewrite updateContact_healthy by (exact Hh || reflexivity).
    apply IH; [exact Hh|].
    erewrite map_assign; [exact H0 | exact Hc | reflexivity].
  - now apply IH.
Qed.

Lemma relinkSecondaries_run (clk : Clock) (ref0 : nat) (oldestId : Z)
  (refs : list nat) (heap : list Contact.t) (db : Database) :
  healthy db ->
  nth_error (map Contact.id heap) ref0 = Some oldestId ->
  relinkSecondaries clk (Some ref0) refs heap db =
  (fst (loopRun clk (linkedElsewhere oldestId) (relinkUpdate oldestId)
                (setLinkedId (Some oldestId)) refs (db, heap)),
   Resolved (snd (loopRun clk (linkedElsewhere oldestId) (relinkUpdate oldestId)
                          (setLinkedId (Some oldestId)) refs (db, heap)))).
Proof.
  revert heap db. induction refs as [|r t IH]; intros heap db Hh H0; [reflexivity|].
  unfold loopRun. cbn [fold_left relinkSecondaries].
  fold (loopRun clk (linkedElsewhere oldestId) (relinkUpdate oldestId)
                (setLinkedId (Some oldestId)) t).
  unfold loopStep. cbn [fst snd].
  destruct (nth_error heap r) as [c|] eqn:Hc; [|now apply IH].
  assert (Hold : oldestPrimaryId heap (Some ref0) = ret oldestId).
  { unfold oldestPrimaryId. rewrite nth_error_map in H0.
    destruct (nth_error heap ref0); simpl in H0; [|discriminate].
    now injection H0 as ->. }
  unfold bind at 1. rewrite Hold. unfold ret at 1.
  unfold linkedElsewhere.
  destruct (negb (Js.strictEqNum (Contact.linkedId c) (Some oldestId))) eqn:E.
  - unfold bind. rewrite updateContact_healthy by (exact Hh || reflexivity).
    apply IH; [exact Hh|].
    erewrite map_assign; [exact H0 | exact Hc | reflexivity].
  - now apply IH.
Qed.

(* ================================================================== *)
(** ** The merge when no statement fails *)

Lemma bind_resolved {A B : Type} (m : Async A) (k : A -> Async B)
  (db db' : Database) (a : A) :
  m db = (db', Resolved a) -> bind m k db = k a db'.
Proof. intro H. unfold bind. now rewrite H. Qed.

Lemma oldest_ref (allContacts : list Contact.t) (oldest : Contact.t) :
  oldestOf allContacts = Some oldest ->
  exists ref0,
    hd_error (Js.sortOn (createdAtOf allContacts) (filterRefs isPrimary allContacts))
    = Some ref0 /\
    nth_error allContacts ref0 = Some oldest.
Proof.
  unfold oldestOf. intro H.
  pose proof (sorted_refs_deref isPrimary allContacts) as Hd.
  destruct (Js.sortOn Contact.createdAt (filter isPrimary allContacts))
    as [|c s]; [discriminate|].
  simpl in H. injection H as ->.
  destruct (Js.sortOn (createdAtOf allContacts) (filterRefs isPrimary allContacts))
    as [|r rs]; [discriminate|].
  simpl in Hd. injection Hd as Hr _. exists r. split; [reflexivity | exact Hr].
Qed.

Lemma oldest_none_refs (allContacts : list Contact.t) :
  oldestOf allContacts = None ->
  Js.sortOn (createdAtOf allContacts) (filterRefs isPrimary allContacts) = [] /\
  filter isPrimary allContacts = [].
Proof.
  unfold oldestOf. intro H.
  pose proof (sorted_refs_deref isPrimary allContacts) as Hd.
  destruct (Js.sortOn Contact.createdAt (filter isPrimary allContacts))
    as [|c s] eqn:Es; [|discriminate].
  apply sortOn_nil in Es. split; [|exact Es].
  destruct (Js.sortOn (createdAtOf allContacts) (filterRefs isPrimary allContacts));
    [reflexivity | discriminate].
Qed.

Lemma mergePrimaryContacts_healthy (clk : Clock) (primaryIds : list Z)
  (request : IdentifyRequest.t) (db : Database) (oldest : Contact.t) :
  healthy db ->
  oldestOf (fetchedMembers primaryIds db) = Some oldest ->
  let oid := Contact.id oldest in
  let merged := mergedObjects oid (fetchedMembers primaryIds db) in
  exists dbm,
    healthy dbm /\
    sequence dbm = sequence db /\
    rows dbm = map (mergedRow clk oid (fetchedMembers primaryIds db)) (rows db) /\
    (exists updates, journal dbm = journal db ++ updates /\ Forall isUpdate updates) /\
    mergePrimaryContacts clk primaryIds (IdentifyRequest.email request)
                         (IdentifyRequest.phoneNumber request) db =
    if needsNewSecondaryContact merged (IdentifyRequest.email request)
                                (IdentifyRequest.phoneNumber request)
    then (inserted clk (secondaryData request oid) dbm,
          buildConsolidatedContact
            (merged ++ [createdObject clk (secondaryData request oid) dbm]))
    else (dbm, buildConsolidatedContact merged).
Proof.
  intros Hh Hold oid merged.
  destruct (oldest_ref _ _ Hold) as (ref0 & Hhd & Href0).
  unfold mergePrimaryContacts.
  rewrite (bind_resolved _ _ _ _ _ (promiseAll_healthy primaryIds db Hh)).
  fold (fetchedMembers primaryIds db).
  set (all := fetchedMembers primaryIds db) in *.
  rewrite Hhd.
  set (refs1 := Js.sortOn (createdAtOf all) (filterRefs isPrimary all)).
  assert (Hid0 : nth_error (map Contact.id all) ref0 = Some oid).
  { rewrite nth_error_map, Href0. reflexivity. }
  assert (Hnd1 : NoDup refs1).
  { eapply Permutation_NoDup; [symmetry; apply sortOn_perm | apply refsFrom_NoDup]. }
  assert (Hin1 : forall i, In i refs1 <-> In i (filterRefs isPrimary all)).
  { intro i. apply sortOn_In. }
  rewrite (bind_resolved _ _ _ _ _ (demoteOtherPrimaries_run clk ref0 oid refs1 all db Hh Hid0)).
  set (st1 := loopRun clk (isOther oid) (demoteUpdate oid) (demote oid) refs1 (db, all)).
  assert (Hheap1 : snd st1 = afterDemote oid all).
  { apply loopRun_heap; assumption. }
  assert (Hh1 : healthy (fst st1)) by (apply loopRun_healthy; exact Hh).
  assert (Hid1 : nth_error (map Contact.id (snd st1)) ref0 = Some oid).
  { unfold st1. rewrite loopRun_ids by reflexivity. exact Hid0. }
  rewrite Hheap1 in *.
  set (heap1 := afterDemote oid all) in *.
  set (refs2 := filterRefs isSecondary heap1).
  rewrite (bind_resolved _ _ _ _ _
             (relinkSecondaries_run clk ref0 oid refs2 heap1 (fst st1) Hh1 Hid1)).
  set (st2 := loopRun clk (linkedElsewhere oid) (relinkUpdate oid)
                      (setLinkedId (Some oid)) refs2 (fst st1, heap1)).
  assert (Hheap2 : snd st2 = merged).
  { apply loopRun_heap; [apply refsFrom_NoDup | tauto]. }
  assert (Hh2 : healthy (fst st2)) by (apply loopRun_healthy; exact Hh1).
  assert (Hid2 : nth_error (map Contact.id (snd st2)) ref0 = Some oid).
  { unfold st2. rewrite loopRun_ids by reflexivity. exact Hid1. }
  rewrite Hheap2 in *.
  exists (fst st2). split; [exact Hh2|]. split; [|split; [|split]].
  - unfold st2. rewrite loopRun_sequence. cbn [fst]. unfold st1.
    now rewrite loopRun_sequence.
  - unfold st2. rewrite loopRun_rows by (reflexivity || apply refsFrom_NoDup).
    cbn [fst snd]. unfold st1.
    rewrite loopRun_rows by (reflexivity || exact Hnd1).
    cbn [fst snd]. rewrite map_map. apply map_ext. intro row.
    unfold mergedRow, rowAfterRelink, rowAfterDemote.
    rewrite (touched_filterRefs _ isPrimary all refs1 row Hin1).
    rewrite (touched_filterRefs _ isSecondary heap1 refs2) by tauto.
    reflexivity.
  - destruct (loopRun_journal clk (linkedElsewhere oid) (relinkUpdate oid)
                (setLinkedId (Some oid)) refs2 (fst st1, heap1)) as (c2 & H2 & F2).
    destruct (loopRun_journal clk (isOther oid) (demoteUpdate oid) (demote oid)
                refs1 (db, all)) as (c1 & H1 & F1).
    exists (c1 ++ c2). fold st2 in H2. fold st1 in H1. cbn [fst] in H1, H2.
    rewrite H2, H1, app_assoc. split; [reflexivity|].
    apply Forall_app. now split.
  - destruct (needsNewSecondaryContact merged _ _); [|reflexivity].
    assert (Hoid : oldestPrimaryId merged (Some ref0) = ret oid).
    { unfold oldestPrimaryId. rewrite nth_error_map in Hid2.
      destruct (nth_error merged ref0); simpl in Hid2; [|discriminate].
      now injection Hid2 as ->. }
    rewrite Hoid. unfold bind at 1, ret at 1.
    rewrite (bind_resolved _ _ _ _ _ (createContact_healthy clk _ _ Hh2)).
    reflexivity.
Qed.

Lemma isSecondary_negb (c : Contact.t) : isSecondary c = negb (isPrimary c).
Proof. unfold isSecondary, isPrimary. now destruct (Contact.linkPrecedence c). Qed.

(** Without any primary among the fetched members, [oldestPrimary] is
    undefined and the merge stops before its first write. *)
Lemma mergePrimaryContacts_no_primary (clk : Clock) (primaryIds : list Z)
  (email phoneNumber : option string) (db : Database) :
  healthy db ->
  oldestOf (fetchedMembers primaryIds db) = None ->
  mergePrimaryContacts clk primaryIds email phoneNumber db =
  (db, Rejected
         (match fetchedMembers primaryIds db with
          | [] => if Js.truthy email || Js.truthy phoneNumber
                  then TypeError else NoPrimaryContactFound
          | _ :: _ => TypeError
          end)).
Proof.
  intros Hh Hold.
  destruct (oldest_none_refs _ Hold) as (Hrefs & Hnone).
  unfold mergePrimaryContacts.
  rewrite (bind_resolved _ _ _ _ _ (promiseAll_healthy primaryIds db Hh)).
  fold (fetchedMembers primaryIds db).
  set (all := fetchedMembers primaryIds db) in *.
  rewrite Hrefs. cbn [hd_error demoteOtherPrimaries].
  unfold bind at 1, ret at 1.
  destruct all as [|c t].
  - cbn [filterRefs refsFrom relinkSecondaries]. unfold bind at 1, ret at 1.
    unfold needsNewSecondaryContact. cbn [existsb negb].
    rewrite !andb_true_r.
    destruct (Js.truthy email || Js.truthy phoneNumber); reflexivity.
  - simpl in Hnone. destruct (isPrimary c) eqn:Ec; [discriminate|].
    unfold filterRefs. cbn [refsFrom]. rewrite isSecondary_negb, Ec.
    reflexivity.
Qed.

(* ================================================================== *)
(** ** The three outcomes of [identify] when no statement fails *)

Lemma identify_no_match (clk : Clock) (request : IdentifyRequest.t) (db : Database) :
  healthy db ->
  candidates request db = [] ->
  identify clk request db =
  (inserted clk (primaryData request) db,
   buildConsolidatedContact [createdObject clk (primaryData request) db]).
Proof.
  intros Hh Hc. unfold identify.
  rewrite (bind_resolved _ _ _ _ _ (findContactsByEmailOrPhone_healthy request db Hh)).
  rewrite Hc. cbn [List.length Nat.eqb].
  rewrite (bind_resolved _ _ _ _ _ (createContact_healthy clk _ _ Hh)).
  reflexivity.
Qed.

Lemma identify_matched (clk : Clock) (request : IdentifyRequest.t) (db : Database) :
  healthy db ->
  candidates request db <> [] ->
  identify clk request db =
  match governingIds request db with
  | [] => (db, Rejected NoPrimaryContactsFound)
  | [primaryId] =>
      if needsNewSecondaryContact (membersOf primaryId db)
           (IdentifyRequest.email request) (IdentifyRequest.phoneNumber request)
      then (inserted clk (secondaryData request primaryId) db,
            buildConsolidatedContact
              (membersOf primaryId db ++
               [createdObject clk (secondaryData request primaryId) db]))
      else (db, buildConsolidatedContact (membersOf primaryId db))
  | primaryIds =>
      mergePrimaryContacts clk primaryIds (IdentifyRequest.email request)
                           (IdentifyRequest.phoneNumber request) db
  end.
Proof.
  intros Hh Hc. unfold identify.
  rewrite (bind_resolved _ _ _ _ _ (findContactsByEmailOrPhone_healthy request db Hh)).
  destruct (candidates request db) as [|c t] eqn:Ec; [contradiction|].
  cbn [List.length Nat.eqb]. unfold governingIds. rewrite Ec.
  destruct (allPrimaryIdsOf (c :: t)) as [|p [|q rest]]; [reflexivity| |reflexivity].
  rewrite (bind_resolved _ _ _ _ _ (findAllLinkedContacts_healthy p db Hh)).
  destruct (needsNewSecondaryContact _ _ _); [|reflexivity].
  rewrite (bind_resolved _ _ _ _ _ (createContact_healthy clk _ _ Hh)).
  reflexivity.
Qed.

(** The governing set is empty as soon as the candidate set is. *)
Lemma governingIds_no_candidates (request : IdentifyRequest.t) (db : Database) :
  candidates request db = [] -> governingIds request db = [].
Proof. unfold governingIds. now intros ->. Qed.

(* ================================================================== *)
(** ** The consolidated view *)

Lemma firstOccurrences_In (l : list string) (x : string) :
  In x (firstOccurrences l) <-> In x l.
Proof.
  induction l as [|s t IH]; simpl; [tauto|].
  rewrite filter_In, IH.
  destruct (String.eqb_spec x s) as [->|Hne]; simpl.
  - split; auto.
  - tauto.
Qed.

Lemma firstOccurrences_NoDup (l : list string) : NoDup (firstOccurrences l).
Proof.
  induction l as [|s t IH]; simpl; constructor.
  - rewrite filter_In. intros [_ H]. now rewrite String.eqb_refl in H.
  - now apply NoDup_filter.
Qed.

Lemma filter_comm {A : Type} (p q : A -> bool) (l : list A) :
  filter p (filter q l) = filter q (filter p l).
Proof.
  induction l as [|x t IH]; simpl; [reflexivity|].
  destruct (q x) eqn:Eq, (p x) eqn:Ep; simpl; rewrite ?Eq, ?Ep, IH; reflexivity.
Qed.

Lemma filter_and {A : Type} (p q : A -> bool) (l : list A) :
  filter p (filter q l) = filter (fun x => q x && p x) l.
Proof.
  induction l as [|x t IH]; simpl; [reflexivity|].
  destruct (q x); simpl; [destruct (p x)|]; now rewrite IH.
Qed.

Lemma filter_all {A : Type} (p : A -> bool) (l : list A) :
  (forall x, In x l -> p x = true) -> filter p l = l.
Proof.
  induction l as [|x t IH]; simpl; intro H; [reflexivity|].
  rewrite (H x) by now left. f_equal. apply IH. intros; apply H; now right.
Qed.

Lemma firstOccurrences_filter (q : string -> bool) (l : list string) :
  filter q (firstOccurrences l) = firstOccurrences (filter q l).
Proof.
  induction l as [|s t IH]; simpl; [reflexivity|].
  rewrite filter_comm, IH.
  destruct (q s) eqn:Es; simpl; [reflexivity|].
  apply filter_all. intros x Hx.
  apply firstOccurrences_In, filter_In in Hx. destruct Hx as [_ Hq].
  destruct (String.eqb_spec x s) as [->|]; [congruence | reflexivity].
Qed.

Lemma pushOne_fold (l acc : list string) :
  fold_left pushOne l acc =
  acc ++ firstOccurrences (filter (fun x => negb (Js.includes acc x)) l).
Proof.
  revert acc. induction l as [|s t IH]; intro acc; simpl.
  - now rewrite app_nil_r.
  - rewrite IH. unfold pushOne.
    destruct (Js.includes acc s) eqn:Es; simpl; [reflexivity|].
    rewrite <- app_assoc. simpl. do 2 f_equal.
    rewrite firstOccurrences_filter, filter_and.
    f_equal. apply filter_ext. intro x.
    unfold Js.includes. rewrite existsb_app. simpl.
    rewrite orb_false_r, negb_orb. reflexivity.
Qed.

Lemma pushIfNew_fold (field : Contact.t -> option string)
  (records : list Contact.t) (acc : list string) :
  fold_left (fun a c => pushIfNew a (field c)) records acc =
  fold_left pushOne (presentValues field records) acc.
Proof.
  revert acc. induction records as [|c t IH]; intro acc; simpl; [reflexivity|].
  rewrite IH, fold_left_app. unfold pushIfNew.
  destruct (Js.orNull (field c)); reflexivity.
Qed.

(** The loop that collects a field of the view. *)
Lemma collected_values (field : Contact.t -> option string)
  (first : Contact.t) (others : list Contact.t) :
  fold_left (fun a c => pushIfNew a (field c)) others (pushIfNew [] (field first))
  = firstOccurrences (presentValues field (first :: others)).
Proof.
  change (fold_left (fun a c => pushIfNew a (field c)) others
                    (pushIfNew [] (field first)))
    with (fold_left (fun a c => pushIfNew a (field c)) (first :: others) []).
  rewrite pushIfNew_fold, pushOne_fold. simpl.
  f_equal. now rewrite filter_all.
Qed.

(** [C4] For a membership with exactly one primary, the consolidated
    view names that primary, lists the secondaries' identifiers in
    ascending createdAt order, and lists the emails (and the phone numbers)
    of the primary first and of the secondaries in that order after it,
    every distinct string once, at the place of its first occurrence. *)
Theorem consolidated_view_of_single_primary
  (contacts : list Contact.t) (thePrimary : Contact.t) :
  filter isPrimary contacts = [thePrimary] ->
  exists secondaries,
    Permutation secondaries (filter isSecondary contacts) /\
    StronglySorted byCreatedAt secondaries /\
    buildConsolidatedContact contacts =
    Resolved
      (mkConsolidated
         (Contact.id thePrimary)
         (firstOccurrences (presentValues Contact.email (thePrimary :: secondaries)))
         (firstOccurrences (presentValues Contact.phoneNumber (thePrimary :: secondaries)))
         (map Contact.id secondaries)) /\
    NoDup (firstOccurrences (presentValues Contact.email (thePrimary :: secondaries))) /\
    NoDup (firstOccurrences (presentValues Contact.phoneNumber (thePrimary :: secondaries))).
Proof.
  intro Hone.
  exists (Js.sortOn Contact.createdAt (filter isSecondary contacts)).
  split; [apply sortOn_perm|].
  split; [apply sortOn_sorted|].
  split; [|split; apply firstOccurrences_NoDup].
  unfold buildConsolidatedContact.
  rewrite find_hd_filter, !filter_sortOn, Hone. cbn [Js.sortOn Js.insertOn hd_error].
  now rewrite !collected_values.
Qed.

(** The theorem at a membership of one primary and two secondaries that
    arrive out of order and repeat a phone number. *)
Lemma consolidated_view_of_single_primary_witness :
  let p := Contact.mk 1 (Some "123"%string) (Some "lorraine@x"%string) None Primary 10 10 None in
  let s1 := Contact.mk 3 (Some "123"%string) (Some "biff@x"%string) (Some 1) Secondary 30 30 None in
  let s2 := Contact.mk 2 (Some "456"%string) (Some "mcfly@x"%string) (Some 1) Secondary 20 20 None in
  filter isPrimary [s1; p; s2] = [p] /\
  exists secondaries,
    Permutation secondaries (filter isSecondary [s1; p; s2]) /\
    StronglySorted byCreatedAt secondaries /\
    buildConsolidatedContact [s1; p; s2] =
    Resolved
      (mkConsolidated
         (Contact.id p)
         (firstOccurrences (presentValues Contact.email (p :: secondaries)))
         (firstOccurrences (presentValues Contact.phoneNumber (p :: secondaries)))
         (map Contact.id secondaries)) /\
    NoDup (firstOccurrences (presentValues Contact.email (p :: secondaries))) /\
    NoDup (firstOccurrences (presentValues Contact.phoneNumber (p :: secondaries))).
Proof.
  intros p s1 s2. split; [reflexivity|].
  apply (consolidated_view_of_single_primary [s1; p; s2] p). reflexivity.
Defined.

(* ================================================================== *)
(** ** Identifiers, the new-information test and the rejection of a view *)

Lemma fold_max_ge (l : list Z) (a : Z) :
  a <= fold_left Z.max l a /\ forall x, In x l -> x <= fold_left Z.max l a.
Proof.
  revert a. induction l as [|y t IH]; simpl; intro a.
  - split; [lia | intros x []].
  - destruct (IH (Z.max a y)) as [H1 H2]. split; [lia|].
    intros x [<-|Hx]; [lia | now apply H2].
Qed.

(** The identifier of the next row is larger than every identifier of
    the table. *)
Lemma nextId_fresh (db : Database) (c : Contact.t) :
  In c (rows db) -> Contact.id c < nextId db.
Proof.
  intro H. unfold nextId.
  destruct (fold_max_ge (map Contact.id (rows db)) (sequence db)) as [_ Hx].
  specialize (Hx (Contact.id c) (in_map Contact.id _ _ H)). lia.
Qed.

Lemma nextId_not_in (db : Database) :
  ~ In (nextId db) (map Contact.id (rows db)).
Proof.
  intro H. apply in_map_iff in H. destruct H as (c & Hc & Hin).
  apply nextId_fresh in Hin. lia.
Qed.

Lemma strictEq_eq (a b : option string) : Js.strictEq a b = true <-> a = b.
Proof.
  destruct a as [x|], b as [y|]; simpl; try (split; congruence).
  rewrite String.eqb_eq. split; congruence.
Qed.

Lemma strictEqNum_eq (a b : option Z) : Js.strictEqNum a b = true <-> a = b.
Proof.
  destruct a as [x|], b as [y|]; simpl; try (split; congruence).
  rewrite Z.eqb_eq. split; congruence.
Qed.

Lemma truthy_orNull (v : option string) :
  Js.truthy v = true -> Js.orNull v = v.
Proof.
  unfold Js.truthy, Js.orNull. destruct v as [s|]; [|discriminate].
  now destruct (String.eqb s EmptyString).
Qed.

Lemma orNull_some (v : option string) (s : string) :
  Js.orNull v = Some s -> v = Some s /\ Js.truthy v = true.
Proof.
  unfold Js.truthy, Js.orNull. destruct v as [x|]; [|discriminate].
  destruct (String.eqb x EmptyString); [discriminate|]. now intros [= ->].
Qed.

Lemma orNull_idem (v : option string) : Js.orNull (Js.orNull v) = Js.orNull v.
Proof.
  destruct v as [s|]; [|reflexivity]. simpl.
  destruct (String.eqb s EmptyString) eqn:E; [reflexivity|]. simpl. now rewrite E.
Qed.

Lemma hasNew_spec (field : Contact.t -> option string) (v : option string)
  (members : list Contact.t) :
  Js.truthy v && negb (existsb (fun c => Js.strictEq (field c) v) members) = true
  <-> exists s, Js.orNull v = Some s /\ forall c, In c members -> field c <> Some s.
Proof.
  rewrite andb_true_iff, negb_true_iff. split.
  - intros [Ht Hn]. pose proof (truthy_orNull v Ht) as Ho.
    destruct v as [s|]; [|discriminate]. exists s. split; [exact Ho|].
    intros c Hc Heq.
    assert (existsb (fun c => Js.strictEq (field c) (Some s)) members = true);
      [|congruence].
    apply existsb_exists. exists c. split; [exact Hc | now apply strictEq_eq].
  - intros (s & Ho & Hall). apply orNull_some in Ho. destruct Ho as [-> Ht].
    split; [exact Ht|].
    destruct (existsb _ members) eqn:E; [|reflexivity].
    apply existsb_exists in E. destruct E as (c & Hc & Heq).
    apply strictEq_eq in Heq. now apply Hall in Hc.
Qed.

Lemma exactMatch_spec (members : list Contact.t) (request : IdentifyRequest.t) :
  existsb (fun contact =>
             Js.strictEq (Contact.email contact)
                         (Js.orNull (IdentifyRequest.email request)) &&
             Js.strictEq (Contact.phoneNumber contact)
                         (Js.orNull (IdentifyRequest.phoneNumber request)))
          members = true
  <-> hasExactPair members request.
Proof.
  rewrite existsb_exists. unfold hasExactPair.
  split; intros (c & Hc & H); exists c; (split; [exact Hc|]).
  - apply andb_true_iff in H. now rewrite !strictEq_eq in H.
  - apply andb_true_iff. now rewrite !strictEq_eq.
Qed.

(** [needsNewSecondaryContact] decides the new-information test. *)
Lemma needsNewSecondaryContact_spec (members : list Contact.t)
  (request : IdentifyRequest.t) :
  needsNewSecondaryContact members (IdentifyRequest.email request)
                           (IdentifyRequest.phoneNumber request) = true
  <-> newInformation members request.
Proof.
  unfold needsNewSecondaryContact, newInformation, suppliesUnseen.
  rewrite <- exactMatch_spec.
  rewrite <- (hasNew_spec Contact.email), <- (hasNew_spec Contact.phoneNumber).
  destruct (existsb _ members).
  - split; [discriminate | intros [H _]; now elim H].
  - rewrite orb_true_iff. split; [intro H; split; [discriminate | exact H] | tauto].
Qed.

Lemma existsb_two_fields (g : option string -> option string -> bool)
  (members : list Contact.t) :
  existsb (fun c => g (Contact.email c) (Contact.phoneNumber c)) members =
  existsb (fun ep => g (fst ep) (snd ep))
          (combine (map Contact.email members) (map Contact.phoneNumber members)).
Proof.
  induction members as [|c t IH]; simpl; [reflexivity|]. now rewrite IH.
Qed.

(** The test reads the emails and phone numbers of the members only. *)
Lemma needsNewSecondaryContact_fields (m1 m2 : list Contact.t)
  (email phoneNumber : option string) :
  map Contact.email m1 = map Contact.email m2 ->
  map Contact.phoneNumber m1 = map Contact.phoneNumber m2 ->
  needsNewSecondaryContact m1 email phoneNumber =
  needsNewSecondaryContact m2 email phoneNumber.
Proof.
  intros He Hp. unfold needsNewSecondaryContact.
  rewrite (existsb_two_fields
             (fun e p => Js.strictEq e (Js.orNull email) &&
                         Js.strictEq p (Js.orNull phoneNumber)) m1).
  rewrite (existsb_two_fields
             (fun e p => Js.strictEq e (Js.orNull email) &&
                         Js.strictEq p (Js.orNull phoneNumber)) m2).
  rewrite (existsb_two_fields (fun e _ => Js.strictEq e email) m1).
  rewrite (existsb_two_fields (fun e _ => Js.strictEq e email) m2).
  rewrite (existsb_two_fields (fun _ p => Js.strictEq p phoneNumber) m1).
  rewrite (existsb_two_fields (fun _ p => Js.strictEq p phoneNumber) m2).
  now rewrite He, Hp.
Qed.

Lemma build_rejected (contacts : list Contact.t) :
  filter isPrimary contacts = [] ->
  buildConsolidatedContact contacts = Rejected NoPrimaryContactFound.
Proof.
  intro H. unfold buildConsolidatedContact.
  now rewrite find_hd_filter, filter_sortOn, H.
Qed.

Lemma build_resolved (contacts : list Contact.t) (c : Contact.t) :
  In c contacts -> isPrimary c = true ->
  exists view, buildConsolidatedContact contacts = Resolved view.
Proof.
  intros Hin Hp. unfold buildConsolidatedContact.
  rewrite find_hd_filter, filter_sortOn.
  destruct (Js.sortOn Contact.createdAt (filter isPrimary contacts)) as [|x s] eqn:E.
  - apply sortOn_nil in E.
    assert (Hc : In c (filter isPrimary contacts)) by (apply filter_In; auto).
    rewrite E in Hc. destruct Hc.
  - eexists. reflexivity.
Qed.

Lemma oldestOf_In (allContacts : list Contact.t) (oldest : Contact.t) :
  oldestOf allContacts = Some oldest ->
  In oldest allContacts /\ isPrimary oldest = true.
Proof.
  unfold oldestOf. intro H.
  destruct (Js.sortOn Contact.createdAt (filter isPrimary allContacts))
    as [|x s] eqn:E; [discriminate|].
  injection H as ->.
  assert (Hin : In oldest (Js.sortOn Contact.createdAt (filter isPrimary allContacts)))
    by (rewrite E; now left).
  apply sortOn_In, filter_In in Hin. exact Hin.
Qed.

Lemma oldestOf_none (allContacts : list Contact.t) :
  oldestOf allContacts = None <-> filter isPrimary allContacts = [].
Proof.
  unfold oldestOf. split; intro H.
  - destruct (Js.sortOn Contact.createdAt (filter isPrimary allContacts)) eqn:E;
      [now apply sortOn_nil in E | discriminate].
  - now rewrite H.
Qed.

(** The oldest primary is left as it is by both loops. *)
Lemma merged_keeps_oldest (allContacts : list Contact.t) (oldest : Contact.t) :
  In oldest allContacts -> isPrimary oldest = true ->
  In oldest (mergedObjects (Contact.id oldest) allContacts).
Proof.
  intros Hin Hp. unfold mergedObjects, afterRelink, afterDemote.
  rewrite map_map. apply in_map_iff. exists oldest. split; [|exact Hin].
  assert (Hv : visit (isOther (Contact.id oldest)) (demote (Contact.id oldest)) oldest
               = oldest).
  { unfold visit, isOther. now rewrite Z.eqb_refl. }
  now rewrite Hp, Hv, isSecondary_negb, Hp.
Qed.

Lemma candidates_truthy (request : IdentifyRequest.t) (db : Database) :
  candidates request db <> [] ->
  Js.truthy (IdentifyRequest.email request) ||
  Js.truthy (IdentifyRequest.phoneNumber request) = true.
Proof.
  unfold candidates, whereEmailOrPhone, Js.truthy.
  destruct (Js.orNull (IdentifyRequest.email request)),
           (Js.orNull (IdentifyRequest.phoneNumber request)); auto.
Qed.

Lemma governingIds_candidates (request : IdentifyRequest.t) (db : Database) :
  governingIds request db <> [] -> candidates request db <> [].
Proof.
  intros H Hc. apply H. now apply governingIds_no_candidates.
Qed.

Lemma fetchedMembers_single (primaryId : Z) (db : Database) :
  fetchedMembers [primaryId] db = membersOf primaryId db.
Proof. unfold fetchedMembers. simpl. apply app_nil_r. Qed.

(* ================================================================== *)
(** ** Properties of [identify] *)

(** [C5] An observation without candidates creates exactly one record:
    a primary without link that carries the email and the phone number of
    the observation (an empty string counts as absent). The view names
    that record, lists its fields and has no secondary. *)
Theorem no_match_creates_one_primary
  (clk : Clock) (request : IdentifyRequest.t) (db : Database) :
  healthy db ->
  candidates request db = [] ->
  exists created,
    rows (fst (identify clk request db)) = rows db ++ [created] /\
    journal (fst (identify clk request db))
      = journal db ++ [Insert (primaryData request)] /\
    ~ In (Contact.id created) (map Contact.id (rows db)) /\
    Contact.linkPrecedence created = Primary /\
    Contact.linkedId created = None /\
    Contact.email created = Js.orNull (IdentifyRequest.email request) /\
    Contact.phoneNumber created = Js.orNull (IdentifyRequest.phoneNumber request) /\
    snd (identify clk request db) =
    Resolved
      (mkConsolidated
         (Contact.id created)
         (match Js.orNull (IdentifyRequest.email request) with
          | Some e => [e] | None => [] end)
         (match Js.orNull (IdentifyRequest.phoneNumber request) with
          | Some p => [p] | None => [] end)
         []).
Proof.
  intros Hh Hc. rewrite (identify_no_match clk request db Hh Hc).
  exists (createdRow clk (primaryData request) db).
  cbn [fst snd inserted rows journal createdRow primaryData
       Contact.id Contact.linkPrecedence Contact.linkedId Contact.email
       Contact.phoneNumber CreateContactData.email CreateContactData.phoneNumber
       CreateContactData.linkedId CreateContactData.linkPrecedence].
  repeat (split; [reflexivity || apply nextId_not_in|]).
  unfold buildConsolidatedContact, createdObject, primaryData, pushIfNew.
  cbn [Js.sortOn Js.insertOn find isPrimary precedence_eqb Contact.linkPrecedence
       CreateContactData.linkPrecedence filter isSecondary fold_left map
       Contact.id Contact.email Contact.phoneNumber
       CreateContactData.email CreateContactData.phoneNumber].
  rewrite !orNull_idem.
  destruct (Js.orNull (IdentifyRequest.email request)),
           (Js.orNull (IdentifyRequest.phoneNumber request)); reflexivity.
Qed.

(** The first call of the scenario of the specification. *)
Lemma no_match_creates_one_primary_witness :
  let clk := mkClock 100 100 in
  let request := IdentifyRequest.mk (Some "lorraine@x"%string) (Some "123"%string) in
  healthy emptyStore /\
  candidates request emptyStore = [] /\
  exists created,
    rows (fst (identify clk request emptyStore)) = rows emptyStore ++ [created] /\
    journal (fst (identify clk request emptyStore))
      = journal emptyStore ++ [Insert (primaryData request)] /\
    ~ In (Contact.id created) (map Contact.id (rows emptyStore)) /\
    Contact.linkPrecedence created = Primary /\
    Contact.linkedId created = None /\
    Contact.email created = Js.orNull (IdentifyRequest.email request) /\
    Contact.phoneNumber created = Js.orNull (IdentifyRequest.phoneNumber request) /\
    snd (identify clk request emptyStore) =
    Resolved
      (mkConsolidated
         (Contact.id created)
         (match Js.orNull (IdentifyRequest.email request) with
          | Some e => [e] | None => [] end)
         (match Js.orNull (IdentifyRequest.phoneNumber request) with
          | Some p => [p] | None => [] end)
         []).
Proof.
  intros clk request. split; [reflexivity|]. split; [reflexivity|].
  apply (no_match_creates_one_primary clk request emptyStore); reflexivity.
Defined.

(** [C10] An observation that matches one identity and brings no new
    information leaves the store as it is: no row, counter or journal
    entry changes, and the call returns the view of the fetched members. *)
Theorem no_new_information_no_write
  (clk : Clock) (request : IdentifyRequest.t) (db : Database) (primaryId : Z) :
  healthy db ->
  governingIds request db = [primaryId] ->
  ~ newInformation (membersOf primaryId db) request ->
  fst (identify clk request db) = db /\
  snd (identify clk request db) = buildConsolidatedContact (membersOf primaryId db).
Proof.
  intros Hh Hg Hnew.
  assert (Hc : candidates request db <> []).
  { apply governingIds_candidates. rewrite Hg. discriminate. }
  rewrite (identify_matched clk request db Hh Hc), Hg.
  destruct (needsNewSecondaryContact _ _ _) eqn:E; [|split; reflexivity].
  apply needsNewSecondaryContact_spec in E. contradiction.
Qed.

Lemma no_new_information_no_write_witness :
  let clk := mkClock 300 300 in
  let request := IdentifyRequest.mk None (Some "123"%string) in
  healthy lorraineStore /\
  governingIds request lorraineStore = [1] /\
  ~ newInformation (membersOf 1 lorraineStore) request /\
  fst (identify clk request lorraineStore) = lorraineStore /\
  snd (identify clk request lorraineStore)
    = buildConsolidatedContact (membersOf 1 lorraineStore).
Proof.
  intros clk request.
  assert (Hnew : ~ newInformation (membersOf 1 lorraineStore) request).
  { intro H. apply needsNewSecondaryContact_spec in H. vm_compute in H. discriminate. }
  split; [reflexivity|]. split; [reflexivity|]. split; [exact Hnew|].
  apply (no_new_information_no_write clk request lorraineStore 1);
    [reflexivity | reflexivity | exact Hnew].
Defined.

(** [C8] While the store answers every statement, [identify] is rejected
    exactly when the linkage is inconsistent: the candidates have no
    governing primary id, or the members fetched for the governing ids hold
    no primary. The rejection is ['No primary contacts found'] in the first
    case and ['No primary contact found'] from the view assembly in the
    second when one identity is matched; when several are matched the merge
    already fails on the missing oldest primary, with a TypeError. *)
Theorem identify_rejected_iff_inconsistent
  (clk : Clock) (request : IdentifyRequest.t) (db : Database) :
  healthy db ->
  ((exists e, snd (identify clk request db) = Rejected e)
   <-> noGoverningPrimary request db \/ noPrimaryMember request db) /\
  (noGoverningPrimary request db ->
   snd (identify clk request db) = Rejected NoPrimaryContactsFound) /\
  (noPrimaryMember request db ->
   snd (identify clk request db) =
   Rejected (match governingIds request db with
             | [_] => NoPrimaryContactFound
             | _ => TypeError
             end)).
Proof.
  intros Hh. unfold noGoverningPrimary, noPrimaryMember.
  destruct (candidates request db) as [|c0 cs] eqn:Ec.
  - (* no match: a primary is created and the view is built from it *)
    pose proof (governingIds_no_candidates request db Ec) as Hg.
    rewrite (identify_no_match clk request db Hh Ec), Hg. cbn [snd].
    destruct (build_resolved [createdObject clk (primaryData request) db]
                (createdObject clk (primaryData request) db)) as (v & Hv);
      [now left | reflexivity |].
    rewrite Hv. split; [|split].
    + split; [intros (e & He); discriminate|].
      intros [[H _]|[H _]]; now elim H.
    + intros [H _]; now elim H.
    + intros [H _]; now elim H.
  - assert (Hc : candidates request db <> []) by (rewrite Ec; discriminate).
    rewrite (identify_matched clk request db Hh Hc).
    destruct (governingIds request db) as [|p [|q rest]] eqn:Eg.
    + (* no governing primary id *)
      cbn [snd]. split; [|split].
      * split; [intros _; left; split; [discriminate | reflexivity]|].
        intros _. eexists; reflexivity.
      * reflexivity.
      * intros [H _]; now elim H.
    + (* one identity *)
      rewrite fetchedMembers_single.
      assert (Hsnd :
        snd (if needsNewSecondaryContact (membersOf p db)
                  (IdentifyRequest.email request) (IdentifyRequest.phoneNumber request)
             then (inserted clk (secondaryData request p) db,
                   buildConsolidatedContact
                     (membersOf p db ++
                      [createdObject clk (secondaryData request p) db]))
             else (db, buildConsolidatedContact (membersOf p db)))
        = match filter isPrimary (membersOf p db) with
          | [] => Rejected NoPrimaryContactFound
          | _ :: _ => snd (if needsNewSecondaryContact (membersOf p db)
                                (IdentifyRequest.email request)
                                (IdentifyRequest.phoneNumber request)
                           then (inserted clk (secondaryData request p) db,
                                 buildConsolidatedContact
                                   (membersOf p db ++
                                    [createdObject clk (secondaryData request p) db]))
                           else (db, buildConsolidatedContact (membersOf p db)))
          end).
      { destruct (filter isPrimary (membersOf p db)) eqn:Ef; [|reflexivity].
        destruct (needsNewSecondaryContact _ _ _); cbn [snd];
          apply build_rejected; [|exact Ef].
        rewrite filter_app, Ef. reflexivity. }
      destruct (filter isPrimary (membersOf p db)) as [|x xs] eqn:Ef.
      * rewrite Hsnd. split; [|split].
        -- split; [intros _; right; split; [discriminate | reflexivity]|].
           intros _. eexists; reflexivity.
        -- intros [_ H]; discriminate.
        -- reflexivity.
      * assert (Hx : In x (membersOf p db) /\ isPrimary x = true).
        { apply filter_In. rewrite Ef. now left. }
        destruct Hx as [Hx1 Hx2].
        assert (Hres : exists v,
          snd (if needsNewSecondaryContact (membersOf p db)
                    (IdentifyRequest.email request) (IdentifyRequest.phoneNumber request)
               then (inserted clk (secondaryData request p) db,
                     buildConsolidatedContact
                       (membersOf p db ++
                        [createdObject clk (secondaryData request p) db]))
               else (db, buildConsolidatedContact (membersOf p db)))
          = Resolved v).
        { destruct (needsNewSecondaryContact _ _ _); cbn [snd];
            eapply build_resolved; eauto. apply in_or_app. now left. }
        destruct Hres as (v & Hv). rewrite Hv. split; [|split].
        -- split; [intros (e & He); discriminate|].
           intros [[_ H]|[_ H]]; discriminate.
        -- intros [_ H]; discriminate.
        -- intros [_ H]; discriminate.
    + (* several identities *)
      set (pids := p :: q :: rest) in *.
      destruct (oldestOf (fetchedMembers pids db)) as [oldest|] eqn:Eo.
      * destruct (mergePrimaryContacts_healthy clk pids request db oldest Hh Eo)
          as (dbm & _ & _ & _ & _ & Hm).
        destruct (oldestOf_In _ _ Eo) as [Hin Hp].
        pose proof (merged_keeps_oldest _ _ Hin Hp) as Hkeep.
        assert (Hres : exists v,
                  snd (mergePrimaryContacts clk pids (IdentifyRequest.email request)
                         (IdentifyRequest.phoneNumber request) db) = Resolved v).
        { rewrite Hm. destruct (needsNewSecondaryContact _ _ _); cbn [snd];
            eapply build_resolved; eauto. apply in_or_app. now left. }
        destruct Hres as (v & Hv). rewrite Hv.
        assert (Hne : filter isPrimary (fetchedMembers pids db) <> []).
        { intro H. apply oldestOf_none in H. congruence. }
        split; [|split].
        -- split; [intros (e & He); discriminate|].
           intros [[_ H]|[_ H]]; [discriminate | contradiction].
        -- intros [_ H]; discriminate.
        -- intros [_ H]; contradiction.
      * rewrite (mergePrimaryContacts_no_primary clk pids _ _ db Hh Eo). cbn [snd].
        rewrite (candidates_truthy request db Hc).
        assert (He : Rejected (A:=ConsolidatedContact)
                       match fetchedMembers pids db with
                       | [] => TypeError
                       | _ :: _ => TypeError
                       end = Rejected TypeError)
          by (now destruct (fetchedMembers pids db)).
        rewrite He. apply oldestOf_none in Eo. split; [|split].
        -- split; [intros _; right; split; [discriminate | exact Eo]|].
           intros _. eexists; reflexivity.
        -- intros [_ H]; discriminate.
        -- reflexivity.
Qed.

Lemma identify_rejected_iff_inconsistent_witness :
  let clk := mkClock 300 300 in
  let request := IdentifyRequest.mk (Some "mcfly@x"%string) None in
  healthy orphanStore /\
  ((exists e, snd (identify clk request orphanStore) = Rejected e)
   <-> noGoverningPrimary request orphanStore \/ noPrimaryMember request orphanStore) /\
  (noGoverningPrimary request orphanStore ->
   snd (identify clk request orphanStore) = Rejected NoPrimaryContactsFound) /\
  (noPrimaryMember request orphanStore ->
   snd (identify clk request orphanStore) =
   Rejected (match governingIds request orphanStore with
             | [_] => NoPrimaryContactFound
             | _ => TypeError
             end)).
Proof.
  intros clk request. split; [reflexivity|].
  apply (identify_rejected_iff_inconsistent clk request orphanStore). reflexivity.
Defined.

(* ================================================================== *)
(** ** The records a call creates *)

Lemma createsNoRecord_refl (db : Database) : createsNoRecord db db.
Proof.
  split; [reflexivity|]. exists []. split; [now rewrite app_nil_r | constructor].
Qed.

Lemma mergedRow_id (clk : Clock) (oid : Z) (all : list Contact.t) (row : Contact.t) :
  Contact.id (mergedRow clk oid all row) = Contact.id row.
Proof.
  unfold mergedRow, rowAfterRelink, rowAfterDemote.
  repeat match goal with |- context [if ?b then _ else _] => destruct b end;
    reflexivity.
Qed.

Lemma mergedObjects_email (oid : Z) (all : list Contact.t) :
  map Contact.email (mergedObjects oid all) = map Contact.email all.
Proof.
  unfold mergedObjects, afterRelink, afterDemote. rewrite !map_map.
  apply map_ext. intro c. unfold visit, demote.
  repeat match goal with |- context [if ?b then _ else _] => destruct b end;
    reflexivity.
Qed.

Lemma mergedObjects_phoneNumber (oid : Z) (all : list Contact.t) :
  map Contact.phoneNumber (mergedObjects oid all) = map Contact.phoneNumber all.
Proof.
  unfold mergedObjects, afterRelink, afterDemote. rewrite !map_map.
  apply map_ext. intro c. unfold visit, demote.
  repeat match goal with |- context [if ?b then _ else _] => destruct b end;
    reflexivity.
Qed.

Lemma needsNew_merged (oid : Z) (all : list Contact.t)
  (email phoneNumber : option string) :
  needsNewSecondaryContact (mergedObjects oid all) email phoneNumber =
  needsNewSecondaryContact all email phoneNumber.
Proof.
  apply needsNewSecondaryContact_fields;
    [apply mergedObjects_email | apply mergedObjects_phoneNumber].
Qed.

(** What a call does to the table when it matches an identity, by the
    outcome of the test on the fetched members. *)
Lemma matched_creation (clk : Clock) (request : IdentifyRequest.t)
  (db : Database) (target : Z) :
  healthy db ->
  governingTarget request db = Some target ->
  if needsNewSecondaryContact (fetchedMembers (governingIds request db) db)
       (IdentifyRequest.email request) (IdentifyRequest.phoneNumber request)
  then createsOneSecondary db (fst (identify clk request db)) request target
  else createsNoRecord db (fst (identify clk request db)).
Proof.
  intros Hh Ht. unfold governingTarget in Ht.
  assert (Hc : candidates request db <> []).
  { apply governingIds_candidates. intro H. now rewrite H in Ht. }
  rewrite (identify_matched clk request db Hh Hc).
  destruct (governingIds request db) as [|p [|q rest]] eqn:Eg; [discriminate| |].
  - injection Ht as <-. rewrite fetchedMembers_single.
    destruct (needsNewSecondaryContact _ _ _); cbn [fst];
      [|apply createsNoRecord_refl].
    exists (rows db), (createdRow clk (secondaryData request p) db), [].
    cbn [inserted rows journal createdRow secondaryData Contact.id
         Contact.linkPrecedence Contact.linkedId Contact.email Contact.phoneNumber
         CreateContactData.email CreateContactData.phoneNumber
         CreateContactData.linkedId CreateContactData.linkPrecedence app].
    repeat (split; [reflexivity || apply nextId_not_in|]). constructor.
  - set (pids := p :: q :: rest) in *.
    destruct (oldestOf (fetchedMembers pids db)) as [oldest|] eqn:Eo; [|discriminate].
    simpl in Ht. injection Ht as <-.
    destruct (mergePrimaryContacts_healthy clk pids request db oldest Hh Eo)
      as (dbm & Hhm & Hseq & Hrows & (updates & Hj & Hu) & Hm).
    rewrite Hm, needsNew_merged.
    assert (Hids : map Contact.id (rows dbm) = map Contact.id (rows db)).
    { rewrite Hrows, map_map. apply map_ext. intro. apply mergedRow_id. }
    destruct (needsNewSecondaryContact (fetchedMembers pids db) _ _); cbn [fst].
    + exists (rows dbm), (createdRow clk (secondaryData request (Contact.id oldest)) dbm),
             updates.
      cbn [inserted rows journal createdRow secondaryData Contact.id
           Contact.linkPrecedence Contact.linkedId Contact.email Contact.phoneNumber
           CreateContactData.email CreateContactData.phoneNumber
           CreateContactData.linkedId CreateContactData.linkPrecedence].
      split; [reflexivity|]. split; [exact Hids|].
      split; [rewrite <- Hids; apply nextId_not_in|].
      repeat (split; [reflexivity|]).
      split; [now rewrite Hj, app_assoc | exact Hu].
    + split; [exact Hids|]. exists updates. now split.
Qed.

Lemma createsOne_not_none (db db' : Database) (request : IdentifyRequest.t)
  (target : Z) :
  createsOneSecondary db db' request target -> ~ createsNoRecord db db'.
Proof.
  intros (kept & created & updates & Hr & Hk & _) [Hids _].
  apply (f_equal (@List.length Z)) in Hids, Hk.
  rewrite Hr in Hids. rewrite !length_map in *. rewrite length_app in Hids.
  simpl in Hids. lia.
Qed.

(** [C2] For an observation that matches an identity, a record is created
    exactly when the test for new information holds on the fetched members:
    no member has the exact pair and the observation supplies an email or a
    phone number that no member has. The record created is the only one, a
    secondary linked to the governing primary, or to the surviving primary
    of a merge. *)
Theorem new_secondary_iff_new_information
  (clk : Clock) (request : IdentifyRequest.t) (db : Database) (target : Z) :
  healthy db ->
  governingTarget request db = Some target ->
  (newInformation (fetchedMembers (governingIds request db) db) request
   <-> createsOneSecondary db (fst (identify clk request db)) request target) /\
  (~ newInformation (fetchedMembers (governingIds request db) db) request
   <-> createsNoRecord db (fst (identify clk request db))).
Proof.
  intros Hh Ht.
  pose proof (matched_creation clk request db target Hh Ht) as H.
  pose proof (needsNewSecondaryContact_spec
                (fetchedMembers (governingIds request db) db) request) as Hspec.
  destruct (needsNewSecondaryContact _ _ _).
  - assert (Hn : newInformation (fetchedMembers (governingIds request db) db) request)
      by now apply Hspec.
    split; split; intro H'; auto.
    + contradiction.
    + exfalso. eapply createsOne_not_none; eauto.
  - assert (Hn : ~ newInformation (fetchedMembers (governingIds request db) db) request).
    { intro Hn. apply Hspec in Hn. discriminate. }
    split; split; intro H'; auto.
    + contradiction.
    + exfalso. eapply createsOne_not_none; eauto.
Qed.

Lemma new_secondary_iff_new_information_witness :
  let clk := mkClock 300 300 in
  let request := IdentifyRequest.mk (Some "lorraine@x"%string) (Some "456"%string) in
  healthy lorraineStore /\
  governingTarget request lorraineStore = Some 1 /\
  (newInformation (fetchedMembers (governingIds request lorraineStore) lorraineStore)
                  request
   <-> createsOneSecondary lorraineStore (fst (identify clk request lorraineStore))
                           request 1) /\
  (~ newInformation (fetchedMembers (governingIds request lorraineStore) lorraineStore)
                    request
   <-> createsNoRecord lorraineStore (fst (identify clk request lorraineStore))).
Proof.
  intros clk request. split; [reflexivity|]. split; [reflexivity|].
  apply (new_secondary_iff_new_information clk request lorraineStore 1); reflexivity.
Defined.

Lemma allPrimaryIdsOf_In (existing : list Contact.t) (x : Z) :
  In x (allPrimaryIdsOf existing) <->
  (exists c, In c existing /\ isPrimary c = true /\ Contact.id c = x) \/
  (exists c, In c existing /\ isSecondary c = true /\ Contact.linkedId c = Some x).
Proof.
  unfold allPrimaryIdsOf. rewrite newSet_In, in_app_iff, in_map_iff, in_concat.
  split.
  - intros [(c & Hid & Hc)|(l & Hl & Hx)].
    + apply filter_In in Hc. left. exists c. tauto.
    + apply in_map_iff in Hl. destruct Hl as (c & Hl & Hc).
      apply filter_In in Hc. right. exists c.
      destruct (Contact.linkedId c) as [y|]; subst l; [|destruct Hx].
      destruct Hx as [->|[]]. tauto.
  - intros [(c & Hc & Hp & Hid)|(c & Hc & Hs & Hl)].
    + left. exists c. split; [exact Hid|]. apply filter_In. tauto.
    + right. exists [x]. split; [|now left].
      apply in_map_iff. exists c. rewrite Hl. split; [reflexivity|].
      apply filter_In. tauto.
Qed.

Lemma membersOf_In (primaryId : Z) (db : Database) (c : Contact.t) :
  In c (membersOf primaryId db) <->
  In c (rows db) /\ live c = true /\ linkedTo primaryId c = true.
Proof.
  unfold membersOf. rewrite sortOn_In, filter_In, andb_true_iff. tauto.
Qed.

Lemma fetchedMembers_In (primaryIds : list Z) (db : Database) (c : Contact.t) :
  In c (fetchedMembers primaryIds db) <->
  exists p, In p primaryIds /\ In c (membersOf p db).
Proof.
  unfold fetchedMembers. rewrite in_concat. split.
  - intros (l & Hl & Hc). apply in_map_iff in Hl.
    destruct Hl as (p & <- & Hp). eauto.
  - intros (p & Hp & Hc). exists (membersOf p db). split; [|exact Hc].
    apply in_map_iff. eauto.
Qed.

Lemma candidates_In (request : IdentifyRequest.t) (db : Database) (c : Contact.t) :
  In c (candidates request db) -> In c (rows db) /\ live c = true.
Proof.
  unfold candidates, whereEmailOrPhone.
  destruct (Js.orNull (IdentifyRequest.email request)),
           (Js.orNull (IdentifyRequest.phoneNumber request));
    try (intros []); intro H; apply filter_In in H; destruct H as [Hin H];
    apply andb_true_iff in H; tauto.
Qed.

(** A record that is not removed and has a value of the observation is a
    candidate. *)
Lemma matching_candidate (request : IdentifyRequest.t) (db : Database)
  (c : Contact.t) (v : string) :
  In c (rows db) -> live c = true ->
  (Js.orNull (IdentifyRequest.email request) = Some v /\ Contact.email c = Some v) \/
  (Js.orNull (IdentifyRequest.phoneNumber request) = Some v /\
   Contact.phoneNumber c = Some v) ->
  In c (candidates request db).
Proof.
  intros Hc Hlive Hv. unfold candidates, whereEmailOrPhone, emailIs, phoneIs.
  destruct Hv as [[Ho Hf]|[Ho Hf]]; rewrite Ho.
  - destruct (Js.orNull (IdentifyRequest.phoneNumber request));
      apply filter_In; (split; [exact Hc|]);
      now rewrite Hlive, Hf, String.eqb_refl.
  - destruct (Js.orNull (IdentifyRequest.email request));
      apply filter_In; (split; [exact Hc|]);
      rewrite Hlive, Hf, String.eqb_refl, ?orb_true_r; reflexivity.
Qed.

(** A candidate that is a primary or has a link is among the members
    fetched for the governing ids. *)
Lemma candidate_member (request : IdentifyRequest.t) (db : Database) (c : Contact.t) :
  In c (candidates request db) ->
  isPrimary c = true \/ Contact.linkedId c <> None ->
  In c (fetchedMembers (governingIds request db) db).
Proof.
  intros Hcand Hlinked.
  destruct (candidates_In request db c Hcand) as [Hc Hlive].
  apply fetchedMembers_In.
  destruct (isPrimary c) eqn:Ep.
  - exists (Contact.id c). split.
    + apply allPrimaryIdsOf_In. left. eauto.
    + apply membersOf_In. unfold linkedTo. now rewrite Z.eqb_refl.
  - destruct Hlinked as [H|H]; [discriminate|].
    destruct (Contact.linkedId c) as [q|] eqn:Eq; [|now elim H].
    exists q. split.
    + apply allPrimaryIdsOf_In. right. exists c.
      rewrite isSecondary_negb, Ep. auto.
    + apply membersOf_In. unfold linkedTo. rewrite Eq, Z.eqb_refl, orb_true_r. auto.
Qed.

Lemma truthy_value (a b : option string) :
  Js.truthy a || Js.truthy b = true ->
  exists v, Js.orNull a = Some v \/ Js.orNull b = Some v.
Proof.
  unfold Js.truthy. destruct (Js.orNull a) as [x|]; [eauto|].
  destruct (Js.orNull b) as [y|]; [eauto | discriminate].
Qed.

(** A stored record with the pair of the observation is a member of the
    identity fetched for its governing id. *)
Lemma storedExactPair_member (request : IdentifyRequest.t) (db : Database) :
  storedExactPair request db ->
  hasExactPair (fetchedMembers (governingIds request db) db) request.
Proof.
  intros (Htr & c & Hc & Hlive & Hlinked & He & Hp).
  exists c. split; [|now split].
  apply candidate_member; [|exact Hlinked].
  destruct (truthy_value _ _ Htr) as (v & [Hv|Hv]);
    apply (matching_candidate request db c v Hc Hlive);
    [left | right]; (split; [exact Hv | congruence]).
Qed.

(** Without new information a matched observation creates no record. *)
Lemma no_new_information_no_record (clk : Clock) (request : IdentifyRequest.t)
  (db : Database) :
  healthy db ->
  governingIds request db <> [] ->
  needsNewSecondaryContact (fetchedMembers (governingIds request db) db)
    (IdentifyRequest.email request) (IdentifyRequest.phoneNumber request) = false ->
  createsNoRecord db (fst (identify clk request db)).
Proof.
  intros Hh Hg Hno.
  pose proof (governingIds_candidates request db Hg) as Hc.
  destruct (governingTarget request db) as [target|] eqn:Et.
  - pose proof (matched_creation clk request db target Hh Et) as H.
    now rewrite Hno in H.
  - unfold governingTarget in Et.
    rewrite (identify_matched clk request db Hh Hc).
    destruct (governingIds request db) as [|p [|q rest]];
      [now elim Hg | discriminate |].
    destruct (oldestOf (fetchedMembers (p :: q :: rest) db)) eqn:Eo; [discriminate|].
    rewrite (mergePrimaryContacts_no_primary clk _ _ _ db Hh Eo).
    apply createsNoRecord_refl.
Qed.

Lemma exact_member_no_record (clk : Clock) (request : IdentifyRequest.t)
  (db : Database) :
  healthy db ->
  hasExactPair (fetchedMembers (governingIds request db) db) request ->
  createsNoRecord db (fst (identify clk request db)).
Proof.
  intros Hh Hex. apply no_new_information_no_record; [exact Hh | |].
  - intro H. rewrite H in Hex. destruct Hex as (c & [] & _).
  - destruct (needsNewSecondaryContact _ _ _) eqn:E; [|reflexivity].
    apply needsNewSecondaryContact_spec in E. destruct E as [E _]. contradiction.
Qed.

(** When the test finds no new information, every value of the
    observation is on a member. *)
Lemma needsNew_false_met (members : list Contact.t) (request : IdentifyRequest.t) :
  needsNewSecondaryContact members (IdentifyRequest.email request)
                           (IdentifyRequest.phoneNumber request) = false ->
  (forall v, Js.orNull (IdentifyRequest.email request) = Some v ->
             exists c, In c members /\ Contact.email c = Some v) /\
  (forall v, Js.orNull (IdentifyRequest.phoneNumber request) = Some v ->
             exists c, In c members /\ Contact.phoneNumber c = Some v).
Proof.
  unfold needsNewSecondaryContact.
  destruct (existsb _ members) eqn:Ex.
  - intros _. apply exactMatch_spec in Ex. destruct Ex as (c & Hc & He & Hp).
    split; intros v Hv; exists c; (split; [exact Hc | congruence]).
  - intro H. apply orb_false_iff in H. destruct H as [H1 H2].
    split; intros v Hv; apply orNull_some in Hv; destruct Hv as [Hv Ht];
      [rewrite Ht in H1 | rewrite Ht in H2];
      cbn [andb] in *;
      [apply negb_false_iff in H1; apply existsb_exists in H1;
       destruct H1 as (c & Hc & Heq)
      |apply negb_false_iff in H2; apply existsb_exists in H2;
       destruct H2 as (c & Hc & Heq)];
      apply strictEq_eq in Heq; exists c; (split; [exact Hc | congruence]).
Qed.

(** An observation whose values are all on stored records creates no
    record. *)
Lemma valuesMet_no_record (clk : Clock) (request : IdentifyRequest.t)
  (db : Database) :
  healthy db -> valuesMet request db ->
  createsNoRecord db (fst (identify clk request db)).
Proof.
  intros Hh (Htr & Hme & Hmp).
  assert (Hmember : forall c v,
            In c (rows db) -> live c = true ->
            isPrimary c = true \/ Contact.linkedId c <> None ->
            (Js.orNull (IdentifyRequest.email request) = Some v /\
             Contact.email c = Some v) \/
            (Js.orNull (IdentifyRequest.phoneNumber request) = Some v /\
             Contact.phoneNumber c = Some v) ->
            In c (fetchedMembers (governingIds request db) db)).
  { intros c v Hc Hlive Hl Hv. apply candidate_member; [|exact Hl].
    now apply (matching_candidate request db c v). }
  apply no_new_information_no_record; [exact Hh | |].
  - destruct (truthy_value _ _ Htr) as (v & [Hv|Hv]).
    + destruct (Hme v Hv) as (c & Hc & Hlive & Hl & Hf).
      intro Hg. specialize (Hmember c v Hc Hlive Hl (or_introl (conj Hv Hf))).
      rewrite Hg in Hmember. destruct Hmember.
    + destruct (Hmp v Hv) as (c & Hc & Hlive & Hl & Hf).
      intro Hg. specialize (Hmember c v Hc Hlive Hl (or_intror (conj Hv Hf))).
      rewrite Hg in Hmember. destruct Hmember.
  - destruct (needsNewSecondaryContact _ _ _) eqn:E; [|reflexivity].
    apply needsNewSecondaryContact_spec in E. destruct E as [_ [(v & Hv & Hn)|(v & Hv & Hn)]].
    + destruct (Hme v Hv) as (c & Hc & Hlive & Hl & Hf).
      elim (Hn c); [|exact Hf].
      exact (Hmember c v Hc Hlive Hl (or_introl (conj Hv Hf))).
    + destruct (Hmp v Hv) as (c & Hc & Hlive & Hl & Hf).
      elim (Hn c); [|exact Hf].
      exact (Hmember c v Hc Hlive Hl (or_intror (conj Hv Hf))).
Qed.

(* ================================================================== *)
(** ** The merge: the survivor and the rewritten rows *)

Lemma precedence_cases (c : Contact.t) :
  (isPrimary c = true /\ isSecondary c = false /\ Contact.linkPrecedence c = Primary) \/
  (isPrimary c = false /\ isSecondary c = true /\ Contact.linkPrecedence c = Secondary).
Proof.
  unfold isPrimary, isSecondary. destruct (Contact.linkPrecedence c); simpl; auto.
Qed.

(** After both loops the only primaries among the objects are those with
    the identifier of the oldest primary. *)
Lemma merged_primary_id (oid : Z) (all : list Contact.t) (c : Contact.t) :
  In c (mergedObjects oid all) -> isPrimary c = true -> Contact.id c = oid.
Proof.
  unfold mergedObjects, afterRelink, afterDemote. rewrite map_map, in_map_iff.
  intros (c0 & <- & _).
  unfold visit, isOther, linkedElsewhere, demote.
  destruct (precedence_cases c0) as [(Hp & Hs & _)|(Hp & Hs & _)]; rewrite Hp.
  - destruct (Contact.id c0 =? oid) eqn:E; cbn [negb].
    + rewrite Hs. intros _. now apply Z.eqb_eq.
    + cbn. destruct (negb _); cbn; discriminate.
  - rewrite Hs. destruct (negb _); cbn; unfold isPrimary in *; cbn;
      intro H; rewrite H in Hp; discriminate.
Qed.

Lemma build_primary_id (contacts : list Contact.t) (oid : Z)
  (view : ConsolidatedContact) :
  (forall c, In c contacts -> isPrimary c = true -> Contact.id c = oid) ->
  buildConsolidatedContact contacts = Resolved view ->
  primaryContactId view = oid.
Proof.
  intros Hall. unfold buildConsolidatedContact.
  destruct (find isPrimary (Js.sortOn Contact.createdAt contacts)) as [p|] eqn:Ef;
    [|discriminate].
  intros [= <-]. cbn [primaryContactId].
  apply find_some in Ef. destruct Ef as [Hin Hp].
  apply sortOn_In in Hin. now apply Hall.
Qed.

(** The outcome of a call that matches several identities with a primary
    among their members. *)
Lemma merge_outcome (clk : Clock) (request : IdentifyRequest.t) (db : Database)
  (survivor : Contact.t) :
  healthy db ->
  (2 <= List.length (governingIds request db))%nat ->
  oldestOf (fetchedMembers (governingIds request db) db) = Some survivor ->
  exists created view,
    rows (fst (identify clk request db)) =
      map (mergedRow clk (Contact.id survivor)
                     (fetchedMembers (governingIds request db) db)) (rows db)
      ++ created /\
    (created = [] \/
     exists dbm,
       map Contact.id (rows dbm) = map Contact.id (rows db) /\
       created = [createdRow clk (secondaryData request (Contact.id survivor)) dbm]) /\
    snd (identify clk request db) = Resolved view /\
    primaryContactId view = Contact.id survivor.
Proof.
  intros Hh Hlen Eo.
  assert (Hg : governingIds request db <> []).
  { intro H. rewrite H in Hlen. simpl in Hlen. lia. }
  pose proof (governingIds_candidates request db Hg) as Hc.
  rewrite (identify_matched clk request db Hh Hc).
  destruct (governingIds request db) as [|p [|q rest]] eqn:Eg;
    [simpl in Hlen; lia | simpl in Hlen; lia |].
  set (pids := p :: q :: rest) in *.
  destruct (mergePrimaryContacts_healthy clk pids request db survivor Hh Eo)
    as (dbm & Hhm & Hseq & Hrows & _ & Hm).
  destruct (oldestOf_In _ _ Eo) as [Hin Hp].
  pose proof (merged_keeps_oldest _ _ Hin Hp) as Hkeep.
  rewrite Hm.
  assert (Hids : map Contact.id (rows dbm) = map Contact.id (rows db)).
  { rewrite Hrows, map_map. apply map_ext. intro. apply mergedRow_id. }
  destruct (needsNewSecondaryContact _ _ _); cbn [fst snd inserted rows].
  - destruct (build_resolved
                (mergedObjects (Contact.id survivor) (fetchedMembers pids db) ++
                 [createdObject clk (secondaryData request (Contact.id survivor)) dbm])
                survivor) as (view & Hv);
      [apply in_or_app; now left | exact Hp |].
    exists [createdRow clk (secondaryData request (Contact.id survivor)) dbm], view.
    rewrite Hrows. split; [reflexivity|]. split; [right; eauto|].
    split; [exact Hv|].
    eapply build_primary_id; [|exact Hv].
    intros c Hc' Hpc. apply in_app_or in Hc'. destruct Hc' as [Hc'|[<-|[]]].
    + eapply merged_primary_id; eauto.
    + discriminate.
  - destruct (build_resolved
                (mergedObjects (Contact.id survivor) (fetchedMembers pids db))
                survivor Hkeep Hp) as (view & Hv).
    exists [], view. rewrite Hrows, app_nil_r.
    split; [reflexivity|]. split; [now left|]. split; [exact Hv|].
    eapply build_primary_id; [|exact Hv].
    intros c Hc' Hpc. eapply merged_primary_id; eauto.
Qed.

(** *** The rows of the fetched members after the merge *)

Lemma afterDemote_secondary (oid : Z) (all : list Contact.t) (c : Contact.t) :
  In c all -> isSecondary c = true -> In c (afterDemote oid all).
Proof.
  intros Hin Hs. unfold afterDemote. apply in_map_iff. exists c.
  split; [|exact Hin].
  destruct (precedence_cases c) as [(Hp & Hs' & _)|(Hp & _ & _)];
    [congruence | now rewrite Hp].
Qed.

Lemma existsb_witness {A : Type} (f : A -> bool) (l : list A) (x : A) :
  In x l -> f x = true -> existsb f l = true.
Proof. intros. apply existsb_exists. eauto. Qed.

(** A primary of the fetched members other than the survivor is rewritten
    to a secondary of the survivor. *)
Lemma mergedRow_other_primary (clk : Clock) (oid : Z) (all : list Contact.t)
  (r : Contact.t) :
  In r all -> isPrimary r = true -> Contact.id r <> oid ->
  Contact.linkPrecedence (mergedRow clk oid all r) = Secondary /\
  Contact.linkedId (mergedRow clk oid all r) = Some oid.
Proof.
  intros Hin Hp Hne. unfold mergedRow, rowAfterDemote.
  rewrite (existsb_witness _ all r Hin).
  - unfold rowAfterRelink. destruct (existsb _ _); split; reflexivity.
  - unfold isOther. rewrite Hp, Z.eqb_refl.
    apply Z.eqb_neq in Hne. now rewrite Hne.
Qed.

(** A secondary of the fetched members points to the survivor after the
    merge. *)
Lemma mergedRow_secondary (clk : Clock) (oid : Z) (all : list Contact.t)
  (r : Contact.t) :
  In r all -> isSecondary r = true ->
  Contact.linkPrecedence (mergedRow clk oid all r) = Secondary /\
  Contact.linkedId (mergedRow clk oid all r) = Some oid.
Proof.
  intros Hin Hs.
  destruct (precedence_cases r) as [(_ & Hs' & _)|(_ & _ & Hprec)]; [congruence|].
  pose proof (afterDemote_secondary oid all r Hin Hs) as Hin1.
  unfold mergedRow, rowAfterRelink.
  set (r1 := rowAfterDemote clk oid all r).
  assert (Hid1 : Contact.id r1 = Contact.id r).
  { unfold r1, rowAfterDemote. now destruct (existsb _ _). }
  assert (Hprec1 : Contact.linkPrecedence r1 = Secondary).
  { unfold r1, rowAfterDemote. now destruct (existsb _ _). }
  assert (Hlink1 : Contact.linkedId r1 = Some oid \/
                   Contact.linkedId r1 = Contact.linkedId r).
  { unfold r1, rowAfterDemote. destruct (existsb _ _); [now left | now right]. }
  destruct (existsb _ (afterDemote oid all)) eqn:E.
  - split; [exact Hprec1 | reflexivity].
  - split; [exact Hprec1|].
    destruct Hlink1 as [H|H]; [exact H|]. rewrite H.
    destruct (linkedElsewhere oid r) eqn:El.
    + assert (existsb (fun c => isSecondary c && linkedElsewhere oid c &&
                                (Contact.id c =? Contact.id r1))
                      (afterDemote oid all) = true); [|congruence].
      apply (existsb_witness _ _ r Hin1).
      now rewrite Hs, El, Hid1, Z.eqb_refl.
    + unfold linkedElsewhere in El. apply negb_false_iff, strictEqNum_eq in El.
      exact El.
Qed.

(** A row with the identifier of the survivor keeps its precedence. *)
Lemma mergedRow_survivor (clk : Clock) (oid : Z) (all : list Contact.t)
  (r : Contact.t) :
  Contact.id r = oid ->
  Contact.linkPrecedence (mergedRow clk oid all r) = Contact.linkPrecedence r.
Proof.
  intro Hid. unfold mergedRow, rowAfterDemote.
  assert (E : existsb (fun c => isPrimary c && isOther oid c &&
                               (Contact.id c =? Contact.id r)) all = false).
  { destruct (existsb _ all) eqn:E; [|reflexivity].
    apply existsb_exists in E. destruct E as (c & _ & H).
    apply andb_prop in H. destruct H as [H Hc]. apply andb_prop in H.
    destruct H as [_ Ho]. unfold isOther in Ho.
    apply Z.eqb_eq in Hc. rewrite Hc, Hid, Z.eqb_refl in Ho. discriminate. }
  rewrite E. unfold rowAfterRelink.
  destruct (existsb _ (afterDemote oid all)); reflexivity.
Qed.

Lemma mergedRow_fields (clk : Clock) (oid : Z) (all : list Contact.t)
  (r : Contact.t) :
  Contact.id (mergedRow clk oid all r) = Contact.id r /\
  Contact.email (mergedRow clk oid all r) = Contact.email r /\
  Contact.phoneNumber (mergedRow clk oid all r) = Contact.phoneNumber r /\
  Contact.createdAt (mergedRow clk oid all r) = Contact.createdAt r /\
  Contact.deletedAt (mergedRow clk oid all r) = Contact.deletedAt r.
Proof.
  unfold mergedRow, rowAfterRelink, rowAfterDemote.
  repeat match goal with |- context [if ?b then _ else _] => destruct b end;
    repeat split; reflexivity.
Qed.

Lemma filter_split {A : Type} (p : A -> bool) (l f1 f2 : list A) (x : A) :
  filter p l = f1 ++ x :: f2 ->
  exists l1 l2, l = l1 ++ x :: l2 /\ filter p l1 = f1 /\ filter p l2 = f2.
Proof.
  revert f1. induction l as [|a t IH]; simpl; intros f1 H.
  - destruct f1; discriminate.
  - destruct (p a) eqn:Ea.
    + destruct f1 as [|b f1']; simpl in H; injection H as Hab H; subst a.
      * exists [], t. simpl. auto.
      * destruct (IH _ H) as (l1 & l2 & -> & H1 & H2).
        exists (b :: l1), l2. simpl. rewrite Ea, H1. auto.
    + destruct (IH _ H) as (l1 & l2 & -> & H1 & H2).
      exists (a :: l1), l2. simpl. rewrite Ea. auto.
Qed.

(** The oldest primary is the first of the fetched members among the
    primaries with the earliest createdAt. *)
Lemma oldestOf_first_earliest (all : list Contact.t) (survivor : Contact.t) :
  oldestOf all = Some survivor ->
  exists before after,
    all = before ++ survivor :: after /\
    isPrimary survivor = true /\
    (forall p, In p before -> isPrimary p = true ->
               Contact.createdAt survivor < Contact.createdAt p) /\
    (forall p, In p after -> isPrimary p = true ->
               Contact.createdAt survivor <= Contact.createdAt p).
Proof.
  intro Ho. destruct (oldestOf_In _ _ Ho) as [_ Hp].
  unfold oldestOf in Ho.
  destruct (Js.sortOn Contact.createdAt (filter isPrimary all)) as [|x s] eqn:Es;
    [discriminate|].
  injection Ho as ->.
  destruct (sortOn_head _ _ _ _ Es) as (f1 & f2 & Hf & H1 & H2).
  destruct (filter_split _ _ _ _ _ Hf) as (l1 & l2 & Hall & Hl1 & Hl2).
  exists l1, l2. split; [exact Hall|]. split; [exact Hp|].
  rewrite Forall_forall in H1, H2. split; intros p Hin Hpp.
  - apply H1. rewrite <- Hl1. apply filter_In. auto.
  - apply H2. rewrite <- Hl2. apply filter_In. auto.
Qed.

Lemma oldestOf_some (all : list Contact.t) :
  filter isPrimary all <> [] -> exists survivor, oldestOf all = Some survivor.
Proof.
  intro H. destruct (oldestOf all) eqn:E; [eauto|].
  apply oldestOf_none in E. contradiction.
Qed.

(* ================================================================== *)
(** ** Facts about the invariant *)

Lemma unique_row (db : Database) (a b : Contact.t) :
  uniqueIds db -> In a (rows db) -> In b (rows db) ->
  Contact.id a = Contact.id b -> a = b.
Proof.
  unfold uniqueIds. induction (rows db) as [|x t IH]; simpl; intros Hnd Ha Hb Hid.
  - destruct Ha.
  - inversion Hnd as [|? ? Hx Ht]; subst.
    destruct Ha as [<-|Ha], Hb as [<-|Hb]; auto.
    + elim Hx. rewrite Hid. now apply in_map.
    + elim Hx. rewrite <- Hid. now apply in_map.
Qed.



(** *** Insertions *)

Lemma wellLinked_insert_primary (clk : Clock) (request : IdentifyRequest.t)
  (db : Database) :
  wellLinked db -> wellLinked (inserted clk (primaryData request) db).
Proof.
  intros (Hu & Hp & Hs). split; [|split].
  - unfold uniqueIds. cbn [inserted rows]. rewrite map_app.
    apply NoDup_app; [exact Hu | repeat constructor; intros [] |].
    intros a Ha [Hb|[]]. cbn in Hb. subst a. now apply nextId_not_in in Ha.
  - intros c Hc Hlive Hprim. cbn [inserted rows] in Hc.
    apply in_app_or in Hc. destruct Hc as [Hc|[<-|[]]]; [now apply Hp | reflexivity].
  - intros c Hc Hlive Hsec. cbn [inserted rows] in Hc.
    apply in_app_or in Hc. destruct Hc as [Hc|[<-|[]]]; [|discriminate].
    destruct (Hs c Hc Hlive Hsec) as (p & Hpin & H).
    exists p. split; [|exact H]. cbn [inserted rows]. apply in_or_app. now left.
Qed.

Lemma wellLinked_insert_secondary (clk : Clock) (request : IdentifyRequest.t)
  (db : Database) (target : Z) :
  wellLinked db ->
  (exists p, In p (rows db) /\ live p = true /\ isPrimary p = true /\
             Contact.id p = target) ->
  wellLinked (inserted clk (secondaryData request target) db).
Proof.
  intros (Hu & Hp & Hs) (p & Hpin & Hplive & Hpprim & Hpid). split; [|split].
  - unfold uniqueIds. cbn [inserted rows]. rewrite map_app.
    apply NoDup_app; [exact Hu | repeat constructor; intros [] |].
    intros a Ha [Hb|[]]. cbn in Hb. subst a. now apply nextId_not_in in Ha.
  - intros c Hc Hlive Hprim. cbn [inserted rows] in Hc.
    apply in_app_or in Hc. destruct Hc as [Hc|[<-|[]]]; [now apply Hp | discriminate].
  - intros c Hc Hlive Hsec. cbn [inserted rows] in Hc.
    apply in_app_or in Hc. destruct Hc as [Hc|[<-|[]]].
    + destruct (Hs c Hc Hlive Hsec) as (q & Hqin & H).
      exists q. split; [|exact H]. cbn [inserted rows]. apply in_or_app. now left.
    + exists p. split; [cbn [inserted rows]; apply in_or_app; now left|].
      repeat split; try assumption. cbn. now rewrite Hpid.
Qed.

(** Under the invariant a governing id is the identifier of a primary. *)
Lemma governing_is_primary (request : IdentifyRequest.t) (db : Database) (x : Z) :
  wellLinked db ->
  In x (governingIds request db) ->
  exists p, In p (rows db) /\ live p = true /\ isPrimary p = true /\
            Contact.id p = x.
Proof.
  intros (_ & _ & Hs) Hx. unfold governingIds in Hx.
  apply allPrimaryIdsOf_In in Hx.
  destruct Hx as [(c & Hc & Hp & Hid)|(c & Hc & Hsec & Hl)];
    apply candidates_In in Hc; destruct Hc as [Hin Hlive].
  - exists c. auto.
  - destruct (Hs c Hin Hlive Hsec) as (p & Hpin & Hplive & Hpp & Hpl).
    exists p. repeat split; try assumption. congruence.
Qed.

(** Under the invariant the members fetched for the governing ids hold a
    primary, so that a matched observation has a target. *)
Lemma wellLinked_fetched_primary (request : IdentifyRequest.t) (db : Database) :
  wellLinked db ->
  governingIds request db <> [] ->
  filter isPrimary (fetchedMembers (governingIds request db) db) <> [].
Proof.
  intros Hw Hg.
  destruct (governingIds request db) as [|x rest] eqn:Eg; [now elim Hg|].
  destruct (governing_is_primary request db x Hw) as (p & Hp & Hlive & Hprim & Hid);
    [rewrite Eg; now left|].
  assert (Hin : In p (filter isPrimary (fetchedMembers (x :: rest) db))).
  { apply filter_In. split; [|exact Hprim].
    apply fetchedMembers_In. exists x. split; [now left|].
    apply membersOf_In. repeat split; try assumption.
    unfold linkedTo. now rewrite Hid, Z.eqb_refl. }
  intro H. rewrite H in Hin. destruct Hin.
Qed.

Lemma wellLinked_governingTarget (request : IdentifyRequest.t) (db : Database) :
  wellLinked db ->
  governingIds request db <> [] ->
  exists target, governingTarget request db = Some target.
Proof.
  intros Hw Hg. pose proof (wellLinked_fetched_primary request db Hw Hg) as Hp.
  unfold governingTarget.
  destruct (governingIds request db) as [|p [|q rest]]; [now elim Hg | eauto |].
  destruct (oldestOf_some _ Hp) as (survivor & ->). simpl. eauto.
Qed.

(** *** The merge *)

Lemma fetchedMembers_rows (primaryIds : list Z) (db : Database) (c : Contact.t) :
  In c (fetchedMembers primaryIds db) ->
  In c (rows db) /\ live c = true /\
  exists pid, In pid primaryIds /\ linkedTo pid c = true.
Proof.
  intro H. apply fetchedMembers_In in H. destruct H as (pid & Hpid & Hc).
  apply membersOf_In in Hc. destruct Hc as (Hin & Hlive & Hl). eauto.
Qed.

Lemma afterDemote_ids (oid : Z) (all : list Contact.t) (c : Contact.t) :
  In c (afterDemote oid all) ->
  exists c0, In c0 all /\ Contact.id c = Contact.id c0 /\
             (c = c0 \/ (isPrimary c0 = true /\ isOther oid c0 = true)).
Proof.
  unfold afterDemote. rewrite in_map_iff. intros (c0 & <- & Hin).
  exists c0. split; [exact Hin|]. unfold visit.
  destruct (isPrimary c0); [|auto].
  destruct (isOther oid c0); [|auto]. split; [reflexivity | now right].
Qed.

Lemma mergedRow_outside (clk : Clock) (oid : Z) (all : list Contact.t)
  (r : Contact.t) :
  (forall c, In c all -> Contact.id c <> Contact.id r) ->
  mergedRow clk oid all r = r.
Proof.
  intro Hout. unfold mergedRow, rowAfterDemote.
  assert (E1 : existsb (fun c => isPrimary c && isOther oid c &&
                                (Contact.id c =? Contact.id r)) all = false).
  { destruct (existsb _ all) eqn:E; [|reflexivity].
    apply existsb_exists in E. destruct E as (c & Hc & H).
    apply andb_prop in H. destruct H as [_ H]. apply Z.eqb_eq in H.
    now apply Hout in Hc. }
  rewrite E1. unfold rowAfterRelink.
  assert (E2 : existsb (fun c => isSecondary c && linkedElsewhere oid c &&
                                (Contact.id c =? Contact.id r))
                       (afterDemote oid all) = false).
  { destruct (existsb _ (afterDemote oid all)) eqn:E; [|reflexivity].
    apply existsb_exists in E. destruct E as (c & Hc & H).
    apply andb_prop in H. destruct H as [_ H]. apply Z.eqb_eq in H.
    apply afterDemote_ids in Hc. destruct Hc as (c0 & Hc0 & Hid & _).
    apply Hout in Hc0. congruence. }
  now rewrite E2.
Qed.

Lemma member_or_outside (primaryIds : list Z) (db : Database) (r : Contact.t) :
  uniqueIds db -> In r (rows db) ->
  In r (fetchedMembers primaryIds db) \/
  (forall c, In c (fetchedMembers primaryIds db) -> Contact.id c <> Contact.id r).
Proof.
  intros Hu Hr.
  destruct (existsb (fun c => Contact.id c =? Contact.id r)
                    (fetchedMembers primaryIds db)) eqn:E.
  - left. apply existsb_exists in E. destruct E as (c & Hc & Hid).
    apply Z.eqb_eq in Hid.
    destruct (fetchedMembers_rows _ _ _ Hc) as (Hcin & _).
    now rewrite <- (unique_row db c r Hu Hcin Hr Hid).
  - right. intros c Hc Hid.
    assert (existsb (fun c => Contact.id c =? Contact.id r)
                    (fetchedMembers primaryIds db) = true); [|congruence].
    apply (existsb_witness _ _ c Hc). now apply Z.eqb_eq.
Qed.

(** Under unique identifiers the row of the survivor is not rewritten. *)
Lemma mergedRow_survivor_same (clk : Clock) (primaryIds : list Z) (db : Database)
  (oid : Z) (r : Contact.t) :
  uniqueIds db ->
  In r (fetchedMembers primaryIds db) -> isPrimary r = true -> Contact.id r = oid ->
  mergedRow clk oid (fetchedMembers primaryIds db) r = r.
Proof.
  intros Hu Hin Hp Hid. unfold mergedRow, rowAfterDemote.
  destruct (fetchedMembers_rows _ _ _ Hin) as (Hrin & _).
  assert (E1 : existsb (fun c => isPrimary c && isOther oid c &&
                                (Contact.id c =? Contact.id r))
                       (fetchedMembers primaryIds db) = false).
  { destruct (existsb _ _) eqn:E; [|reflexivity].
    apply existsb_exists in E. destruct E as (c & _ & H).
    apply andb_prop in H. destruct H as [H Hc]. apply andb_prop in H.
    destruct H as [_ Ho]. unfold isOther in Ho.
    apply Z.eqb_eq in Hc. rewrite Hc, Hid, Z.eqb_refl in Ho. discriminate. }
  rewrite E1. unfold rowAfterRelink.
  assert (E2 : existsb (fun c => isSecondary c && linkedElsewhere oid c &&
                                (Contact.id c =? Contact.id r))
                       (afterDemote oid (fetchedMembers primaryIds db)) = false).
  { destruct (existsb _ (afterDemote oid _)) eqn:E; [|reflexivity].
    apply existsb_exists in E. destruct E as (c & Hc & H).
    apply andb_prop in H. destruct H as [H Hcid]. apply andb_prop in H.
    destruct H as [Hsec _]. apply Z.eqb_eq in Hcid.
    apply afterDemote_ids in Hc. destruct Hc as (c0 & Hc0 & Hid0 & Hsame).
    destruct (fetchedMembers_rows _ _ _ Hc0) as (Hc0in & _).
    assert (c0 = r) by (eapply unique_row; eauto; congruence). subst c0.
    destruct Hsame as [->|[_ Ho]].
    - rewrite isSecondary_negb, Hp in Hsec. discriminate.
    - unfold isOther in Ho. rewrite Hid, Z.eqb_refl in Ho. discriminate. }
  now rewrite E2.
Qed.

(** The rows after the two loops satisfy the invariant, and the survivor
    is among them, a primary still. *)
Lemma wellLinked_merge (clk : Clock) (primaryIds : list Z) (db dbm : Database)
  (survivor : Contact.t) :
  wellLinked db ->
  oldestOf (fetchedMembers primaryIds db) = Some survivor ->
  rows dbm = map (mergedRow clk (Contact.id survivor) (fetchedMembers primaryIds db))
                 (rows db) ->
  wellLinked dbm /\ In survivor (rows dbm).
Proof.
  intros (Hu & Hp & Hs) Eo Hrows.
  destruct (oldestOf_In _ _ Eo) as [Hsin Hsp].
  destruct (fetchedMembers_rows _ _ _ Hsin) as (Hsrow & Hslive & _).
  assert (Hsame : mergedRow clk (Contact.id survivor) (fetchedMembers primaryIds db) survivor = survivor)
    by (now apply mergedRow_survivor_same).
  assert (Hsm : In survivor (rows dbm)).
  { rewrite Hrows. apply in_map_iff. exists survivor. auto. }
  split; [|exact Hsm]. split; [|split].
  - unfold uniqueIds. rewrite Hrows, map_map.
    rewrite (map_ext _ Contact.id); [exact Hu|]. intro. apply mergedRow_id.
  - intros c' Hc' Hlive Hprim. rewrite Hrows in Hc'.
    apply in_map_iff in Hc'. destruct Hc' as (r & <- & Hr).
    destruct (member_or_outside primaryIds db r Hu Hr) as [Hin|Hout].
    + destruct (precedence_cases r) as [(Hrp & _ & _)|(_ & Hrs & _)].
      * destruct (Z.eq_dec (Contact.id r) (Contact.id survivor)) as [Hid|Hne].
        -- rewrite (mergedRow_survivor_same clk primaryIds db (Contact.id survivor) r Hu Hin Hrp Hid) in *.
           now apply Hp.
        -- destruct (mergedRow_other_primary clk (Contact.id survivor) (fetchedMembers primaryIds db) r Hin Hrp Hne) as [H _].
           unfold isPrimary in Hprim. rewrite H in Hprim.
           discriminate.
      * destruct (mergedRow_secondary clk (Contact.id survivor) (fetchedMembers primaryIds db) r Hin Hrs) as [H _].
        unfold isPrimary in Hprim. rewrite H in Hprim. discriminate.
    + rewrite (mergedRow_outside clk (Contact.id survivor) (fetchedMembers primaryIds db) r Hout) in *. now apply Hp.
  - intros c' Hc' Hlive Hsec. rewrite Hrows in Hc'.
    apply in_map_iff in Hc'. destruct Hc' as (r & <- & Hr).
    destruct (member_or_outside primaryIds db r Hu Hr) as [Hin|Hout].
    + exists survivor. split; [exact Hsm|]. split; [exact Hslive|].
      split; [exact Hsp|].
      destruct (precedence_cases r) as [(Hrp & _ & _)|(_ & Hrs & _)].
      * destruct (Z.eq_dec (Contact.id r) (Contact.id survivor)) as [Hid|Hne].
        -- rewrite (mergedRow_survivor_same clk primaryIds db (Contact.id survivor) r Hu Hin Hrp Hid) in *.
           rewrite isSecondary_negb, Hrp in Hsec. discriminate.
        -- now destruct (mergedRow_other_primary clk (Contact.id survivor) (fetchedMembers primaryIds db) r Hin Hrp Hne).
      * now destruct (mergedRow_secondary clk (Contact.id survivor) (fetchedMembers primaryIds db) r Hin Hrs).
    + rewrite (mergedRow_outside clk (Contact.id survivor) (fetchedMembers primaryIds db) r Hout) in *.
      destruct (Hs r Hr Hlive Hsec) as (p & Hpin & Hplive & Hpp & Hpl).
      exists p. split; [|auto].
      rewrite Hrows. apply in_map_iff. exists p. split; [|exact Hpin].
      apply mergedRow_outside. intros c Hc Hid.
      destruct (fetchedMembers_rows _ _ _ Hc) as (Hcin & Hclive & pid & Hpid & Hl).
      assert (c = p) by (eapply unique_row; eauto). subst c.
      assert (Hpidp : Contact.id p = pid).
      { unfold linkedTo in Hl. rewrite (Hp p Hpin Hplive Hpp) in Hl.
        rewrite orb_false_r in Hl. now apply Z.eqb_eq. }
      apply (Hout r); [|reflexivity].
      apply fetchedMembers_In. exists pid. split; [exact Hpid|].
      apply membersOf_In. repeat split; try assumption.
      unfold linkedTo. rewrite Hpl, Hpidp, Z.eqb_refl. apply orb_true_r.
Qed.

(* ================================================================== *)
(** ** The merge of identities *)

(** [C1] An observation with two governing primary ids or more merges
    the identities. Among the primaries of the fetched members the one
    with the earliest createdAt survives; every other primary of the
    fetched members becomes a secondary linked to the survivor, and every
    secondary of the fetched members is linked to the survivor afterwards,
    so that no member points to a secondary. (That the fetched members
    hold a primary is what the invariant of the store provides.) *)
Theorem merge_folds_identities_into_oldest
  (clk : Clock) (request : IdentifyRequest.t) (db : Database) :
  healthy db ->
  (2 <= List.length (governingIds request db))%nat ->
  filter isPrimary (fetchedMembers (governingIds request db) db) <> [] ->
  mergedIntoOldest db (fst (identify clk request db))
                   (fetchedMembers (governingIds request db) db)
                   (snd (identify clk request db)).
Proof.
  intros Hh Hlen Hprim.
  destruct (oldestOf_some _ Hprim) as (survivor & Eo).
  destruct (merge_outcome clk request db survivor Hh Hlen Eo)
    as (created & view & Hrows & Hcreated & Hview & Hpid).
  destruct (oldestOf_In _ _ Eo) as [Hin Hp].
  destruct (oldestOf_first_earliest _ _ Eo) as (before & after & Hall & _ & Hb & Ha).
  exists survivor,
         (mergedRow clk (Contact.id survivor)
                    (fetchedMembers (governingIds request db) db)),
         created, view.
  split; [exact Hin|]. split; [exact Hp|]. split.
  { intros p Hpin Hpp. rewrite Hall in Hpin.
    apply in_app_or in Hpin. destruct Hpin as [H|[<-|H]].
    - specialize (Hb p H Hpp). lia.
    - lia.
    - now apply Ha. }
  split; [exact Hrows|]. split.
  { intros r _ Hr Hid. rewrite mergedRow_survivor by exact Hid.
    destruct (precedence_cases r) as [(_ & _ & H)|(H & _ & _)]; [exact H | congruence]. }
  split; [intros; now apply mergedRow_other_primary|].
  split; [intros; now apply mergedRow_secondary|].
  split; [intro; apply mergedRow_fields|].
  split.
  { intros Hu r Hr Hout.
    destruct (member_or_outside (governingIds request db) db r Hu Hr) as [H|H];
      [contradiction | now apply mergedRow_outside]. }
  split; [|split; assumption].
  intros c Hc. destruct Hcreated as [->|(dbm & _ & ->)]; [destruct Hc|].
  destruct Hc as [<-|[]]. split; reflexivity.
Qed.

Lemma merge_folds_identities_into_oldest_witness :
  let clk := mkClock 400 400 in
  let request := IdentifyRequest.mk (Some "george@x"%string) (Some "717171"%string) in
  healthy georgeBiffStore /\
  (2 <= List.length (governingIds request georgeBiffStore))%nat /\
  filter isPrimary (fetchedMembers (governingIds request georgeBiffStore)
                                   georgeBiffStore) <> [] /\
  mergedIntoOldest georgeBiffStore (fst (identify clk request georgeBiffStore))
                   (fetchedMembers (governingIds request georgeBiffStore)
                                   georgeBiffStore)
                   (snd (identify clk request georgeBiffStore)).
Proof.
  intros clk request.
  split; [reflexivity|]. split; [vm_compute; lia|]. split; [vm_compute; discriminate|].
  apply (merge_folds_identities_into_oldest clk request georgeBiffStore);
    [reflexivity | vm_compute; lia | vm_compute; discriminate].
Defined.

(** [C7, as amended] In a merge the primaries are compared by createdAt
    only. When several primaries share the earliest createdAt, the one
    that was fetched first survives: the groups are fetched in the order
    of the governing ids and each group in the createdAt order of the
    store. Identifiers are not compared. *)
Theorem merge_tie_goes_to_first_fetched
  (clk : Clock) (request : IdentifyRequest.t) (db : Database) :
  healthy db ->
  (2 <= List.length (governingIds request db))%nat ->
  filter isPrimary (fetchedMembers (governingIds request db) db) <> [] ->
  firstEarliestSurvives db (fst (identify clk request db))
                        (fetchedMembers (governingIds request db) db)
                        (snd (identify clk request db)).
Proof.
  intros Hh Hlen Hprim.
  destruct (oldestOf_some _ Hprim) as (survivor & Eo).
  destruct (merge_outcome clk request db survivor Hh Hlen Eo)
    as (created & view & Hrows & _ & Hview & Hpid).
  destruct (oldestOf_first_earliest _ _ Eo) as (before & after & Hall & Hp & Hb & Ha).
  exists before, survivor, after, view,
         (mergedRow clk (Contact.id survivor)
                    (fetchedMembers (governingIds request db) db)),
         created.
  repeat (split; [assumption|]). split.
  - intros r Hid. now apply mergedRow_survivor.
  - intros r Hin Hne.
    destruct (precedence_cases r) as [(H & _ & _)|(_ & H & _)].
    + now apply mergedRow_other_primary.
    + now apply mergedRow_secondary.
Qed.

Lemma merge_tie_goes_to_first_fetched_witness :
  let clk := mkClock 300 300 in
  let request := IdentifyRequest.mk (Some "b@x"%string) (Some "333333"%string) in
  healthy tieStore /\
  (2 <= List.length (governingIds request tieStore))%nat /\
  filter isPrimary (fetchedMembers (governingIds request tieStore) tieStore) <> [] /\
  firstEarliestSurvives tieStore (fst (identify clk request tieStore))
                        (fetchedMembers (governingIds request tieStore) tieStore)
                        (snd (identify clk request tieStore)).
Proof.
  intros clk request.
  split; [reflexivity|]. split; [vm_compute; lia|]. split; [vm_compute; discriminate|].
  apply (merge_tie_goes_to_first_fetched clk request tieStore);
    [reflexivity | vm_compute; lia | vm_compute; discriminate].
Defined.

(** The claim of a tie broken by the smallest identifier fails on
    [tieStore]: the primaries 1 and 2 share the earliest createdAt, the
    observation reaches 2 directly and 1 through its secondary 3, and the
    primary 2 survives while 1 becomes its secondary. *)
Lemma merge_tie_keeps_larger_id :
  let clk := mkClock 300 300 in
  let request := IdentifyRequest.mk (Some "b@x"%string) (Some "333333"%string) in
  map (fun c => (Contact.id c, Contact.linkPrecedence c, Contact.createdAt c))
      (rows tieStore)
    = [(1, Primary, 100); (2, Primary, 100); (3, Secondary, 200)] /\
  governingIds request tieStore = [2; 1] /\
  option_map primaryContactId
    (match snd (identify clk request tieStore) with
     | Resolved view => Some view
     | Rejected _ => None
     end) = Some 2 /\
  map (fun c => (Contact.id c, Contact.linkPrecedence c, Contact.linkedId c))
      (rows (fst (identify clk request tieStore)))
    = [(1, Secondary, Some 2); (2, Primary, None); (3, Secondary, Some 2)].
Proof. vm_compute. repeat split; reflexivity. Qed.

(* ================================================================== *)
(** ** The invariant along the calls *)

(** One call keeps the invariant, and the store keeps answering. *)
Lemma identify_preserves (clk : Clock) (request : IdentifyRequest.t) (db : Database) :
  wellLinked db -> healthy db ->
  wellLinked (fst (identify clk request db)) /\
  healthy (fst (identify clk request db)).
Proof.
  intros Hw Hh.
  destruct (candidates request db) as [|c0 cs] eqn:Ec.
  - rewrite (identify_no_match clk request db Hh Ec). cbn [fst].
    split; [now apply wellLinked_insert_primary | exact Hh].
  - assert (Hc : candidates request db <> []) by (rewrite Ec; discriminate).
    rewrite (identify_matched clk request db Hh Hc).
    destruct (governingIds request db) as [|p [|q rest]] eqn:Eg.
    + split; assumption.
    + destruct (needsNewSecondaryContact _ _ _); cbn [fst]; [|split; assumption].
      split; [|exact Hh]. apply wellLinked_insert_secondary; [exact Hw|].
      apply (governing_is_primary request db p Hw). rewrite Eg. now left.
    + set (pids := p :: q :: rest) in *.
      destruct (oldestOf (fetchedMembers pids db)) as [survivor|] eqn:Eo.
      * destruct (mergePrimaryContacts_healthy clk pids request db survivor Hh Eo)
          as (dbm & Hhm & _ & Hrows & _ & Hm).
        destruct (wellLinked_merge clk pids db dbm survivor Hw Eo Hrows) as [Hwm Hsm].
        rewrite Hm.
        destruct (needsNewSecondaryContact _ _ _); cbn [fst]; [|split; assumption].
        split; [|exact Hhm]. apply wellLinked_insert_secondary; [exact Hwm|].
        destruct (oldestOf_In _ _ Eo) as [Hsin Hsp].
        destruct (fetchedMembers_rows _ _ _ Hsin) as (_ & Hslive & _).
        exists survivor. auto.
      * rewrite (mergePrimaryContacts_no_primary clk pids _ _ db Hh Eo).
        split; assumption.
Qed.

Lemma afterCalls_preserves (calls : list (Clock * IdentifyRequest.t)) (db : Database) :
  wellLinked db -> healthy db ->
  wellLinked (afterCalls calls db) /\ healthy (afterCalls calls db).
Proof.
  revert db. induction calls as [|[clk request] t IH]; intros db Hw Hh.
  - split; assumption.
  - destruct (identify_preserves clk request db Hw Hh) as [Hw' Hh'].
    exact (IH _ Hw' Hh').
Qed.

Lemma wellLinked_emptyStore : wellLinked emptyStore.
Proof.
  split; [constructor|]. split; intros c [].
Qed.

(** The row that a call inserts has the exact pair of the observation. *)
Lemma inserted_storedExactPair (clk : Clock) (request : IdentifyRequest.t)
  (db : Database) (data : CreateContactData.t) :
  Js.truthy (IdentifyRequest.email request) ||
  Js.truthy (IdentifyRequest.phoneNumber request) = true ->
  CreateContactData.email data = Js.orNull (IdentifyRequest.email request) ->
  CreateContactData.phoneNumber data
    = Js.orNull (IdentifyRequest.phoneNumber request) ->
  CreateContactData.linkPrecedence data = Primary \/
  CreateContactData.linkedId data <> None ->
  storedExactPair request (inserted clk data db).
Proof.
  intros Htr He Hp Hl. split; [exact Htr|].
  exists (createdRow clk data db).
  split; [cbn [inserted rows]; apply in_or_app; right; now left|].
  split; [reflexivity|]. split; [|split; [exact He | exact Hp]].
  destruct Hl as [Hl|Hl]; [left | right; exact Hl].
  unfold isPrimary. cbn. now rewrite Hl.
Qed.

(** Idempotence: after a call, the same observation creates no record. *)
Lemma second_call_creates_no_record (clk1 clk2 : Clock)
  (request : IdentifyRequest.t) (db : Database) :
  wellLinked db -> healthy db ->
  Js.truthy (IdentifyRequest.email request) ||
  Js.truthy (IdentifyRequest.phoneNumber request) = true ->
  createsNoRecord (fst (identify clk1 request db))
                  (fst (identify clk2 request (fst (identify clk1 request db)))).
Proof.
  intros Hw Hh Htr.
  destruct (candidates request db) as [|c0 cs] eqn:Ec.
  - (* a primary was created *)
    rewrite (identify_no_match clk1 request db Hh Ec). cbn [fst].
    apply exact_member_no_record; [exact Hh|].
    apply storedExactPair_member, inserted_storedExactPair; auto.
  - assert (Hc : candidates request db <> []) by (rewrite Ec; discriminate).
    rewrite (identify_matched clk1 request db Hh Hc).
    destruct (governingIds request db) as [|p [|q rest]] eqn:Eg.
    + cbn [fst]. rewrite (identify_matched clk2 request db Hh Hc), Eg.
      apply createsNoRecord_refl.
    + destruct (needsNewSecondaryContact (membersOf p db) _ _) eqn:En; cbn [fst].
      * apply exact_member_no_record; [exact Hh|].
        apply storedExactPair_member, inserted_storedExactPair; auto.
        right. discriminate.
      * rewrite (identify_matched clk2 request db Hh Hc), Eg, En.
        apply createsNoRecord_refl.
    + set (pids := p :: q :: rest) in *.
      destruct (oldestOf (fetchedMembers pids db)) as [survivor|] eqn:Eo.
      * destruct (mergePrimaryContacts_healthy clk1 pids request db survivor Hh Eo)
          as (dbm & Hhm & _ & Hrows & _ & Hm).
        destruct (wellLinked_merge clk1 pids db dbm survivor Hw Eo Hrows)
          as [(_ & _ & Hsm) _].
        rewrite Hm.
        destruct (needsNewSecondaryContact
                    (mergedObjects (Contact.id survivor) (fetchedMembers pids db))
                    _ _) eqn:En; cbn [fst].
        -- apply exact_member_no_record; [exact Hhm|].
           apply storedExactPair_member, inserted_storedExactPair; auto.
           right. discriminate.
        -- rewrite needsNew_merged in En.
           destruct (needsNew_false_met _ _ En) as [Hme Hmp].
           assert (Hmet : forall (field : Contact.t -> option string) c v,
                     (forall r, field (mergedRow clk1 (Contact.id survivor)
                                         (fetchedMembers pids db) r) = field r) ->
                     In c (fetchedMembers pids db) -> field c = Some v ->
                     exists c', In c' (rows dbm) /\ live c' = true /\
                                (isPrimary c' = true \/ Contact.linkedId c' <> None) /\
                                field c' = Some v).
           { intros field c v Hfield Hcin Hf.
             destruct (fetchedMembers_rows _ _ _ Hcin) as (Hcrow & Hclive & _).
             set (c' := mergedRow clk1 (Contact.id survivor) (fetchedMembers pids db) c).
             assert (Hc' : In c' (rows dbm)).
             { rewrite Hrows. apply in_map_iff. exists c. auto. }
             assert (Hlive' : live c' = true).
             { unfold live, c'.
               destruct (mergedRow_fields clk1 (Contact.id survivor)
                           (fetchedMembers pids db) c) as (_ & _ & _ & _ & ->).
               exact Hclive. }
             exists c'. split; [exact Hc'|]. split; [exact Hlive'|].
             split; [|unfold c'; now rewrite Hfield].
             destruct (precedence_cases c') as [(H & _ & _)|(_ & H & _)]; [now left|].
             right. destruct (Hsm c' Hc' Hlive' H) as (q0 & _ & _ & _ & ->).
             discriminate. }
           apply valuesMet_no_record; [exact Hhm|].
           split; [exact Htr|]. split; intros v Hv.
           ++ destruct (Hme v Hv) as (c & Hcin & Hf).
              apply (Hmet Contact.email c v); auto.
              intro r. now destruct (mergedRow_fields clk1 (Contact.id survivor)
                                       (fetchedMembers pids db) r) as (_ & -> & _).
           ++ destruct (Hmp v Hv) as (c & Hcin & Hf).
              apply (Hmet Contact.phoneNumber c v); auto.
              intro r. now destruct (mergedRow_fields clk1 (Contact.id survivor)
                                       (fetchedMembers pids db) r) as (_ & _ & -> & _).
      * rewrite (mergePrimaryContacts_no_primary clk1 pids _ _ db Hh Eo). cbn [fst].
        rewrite (identify_matched clk2 request db Hh Hc), Eg. unfold pids.
        fold pids. rewrite (mergePrimaryContacts_no_primary clk2 pids _ _ db Hh Eo).
        apply createsNoRecord_refl.
Qed.

(** [C6] Identify is idempotent on exact pairs. An observation whose
    exact pair is on a member of the matched identity creates no record;
    so does an observation that gives a value and whose exact pair is on a
    stored record (not removed, and linked if it is a secondary); and on a
    store that satisfies the invariant, an observation that gives a value
    creates no record when it is submitted a second time. *)
Theorem exact_pair_creates_no_record
  (clk : Clock) (request : IdentifyRequest.t) (db : Database) :
  healthy db ->
  (hasExactPair (fetchedMembers (governingIds request db) db) request ->
   createsNoRecord db (fst (identify clk request db))) /\
  (storedExactPair request db ->
   createsNoRecord db (fst (identify clk request db))) /\
  (wellLinked db ->
   Js.truthy (IdentifyRequest.email request) ||
   Js.truthy (IdentifyRequest.phoneNumber request) = true ->
   forall clk2,
     createsNoRecord (fst (identify clk request db))
                     (fst (identify clk2 request (fst (identify clk request db))))).
Proof.
  intro Hh. split; [|split].
  - intro H. now apply exact_member_no_record.
  - intro H. now apply exact_member_no_record, storedExactPair_member.
  - intros Hw Htr clk2. now apply second_call_creates_no_record.
Qed.

(** The theorem on the store of lorraine and mcfly, at the pair of mcfly's
    record. *)
Lemma exact_pair_creates_no_record_witness :
  let clk := mkClock 300 300 in
  let clk2 := mkClock 400 400 in
  let request := IdentifyRequest.mk (Some "mcfly@x"%string) (Some "123"%string) in
  healthy lorraineStore /\
  storedExactPair request lorraineStore /\
  wellLinked lorraineStore /\
  createsNoRecord lorraineStore (fst (identify clk request lorraineStore)) /\
  createsNoRecord (fst (identify clk request lorraineStore))
                  (fst (identify clk2 request
                                 (fst (identify clk request lorraineStore)))).
Proof.
  intros clk clk2 request.
  assert (Hs : storedExactPair request lorraineStore).
  { split; [reflexivity|].
    exists (Contact.mk 2 (Some "123"%string) (Some "mcfly@x"%string) (Some 1)
                       Secondary 200 200 None).
    repeat split; try reflexivity.
    - right. now left.
    - right. discriminate. }
  assert (Hw : wellLinked lorraineStore).
  { apply afterCalls_preserves; [exact wellLinked_emptyStore | reflexivity]. }
  destruct (exact_pair_creates_no_record clk request lorraineStore eq_refl)
    as (_ & Hstored & Hsecond).
  split; [reflexivity|]. split; [exact Hs|]. split; [exact Hw|].
  split; [exact (Hstored Hs) | exact (Hsecond Hw eq_refl clk2)].
Defined.





(* ================================================================== *)
(** ** Writes are not undone *)

Lemma execute_stored (clk : Clock) (cmd : Command) (a b : Database) :
  stored a = stored b -> stored (execute clk a cmd) = stored (execute clk b cmd).
Proof.
  unfold stored. intros [= Hr Hs Hj].
  destruct cmd; cbn [execute inserted updated rows sequence journal];
    unfold createdRow, nextId; now rewrite Hr, Hs, Hj.
Qed.

Lemma replay_stored (clk : Clock) (cmds : list Command) (a b : Database) :
  stored a = stored b -> stored (replay clk cmds a) = stored (replay clk cmds b).
Proof.
  revert a b. unfold replay. induction cmds as [|c t IH]; simpl; intros a b H;
    [exact H|].
  apply IH. now apply execute_stored.
Qed.

Lemma replay_journal (clk : Clock) (cmds : list Command) (db : Database) :
  journal (replay clk cmds db) = journal db ++ cmds.
Proof.
  revert db. unfold replay. induction cmds as [|c t IH]; simpl; intro db.
  - now rewrite app_nil_r.
  - rewrite IH. destruct c; simpl; now rewrite <- app_assoc.
Qed.

Section Persistence.
Variable clk : Clock.

Lemma persists_ret {A : Type} (a : A) : persists clk (ret a).
Proof. intro db. now exists []. Qed.

Lemma persists_throw {A : Type} (e : Error) : persists clk (@throw A e).
Proof. intro db. now exists []. Qed.

Lemma persists_settle {A : Type} (o : Outcome A) : persists clk (settle o).
Proof. intro db. now exists []. Qed.

Lemma persists_bind {A B : Type} (m : Async A) (k : A -> Async B) :
  persists clk m -> (forall a, persists clk (k a)) -> persists clk (bind m k).
Proof.
  intros Hm Hk db. destruct (Hm db) as (c1 & H1). unfold bind.
  destruct (m db) as [db1 [a|e]]; cbn [fst] in *.
  - destruct (Hk a db1) as (c2 & H2). exists (c1 ++ c2).
    rewrite H2. unfold replay. rewrite fold_left_app.
    now apply replay_stored.
  - now exists c1.
Qed.

Lemma persists_statement : persists clk statement.
Proof.
  intro db. exists []. unfold statement.
  destruct (faultAt db) as [[|n]|]; reflexivity.
Qed.

Lemma persists_selectWhere (cond : Contact.t -> bool) :
  persists clk (selectWhere cond).
Proof.
  apply persists_bind; [apply persists_statement|].
  intros _ db. now exists [].
Qed.

Lemma persists_findContactsByEmailOrPhone (email phoneNumber : option string) :
  persists clk (findContactsByEmailOrPhone email phoneNumber).
Proof.
  unfold findContactsByEmailOrPhone.
  destruct (whereEmailOrPhone email phoneNumber);
    [apply persists_selectWhere | apply persists_ret].
Qed.

Lemma persists_findAllLinkedContacts (primaryId : Z) :
  persists clk (findAllLinkedContacts primaryId).
Proof.
  apply persists_bind; [apply persists_selectWhere | intro; apply persists_ret].
Qed.

Lemma persists_promiseAll (primaryIds : list Z) :
  persists clk (promiseAll findAllLinkedContacts primaryIds).
Proof.
  induction primaryIds as [|p t IH]; simpl; [apply persists_ret|].
  apply persists_bind; [apply persists_findAllLinkedContacts|]. intro.
  apply persists_bind; [exact IH | intro; apply persists_ret].
Qed.

Lemma persists_createContact (data : CreateContactData.t) :
  persists clk (createContact clk data).
Proof.
  apply persists_bind; [apply persists_statement|].
  intros _ db. now exists [Insert data].
Qed.

Lemma persists_updateContact (target : Z) (updates : ContactUpdates.t) :
  persists clk (updateContact clk target updates).
Proof.
  apply persists_bind; [apply persists_statement|].
  intros _. destruct (noKey updates); [apply persists_throw|].
  intro db. now exists [Update target updates].
Qed.

Lemma persists_oldestPrimaryId (heap : list Contact.t) (oldest : option nat) :
  persists clk (oldestPrimaryId heap oldest).
Proof.
  unfold oldestPrimaryId. destruct oldest as [r|]; [|apply persists_throw].
  destruct (nth_error heap r); [apply persists_ret | apply persists_throw].
Qed.

Lemma persists_demoteOtherPrimaries (oldest : option nat) (refs : list nat)
  (heap : list Contact.t) :
  persists clk (demoteOtherPrimaries clk oldest refs heap).
Proof.
  revert heap. induction refs as [|r t IH]; intro heap; simpl; [apply persists_ret|].
  destruct (nth_error heap r) as [c|]; [|apply IH].
  apply persists_bind; [apply persists_oldestPrimaryId|]. intro oid.
  destruct (negb _); [|apply IH].
  apply persists_bind; [apply persists_updateContact | intro; apply IH].
Qed.

Lemma persists_relinkSecondaries (oldest : option nat) (refs : list nat)
  (heap : list Contact.t) :
  persists clk (relinkSecondaries clk oldest refs heap).
Proof.
  revert heap. induction refs as [|r t IH]; intro heap; simpl; [apply persists_ret|].
  destruct (nth_error heap r) as [c|]; [|apply IH].
  apply persists_bind; [apply persists_oldestPrimaryId|]. intro oid.
  destruct (negb _); [|apply IH].
  apply persists_bind; [apply persists_updateContact | intro; apply IH].
Qed.

Lemma persists_mergePrimaryContacts (primaryIds : list Z)
  (email phoneNumber : option string) :
  persists clk (mergePrimaryContacts clk primaryIds email phoneNumber).
Proof.
  unfold mergePrimaryContacts.
  apply persists_bind; [apply persists_promiseAll|]. intro groups.
  apply persists_bind; [apply persists_demoteOtherPrimaries|]. intro heap1.
  apply persists_bind; [apply persists_relinkSecondaries|]. intro heap2.
  destruct (needsNewSecondaryContact _ _ _); [|apply persists_settle].
  apply persists_bind; [apply persists_oldestPrimaryId|]. intro oid.
  apply persists_bind; [apply persists_createContact | intro; apply persists_settle].
Qed.

Lemma persists_identify (request : IdentifyRequest.t) :
  persists clk (identify clk request).
Proof.
  unfold identify.
  apply persists_bind; [apply persists_findContactsByEmailOrPhone|]. intro existing.
  destruct (List.length existing =? 0)%nat.
  - apply persists_bind; [apply persists_createContact | intro; apply persists_settle].
  - destruct (allPrimaryIdsOf existing) as [|p [|q rest]].
    + apply persists_throw.
    + apply persists_bind; [apply persists_findAllLinkedContacts|]. intro members.
      destruct (needsNewSecondaryContact _ _ _); [|apply persists_settle].
      apply persists_bind; [apply persists_createContact | intro; apply persists_settle].
    + apply persists_mergePrimaryContacts.
Qed.
End Persistence.

(** [C9, as amended] A call has no transactional boundary: every write
    that the store executes takes effect at once and none is undone.
    Whatever the outcome of the call, and whichever statement fails, the
    store after it is the store before it with the executed writes applied
    in order; they are the entries that the call adds to the journal. The
    store is unchanged by a failed call when the failure precedes the
    first write, as for candidates without a governing primary id. *)
Theorem identify_keeps_executed_writes
  (clk : Clock) (request : IdentifyRequest.t) (db : Database) :
  (exists executed,
     journal (fst (identify clk request db)) = journal db ++ executed /\
     rows (fst (identify clk request db)) = rows (replay clk executed db) /\
     sequence (fst (identify clk request db)) = sequence (replay clk executed db)) /\
  (healthy db -> noGoverningPrimary request db ->
   identify clk request db = (db, Rejected NoPrimaryContactsFound)).
Proof.
  split.
  - destruct (persists_identify clk request db) as (executed & H).
    exists executed. unfold stored in H. injection H as Hr Hs Hj.
    rewrite Hj, replay_journal. auto.
  - intros Hh [Hc Hg].
    now rewrite (identify_matched clk request db Hh Hc), Hg.
Qed.

(** The claim of atomicity fails on [georgeBiffStore] when the fifth
    statement of the merging call fails: the lookup, the two fetches and
    the update that demotes biff's primary 2 are executed, the update that
    relinks its secondary 3 is refused. The call is rejected, and the store
    keeps the demotion: 3 is left pointing to the secondary 2. *)
Lemma merge_failure_keeps_demotion :
  let clk := mkClock 400 400 in
  let request := IdentifyRequest.mk (Some "george@x"%string) (Some "717171"%string) in
  let db := withFault 4 georgeBiffStore in
  map (fun c => (Contact.id c, Contact.linkPrecedence c, Contact.linkedId c))
      (rows db)
    = [(1, Primary, None); (2, Primary, None); (3, Secondary, Some 2)] /\
  snd (identify clk request db) = Rejected StorageError /\
  map (fun c => (Contact.id c, Contact.linkPrecedence c, Contact.linkedId c))
      (rows (fst (identify clk request db)))
    = [(1, Primary, None); (2, Secondary, Some 1); (3, Secondary, Some 2)] /\
  rows (fst (identify clk request db)) <> rows db.
Proof.
  vm_compute. repeat split; try reflexivity. discriminate.
Qed.

(** A failure without any storage error leaves a write behind as well:
    on [orphanStore] the call inserts a secondary and is then rejected by
    the view assembly. *)
Lemma view_failure_keeps_insertion :
  let clk := mkClock 300 300 in
  let request := IdentifyRequest.mk (Some "mcfly@x"%string) (Some "999999"%string) in
  snd (identify clk request orphanStore) = Rejected NoPrimaryContactFound /\
  map Contact.id (rows (fst (identify clk request orphanStore))) = [1; 2; 3] /\
  map Contact.id (rows orphanStore) = [1; 2].
Proof. vm_compute. repeat split; reflexivity. Qed.

(* ================================================================== *)
(** ** Regular expressions *)

Lemma nullable_Matches (r : Regex.t) :
  Regex.nullable r = true <-> Matches r [].
Proof.
  split.
  - induction r; simpl; intro H; try discriminate.
    + constructor.
    + apply andb_true_iff in H as [H1 H2].
      change (@nil ascii) with (@nil ascii ++ []). constructor; auto.
    + apply orb_true_iff in H as [H|H]; [apply MatchesAltL | apply MatchesAltR]; auto.
    + constructor.
  - intro H. remember [] as s eqn:Hs. induction H; simpl; try reflexivity.
    + discriminate.
    + apply app_eq_nil in Hs as [-> ->]. now rewrite IHMatches1, IHMatches2.
    + now rewrite IHMatches.
    + rewrite IHMatches by assumption. apply orb_true_r.
Qed.

Lemma Matches_star_cons (r : Regex.t) (c : ascii) (s : list ascii) :
  Matches (Regex.Star r) (c :: s) ->
  exists s1 s2, s = s1 ++ s2 /\ Matches r (c :: s1) /\ Matches (Regex.Star r) s2.
Proof.
  intro H. remember (Regex.Star r) as r' eqn:Hr. remember (c :: s) as cs eqn:Hcs.
  induction H; try discriminate.
  injection Hr as ->. destruct s1 as [|a s1]; simpl in Hcs.
  - now apply IHMatches2.
  - injection Hcs as Ha Hs. subst. now exists s1, s2.
Qed.

Lemma derive_Matches (c : ascii) (r : Regex.t) (s : list ascii) :
  Matches (Regex.derive c r) s <-> Matches r (c :: s).
Proof.
  revert s. induction r as [| |p|r1 IH1 r2 IH2|r1 IH1 r2 IH2|r IH]; intro s; simpl.
  - split; intro H; inversion H.
  - split; intro H; inversion H.
  - destruct (p c) eqn:Hp; split; intro H; inversion H; subst.
    + now constructor.
    + constructor.
    + congruence.
  - assert (Hcat : Matches (Regex.Cat (Regex.derive c r1) r2) s <->
                   exists s1 s2, s = s1 ++ s2 /\ Matches r1 (c :: s1) /\ Matches r2 s2).
    { split.
      - intro H. inversion H; subst. exists s1, s2. now rewrite <- IH1.
      - intros (s1 & s2 & -> & H1 & H2). constructor; [now apply IH1 | exact H2]. }
    assert (Hsplit : Matches (Regex.Cat r1 r2) (c :: s) <->
                     (Matches r1 [] /\ Matches r2 (c :: s)) \/
                     exists s1 s2, s = s1 ++ s2 /\ Matches r1 (c :: s1) /\ Matches r2 s2).
    { split.
      - intro H. inversion H as [| |? ? s1 s2 H1 H2 Hr Hs| | | |]; subst.
        destruct s1 as [|a s1]; simpl in Hs.
        + left. subst. now split.
        + injection Hs as Ha Hs. subst. right. now exists s1, s2.
      - intros [[H1 H2]|(s1 & s2 & -> & H1 & H2)].
        + change (c :: s) with ([] ++ c :: s). now constructor.
        + change (c :: s1 ++ s2) with ((c :: s1) ++ s2). now constructor. }
    rewrite Hsplit. destruct (Regex.nullable r1) eqn:Hn.
    + split.
      * intro H. inversion H; subst.
        -- right. now apply Hcat.
        -- left. split; [now apply nullable_Matches | now apply IH2].
      * intros [[_ H2]|H].
        -- apply MatchesAltR. now apply IH2.
        -- apply MatchesAltL. now apply Hcat.
    + rewrite Hcat. split; [now right|].
      intros [[H1 _]|H]; [|exact H].
      apply nullable_Matches in H1. congruence.
  - split; intro H; inversion H; subst.
    + apply MatchesAltL. now apply IH1.
    + apply MatchesAltR. now apply IH2.
    + apply MatchesAltL. now apply IH1.
    + apply MatchesAltR. now apply IH2.
  - split.
    + intro H. inversion H; subst.
      change (c :: s1 ++ s2) with ((c :: s1) ++ s2).
      constructor; [now apply IH | assumption].
    + intro H. apply Matches_star_cons in H as (s1 & s2 & -> & H1 & H2).
      constructor; [now apply IH | exact H2].
Qed.

Lemma accepts_Matches (r : Regex.t) (s : list ascii) :
  Regex.accepts r s = true <-> Matches r s.
Proof.
  revert r. induction s as [|c s IH]; intro r; simpl.
  - apply nullable_Matches.
  - rewrite IH. apply derive_Matches.
Qed.

Lemma Matches_cat (r1 r2 : Regex.t) (s : list ascii) :
  Matches (Regex.Cat r1 r2) s <->
  exists s1 s2, s = s1 ++ s2 /\ Matches r1 s1 /\ Matches r2 s2.
Proof.
  split.
  - intro H. inversion H; subst. now exists s1, s2.
  - intros (s1 & s2 & -> & H1 & H2). now constructor.
Qed.

Lemma Matches_class (p : ascii -> bool) (s : list ascii) :
  Matches (Regex.Class p) s <-> exists c, s = [c] /\ p c = true.
Proof.
  split.
  - intro H. inversion H; subst. now exists c.
  - intros (c & -> & H). now constructor.
Qed.

Lemma Matches_char (c : ascii) (s : list ascii) :
  Matches (Regex.Char c) s <-> s = [c].
Proof.
  unfold Regex.Char. rewrite Matches_class. split.
  - intros (d & -> & H). apply Ascii.eqb_eq in H. now subst.
  - intros ->. exists c. split; [reflexivity | apply Ascii.eqb_refl].
Qed.

Lemma Matches_star_class (p : ascii -> bool) (s : list ascii) :
  Matches (Regex.Star (Regex.Class p)) s <-> forallb p s = true.
Proof.
  split.
  - intro H. remember (Regex.Star (Regex.Class p)) as r eqn:Hr.
    induction H; try discriminate; [reflexivity|].
    injection Hr as ->. apply Matches_class in H as (c & -> & Hc). simpl.
    rewrite Hc. now apply IHMatches2.
  - induction s as [|c s IH]; simpl; intro H; [constructor|].
    apply andb_true_iff in H as [Hc Hs].
    change (c :: s) with ([c] ++ s). constructor; [now constructor | now apply IH].
Qed.

Lemma Matches_plus_class (p : ascii -> bool) (s : list ascii) :
  Matches (Regex.Plus (Regex.Class p)) s <-> s <> [] /\ forallb p s = true.
Proof.
  unfold Regex.Plus. rewrite Matches_cat. split.
  - intros (s1 & s2 & -> & H1 & H2). apply Matches_class in H1 as (c & -> & Hc).
    apply Matches_star_class in H2. simpl. rewrite Hc. now split.
  - intros [Hne H]. destruct s as [|c s]; [congruence|]. simpl in H.
    apply andb_true_iff in H as [Hc Hs]. exists [c], s. split; [reflexivity|].
    split; [now constructor | now apply Matches_star_class].
Qed.

(** *** Strings as lists of characters *)

Lemma list_ascii_of_string_app (a b : string) :
  list_ascii_of_string (a ++ b) = list_ascii_of_string a ++ list_ascii_of_string b.
Proof. induction a as [|c a IH]; simpl; [reflexivity | now rewrite IH]. Qed.

Lemma string_of_list_ascii_app (a b : list ascii) :
  string_of_list_ascii (a ++ b)
  = (string_of_list_ascii a ++ string_of_list_ascii b)%string.
Proof. induction a as [|c a IH]; simpl; [reflexivity | now rewrite IH]. Qed.

Lemma list_ascii_nil (s : string) :
  list_ascii_of_string s = [] <-> s = EmptyString.
Proof. destruct s; simpl; split; congruence. Qed.

Lemma notSpaceOrAt_spec (c : ascii) :
  ContactController.notSpaceOrAt c = true <->
  Regex.space c = false /\ c <> "@"%char.
Proof.
  unfold ContactController.notSpaceOrAt.
  rewrite negb_true_iff, orb_false_iff, Ascii.eqb_neq. reflexivity.
Qed.

Lemma plainPart_chars (s : string) :
  plainPart s <->
  list_ascii_of_string s <> [] /\
  forallb ContactController.notSpaceOrAt (list_ascii_of_string s) = true.
Proof.
  unfold plainPart. rewrite list_ascii_nil, forallb_forall, Forall_forall.
  split; intros [Hne H]; (split; [exact Hne|]); intros c Hc;
    apply notSpaceOrAt_spec; auto.
Qed.

Lemma Matches_plain (l : list ascii) :
  Matches (Regex.Plus (Regex.Class ContactController.notSpaceOrAt)) l <->
  plainPart (string_of_list_ascii l).
Proof.
  rewrite Matches_plus_class, plainPart_chars.
  now rewrite list_ascii_of_string_of_list_ascii.
Qed.

(** [X1] [isValidEmail] accepts exactly the strings
    [local @ domain . rest] whose three parts are non-empty and hold
    neither white space nor [@]; the last two may hold further dots. *)
Theorem isValidEmail_shape (email : string) :
  ContactController.isValidEmail email = true <->
  exists localPart domain rest : string,
    email = (localPart ++ "@" ++ domain ++ "." ++ rest)%string /\
    plainPart localPart /\ plainPart domain /\ plainPart rest.
Proof.
  unfold ContactController.isValidEmail, Regex.test,
    ContactController.emailRegex.
  rewrite accepts_Matches. split.
  - intro H.
    apply Matches_cat in H as (a & s1 & E1 & Ha & H).
    apply Matches_cat in H as (at1 & s2 & E2 & Hat & H).
    apply Matches_cat in H as (b & s3 & E3 & Hb & H).
    apply Matches_cat in H as (dot & c & E4 & Hdot & Hc).
    apply Matches_char in Hat, Hdot. subst at1 dot s3 s2 s1.
    apply Matches_plain in Ha, Hb, Hc.
    exists (string_of_list_ascii a), (string_of_list_ascii b),
      (string_of_list_ascii c).
    split; [|auto].
    rewrite <- (string_of_list_ascii_of_string email), E1.
    now rewrite !string_of_list_ascii_app.
  - intros (a & b & c & -> & Ha & Hb & Hc).
    rewrite <- (string_of_list_ascii_of_string a) in Ha.
    rewrite <- (string_of_list_ascii_of_string b) in Hb.
    rewrite <- (string_of_list_ascii_of_string c) in Hc.
    apply Matches_plain in Ha, Hb, Hc.
    rewrite !list_ascii_of_string_app.
    apply MatchesCat; [exact Ha|].
    apply (MatchesCat _ _ ["@"%char]); [now apply Matches_char|].
    apply MatchesCat; [exact Hb|].
    apply (MatchesCat _ _ ["."%char]); [now apply Matches_char | exact Hc].
Qed.

Lemma phoneChar_spec (c : ascii) :
  ContactController.phoneChar c = true <-> phoneCharacter c.
Proof.
  unfold ContactController.phoneChar, phoneCharacter.
  rewrite !orb_true_iff, !Ascii.eqb_eq. simpl. intuition congruence.
Qed.

(** [X2] [isValidPhoneNumber] accepts exactly the strings made of digits,
    white space, hyphens, parentheses and plus signs that hold at least
    six digits; the digits need not be adjacent. *)
Theorem isValidPhoneNumber_shape (phoneNumber : string) :
  ContactController.isValidPhoneNumber phoneNumber = true <->
  Forall phoneCharacter (list_ascii_of_string phoneNumber) /\
  (6 <= List.length (filter Regex.digit (list_ascii_of_string phoneNumber)))%nat.
Proof.
  unfold ContactController.isValidPhoneNumber, Regex.test,
    ContactController.phoneRegex, ContactController.digitsOf.
  rewrite andb_true_iff, accepts_Matches, Matches_plus_class, Nat.leb_le.
  rewrite forallb_forall, Forall_forall.
  split.
  - intros [[_ H] Hd]. split; [|exact Hd].
    intros c Hc. apply phoneChar_spec. auto.
  - intros [H Hd]. split; [|exact Hd]. split.
    + intro E. rewrite E in Hd. simpl in Hd. lia.
    + intros c Hc. apply phoneChar_spec. auto.
Qed.

(* ================================================================== *)
(** ** Lookup by id *)

Lemma findContactById_healthy (id : Z) (db : Database) :
  healthy db ->
  findContactById id db
  = (db, Resolved (hd_error (filter (fun c => (Contact.id c =? id) && live c)
                                    (rows db)))).
Proof.
  intro H. unfold findContactById, bind. now rewrite selectWhere_healthy.
Qed.

Lemma healthy_inserted (clk : Clock) (data : CreateContactData.t) (db : Database) :
  healthy db -> healthy (inserted clk data db).
Proof. now unfold healthy. Qed.

Lemma healthy_updated (clk : Clock) (target : Z) (updates : ContactUpdates.t)
  (db : Database) :
  healthy db -> healthy (updated clk target updates db).
Proof. now unfold healthy. Qed.

Lemma filter_none {A : Type} (p : A -> bool) (l : list A) :
  (forall x, In x l -> p x = false) -> filter p l = [].
Proof.
  induction l as [|a l IH]; simpl; intro H; [reflexivity|].
  rewrite (H a) by now left. apply IH. intros x Hx. apply H. now right.
Qed.

(** [X3] A contact that [createContact] has stored is found under the
    identifier of the object the call resolved to. The row agrees with
    that object on the identifier and the precedence, and on the email,
    the phone number and the link once a falsy value is read as null;
    its creation time is the one of the store, and its identifier is
    above every identifier of the table before the call. *)
Theorem created_contact_is_found (clk : Clock) (data : CreateContactData.t)
  (db : Database) :
  healthy db ->
  exists obj row,
    snd (createContact clk data db) = Resolved obj /\
    findContactById (Contact.id obj) (fst (createContact clk data db))
    = (fst (createContact clk data db), Resolved (Some row)) /\
    In row (rows (fst (createContact clk data db))) /\
    Contact.id row = Contact.id obj /\
    Contact.linkPrecedence row = Contact.linkPrecedence obj /\
    Js.orNull (Contact.email row) = Contact.email obj /\
    Js.orNull (Contact.phoneNumber row) = Contact.phoneNumber obj /\
    linkedIdOrNull (Contact.linkedId row) = Contact.linkedId obj /\
    Contact.createdAt row = dbNow clk /\
    Contact.deletedAt row = None /\
    forall c, In c (rows db) -> Contact.id c < Contact.id obj.
Proof.
  intro Hh. rewrite (createContact_healthy clk data db Hh). cbn [fst snd].
  exists (createdObject clk data db), (createdRow clk data db).
  split; [reflexivity|]. split.
  - rewrite findContactById_healthy by now apply healthy_inserted.
    do 2 f_equal. cbn [rows inserted createdObject Contact.id].
    rewrite filter_app, filter_none.
    + simpl. now rewrite Z.eqb_refl.
    + intros c Hc. apply nextId_fresh in Hc.
      apply andb_false_iff. left. apply Z.eqb_neq. lia.
  - split; [cbn [rows inserted]; apply in_or_app; right; now left|].
    repeat split; try reflexivity.
    intros c Hc. now apply nextId_fresh.
Qed.

Lemma created_contact_is_found_witness :
  exists obj row,
    snd (createContact (mkClock 100 101)
           (CreateContactData.mk (Some "123456"%string) (Some ""%string) (Some 0) Primary)
           emptyStore) = Resolved obj /\
    Contact.email row = Some ""%string /\ Contact.email obj = None /\
    Contact.createdAt row = 100 /\ Contact.createdAt obj = 101.
Proof.
  destruct (created_contact_is_found (mkClock 100 101)
              (CreateContactData.mk (Some "123456"%string) (Some ""%string) (Some 0) Primary)
              emptyStore eq_refl)
    as (obj & row & Ho & Hf & Hr & _).
  exists obj, row. split; [exact Ho|].
  injection Ho as <-. destruct Hr as [<-|[]].
  repeat split; reflexivity.
Defined.

Lemma hd_error_map {A B : Type} (f : A -> B) (l : list A) :
  hd_error (map f l) = option_map f (hd_error l).
Proof. now destruct l. Qed.

Lemma filter_map_same {A : Type} (p : A -> bool) (f : A -> A) (l : list A) :
  (forall x, p (f x) = p x) -> filter p (map f l) = map f (filter p l).
Proof.
  intro H. induction l as [|a l IH]; simpl; [reflexivity|].
  rewrite H. destruct (p a); simpl; now rewrite IH.
Qed.

(** [X4] An update of the link or of the precedence, on a store that
    answers: after [updateContact] on [target], a lookup of [target]
    gives the record it gave before with the updates applied, and a
    lookup of any other identifier gives what it gave before; an update
    of an identifier that no live row has succeeds all the same, and
    lookups still resolve to null for it. An update without any key is
    not a statement of SQL: the call is rejected with the error of
    sqlite and every row is as before. *)
Theorem lookup_after_update (clk : Clock) (target : Z)
  (updates : ContactUpdates.t) (id : Z) (db : Database) :
  healthy db ->
  (noKey updates = true ->
   updateContact clk target updates db = (db, Rejected StorageError)) /\
  (noKey updates = false ->
   exists before,
     snd (findContactById id db) = Resolved before /\
     snd (updateContact clk target updates db) = Resolved tt /\
     snd (findContactById id (fst (updateContact clk target updates db)))
     = Resolved (if id =? target
                 then option_map (applyUpdates clk updates) before
                 else before)).
Proof.
  intro Hh. split; intro Hk.
  { unfold updateContact, bind. now rewrite statement_healthy, Hk. }
  rewrite (updateContact_healthy clk target updates db Hh Hk).
  rewrite (findContactById_healthy id db Hh). cbn [fst snd].
  eexists. split; [reflexivity|]. split; [reflexivity|].
  rewrite findContactById_healthy by now apply healthy_updated.
  cbn [snd rows updated]. f_equal. unfold updateRows.
  rewrite filter_map_same.
  - rewrite hd_error_map.
    destruct (filter _ (rows db)) as [|c l] eqn:E; simpl.
    + now destruct (id =? target).
    + assert (Hc : In c (filter (fun c => (Contact.id c =? id) && live c) (rows db)))
        by (rewrite E; now left).
      apply filter_In in Hc as [_ Hc]. apply andb_true_iff in Hc as [Hc _].
      apply Z.eqb_eq in Hc. rewrite Hc. now destruct (id =? target).
  - intro c. destruct (Contact.id c =? target); reflexivity.
Qed.

Lemma lookup_after_update_witness :
  snd (findContactById 2
         (fst (updateContact (mkClock 300 300) 2
                 (ContactUpdates.mk (Some 7) None) lorraineStore)))
  = Resolved (Some (Contact.mk 2 (Some "123"%string) (Some "mcfly@x"%string)
                               (Some 7) Secondary 200 300 None)) /\
  updateContact (mkClock 300 300) 2 (ContactUpdates.mk None None) lorraineStore
  = (lorraineStore, Rejected StorageError).
Proof.
  split.
  - destruct (lookup_after_update (mkClock 300 300) 2
                (ContactUpdates.mk (Some 7) None) 2 lorraineStore eq_refl)
      as [_ Hset].
    destruct (Hset eq_refl) as (before & Hb & _ & H).
    rewrite H. injection Hb as <-. reflexivity.
  - destruct (lookup_after_update (mkClock 300 300) 2
                (ContactUpdates.mk None None) 2 lorraineStore eq_refl)
      as [Hnone _].
    exact (Hnone eq_refl).
Defined.

(* ================================================================== *)
(** ** The listing *)






















(* ================================================================== *)
(** ** The view and the store *)

Lemma presentValues_In (field : Contact.t -> option string)
  (records : list Contact.t) (v : string) :
  In v (presentValues field records) <->
  exists c, In c records /\ Js.orNull (field c) = Some v.
Proof.
  unfold presentValues. rewrite in_flat_map. split.
  - intros (c & Hc & Hv). exists c. split; [exact Hc|].
    destruct (Js.orNull (field c)) as [s|]; [|destruct Hv].
    destruct Hv as [->|[]]. reflexivity.
  - intros (c & Hc & Hv). exists c. split; [exact Hc|]. rewrite Hv. now left.
Qed.

(** The view of a membership in closed form: it is made from the first
    of the primaries with the earliest createdAt and from the
    secondaries. *)
Lemma build_closed_form (contacts : list Contact.t) :
  buildConsolidatedContact contacts =
  match oldestOf contacts with
  | None => Rejected NoPrimaryContactFound
  | Some p =>
      let secondaries := Js.sortOn Contact.createdAt (filter isSecondary contacts) in
      Resolved (mkConsolidated
                  (Contact.id p)
                  (firstOccurrences (presentValues Contact.email (p :: secondaries)))
                  (firstOccurrences (presentValues Contact.phoneNumber (p :: secondaries)))
                  (map Contact.id secondaries))
  end.
Proof.
  unfold buildConsolidatedContact, oldestOf.
  rewrite find_hd_filter, !filter_sortOn.
  destruct (Js.sortOn Contact.createdAt (filter isPrimary contacts)) as [|p s];
    cbn [hd_error]; [reflexivity|].
  now rewrite !collected_values.
Qed.

Lemma build_of_members (contacts : list Contact.t) (p : Contact.t) :
  In p contacts -> isPrimary p = true ->
  (forall c, In c contacts -> isPrimary c = true -> c = p) ->
  exists view,
    buildConsolidatedContact contacts = Resolved view /\
    primaryContactId view = Contact.id p /\
    (forall i, In i (secondaryContactIds view) <->
               exists c, In c contacts /\ isSecondary c = true /\ Contact.id c = i) /\
    (forall e, In e (emails view) <->
               exists c, In c contacts /\ Js.orNull (Contact.email c) = Some e) /\
    (forall n, In n (phoneNumbers view) <->
               exists c, In c contacts /\ Js.orNull (Contact.phoneNumber c) = Some n).
Proof.
  intros Hin Hp Hone. rewrite build_closed_form.
  destruct (oldestOf contacts) as [q|] eqn:Eo.
  - destruct (oldestOf_In _ _ Eo) as [Hq Hqp].
    rewrite (Hone q Hq Hqp). eexists. split; [reflexivity|].
    cbn [primaryContactId secondaryContactIds emails phoneNumbers].
    split; [reflexivity|].
    assert (Hmem : forall c, In c (p :: Js.sortOn Contact.createdAt
                                         (filter isSecondary contacts)) <->
                             In c contacts).
    { intro c. simpl. rewrite sortOn_In, filter_In. split.
      - intros [<-|[H _]]; assumption.
      - intro Hc. destruct (precedence_cases c) as [(Hcp & _)|(_ & Hcs & _)].
        + left. symmetry. now apply Hone.
        + right. now split. }
    split; [|split].
    + intro i. rewrite in_map_iff. split.
      * intros (c & <- & Hc). apply sortOn_In, filter_In in Hc. exists c. tauto.
      * intros (c & Hc & Hs & <-). exists c. split; [reflexivity|].
        apply sortOn_In, filter_In. now split.
    + intro e. rewrite firstOccurrences_In, presentValues_In.
      split; intros (c & Hc & He); exists c; (split; [now apply Hmem | exact He]).
    + intro n. rewrite firstOccurrences_In, presentValues_In.
      split; intros (c & Hc & He); exists c; (split; [now apply Hmem | exact He]).
  - apply oldestOf_none in Eo.
    assert (H : In p (filter isPrimary contacts)) by (apply filter_In; now split).
    rewrite Eo in H. destruct H.
Qed.

(** [X9] The view of a membership is made from one primary, the first
    of those with the earliest createdAt, and from the secondaries: it
    is the view of that primary with the secondaries, so that a further
    primary of the membership adds neither its identifier nor its email
    or phone number; and every email of the view is one of that primary
    or of a secondary. *)
Theorem view_ignores_later_primaries (contacts : list Contact.t)
  (oldest : Contact.t) :
  oldestOf contacts = Some oldest ->
  buildConsolidatedContact contacts
  = buildConsolidatedContact (oldest :: filter isSecondary contacts) /\
  exists view,
    buildConsolidatedContact contacts = Resolved view /\
    primaryContactId view = Contact.id oldest /\
    (forall e, In e (emails view) ->
               exists c, (c = oldest \/ (In c contacts /\ isSecondary c = true)) /\
                         Contact.email c = Some e) /\
    (forall n, In n (phoneNumbers view) ->
               exists c, (c = oldest \/ (In c contacts /\ isSecondary c = true)) /\
                         Contact.phoneNumber c = Some n).
Proof.
  intro Eo. destruct (oldestOf_In _ _ Eo) as [Hin Hp].
  assert (Hs : filter isSecondary (oldest :: filter isSecondary contacts)
               = filter isSecondary contacts).
  { simpl. rewrite isSecondary_negb, Hp. simpl.
    apply filter_all. intros c Hc. now apply filter_In in Hc. }
  assert (Ho : oldestOf (oldest :: filter isSecondary contacts) = Some oldest).
  { unfold oldestOf. simpl. rewrite Hp.
    rewrite (filter_none isPrimary (filter isSecondary contacts)); [reflexivity|].
    intros c Hc. apply filter_In in Hc as [_ Hc].
    rewrite isSecondary_negb in Hc. now apply negb_true_iff. }
  rewrite !build_closed_form, Eo, Ho, Hs. split; [reflexivity|].
  eexists. split; [reflexivity|].
  cbn [primaryContactId emails phoneNumbers]. split; [reflexivity|].
  assert (Hval : forall field v,
             In v (firstOccurrences
                     (presentValues field
                        (oldest :: Js.sortOn Contact.createdAt
                                     (filter isSecondary contacts)))) ->
             exists c, (c = oldest \/ (In c contacts /\ isSecondary c = true)) /\
                       field c = Some v).
  { intros field v Hv. apply firstOccurrences_In, presentValues_In in Hv.
    destruct Hv as (c & Hc & Hv). exists c.
    split; [|now apply orNull_some in Hv].
    destruct Hc as [<-|Hc]; [now left|]. right.
    now apply sortOn_In, filter_In in Hc. }
  split; intros v Hv; now apply Hval.
Qed.

Lemma view_ignores_later_primaries_witness :
  let p1 := Contact.mk 1 (Some "111"%string) (Some "a@x"%string) None Primary 10 10 None in
  let p2 := Contact.mk 2 (Some "222"%string) (Some "b@x"%string) None Primary 20 20 None in
  let s3 := Contact.mk 3 (Some "333"%string) (Some "a@x"%string) (Some 1) Secondary 30 30 None in
  buildConsolidatedContact [p2; s3; p1]
  = Resolved (mkConsolidated 1 ["a@x"%string] ["111"%string; "333"%string] [3]).
Proof.
  intros p1 p2 s3.
  destruct (view_ignores_later_primaries [p2; s3; p1] p1 eq_refl) as [H _].
  rewrite H. reflexivity.
Defined.

Lemma sameRecord_refl (c : Contact.t) : sameRecord c c.
Proof. now unfold sameRecord. Qed.

Lemma sameRecord_secondary (c r : Contact.t) :
  sameRecord c r -> isSecondary c = isSecondary r.
Proof. intros (_ & _ & _ & H). unfold isSecondary. now rewrite H. Qed.

Lemma sameRecord_primary (c r : Contact.t) :
  sameRecord c r -> isPrimary c = isPrimary r.
Proof. intros (_ & _ & _ & H). unfold isPrimary. now rewrite H. Qed.

Lemma linkedTo_cases (primaryId : Z) (c : Contact.t) :
  linkedTo primaryId c = true <->
  Contact.id c = primaryId \/ Contact.linkedId c = Some primaryId.
Proof.
  unfold linkedTo. rewrite orb_true_iff, Z.eqb_eq.
  destruct (Contact.linkedId c) as [l|].
  - rewrite Z.eqb_eq. split; intros [H|H]; auto; right; congruence.
  - split; intros [H|H]; auto; discriminate.
Qed.

(** The view of objects that stand for an identity of the store. *)
Lemma viewOfStore_build (contacts : list Contact.t) (p : Contact.t)
  (db : Database) :
  In p contacts -> isPrimary p = true ->
  (forall c, In c contacts -> isPrimary c = true -> c = p) ->
  standFor contacts (Contact.id p) db ->
  exists view,
    buildConsolidatedContact contacts = Resolved view /\
    primaryContactId view = Contact.id p /\
    viewOfStore view db /\
    (forall e, In e (emails view) <->
               exists c, In c contacts /\ Js.orNull (Contact.email c) = Some e) /\
    (forall n, In n (phoneNumbers view) <->
               exists c, In c contacts /\ Js.orNull (Contact.phoneNumber c) = Some n).
Proof.
  intros Hin Hp Hone (Hobj & Hrow & Hprim).
  destruct (build_of_members contacts p Hin Hp Hone)
    as (view & Hv & Hid & Hsec & Hem & Hph).
  exists view. split; [exact Hv|]. split; [exact Hid|]. split; [|now split].
  unfold viewOfStore. rewrite Hid. split; [|split; [|split]].
  - destruct (Hobj p Hin) as (r & Hr & Hlive & _ & Hsame).
    exists r. repeat split; try assumption.
    + now rewrite <- (sameRecord_primary p r Hsame).
    + symmetry. apply Hsame.
  - intro i. rewrite Hsec. split.
    + intros (c & Hc & Hs & <-).
      destruct (Hobj c Hc) as (r & Hr & Hlive & Hlink & Hsame).
      assert (Hrs : isSecondary r = true)
        by now rewrite <- (sameRecord_secondary c r Hsame).
      exists r. repeat split; try assumption; [|symmetry; apply Hsame].
      apply linkedTo_cases in Hlink. destruct Hlink as [Hl|Hl]; [|exact Hl].
      specialize (Hprim r Hr Hlive Hl).
      rewrite isSecondary_negb, Hprim in Hrs. discriminate.
    + intros (r & Hr & Hlive & Hs & Hl & <-).
      destruct (Hrow r Hr Hlive) as (c & Hc & Hsame).
      { apply linkedTo_cases. now right. }
      exists c. repeat split; [exact Hc| |apply Hsame].
      now rewrite (sameRecord_secondary c r Hsame).
  - intro e. rewrite Hem. split.
    + intros (c & Hc & He).
      destruct (Hobj c Hc) as (r & Hr & Hlive & Hlink & Hsame).
      exists r. repeat split; try assumption.
      destruct Hsame as (_ & <- & _). exact He.
    + intros (r & Hr & Hlive & Hlink & He).
      destruct (Hrow r Hr Hlive Hlink) as (c & Hc & Hsame).
      exists c. split; [exact Hc|]. destruct Hsame as (_ & -> & _). exact He.
  - intro n. rewrite Hph. split.
    + intros (c & Hc & He).
      destruct (Hobj c Hc) as (r & Hr & Hlive & Hlink & Hsame).
      exists r. repeat split; try assumption.
      destruct Hsame as (_ & _ & <- & _). exact He.
    + intros (r & Hr & Hlive & Hlink & He).
      destruct (Hrow r Hr Hlive Hlink) as (c & Hc & Hsame).
      exists c. split; [exact Hc|]. destruct Hsame as (_ & _ & -> & _). exact He.
Qed.

(** *** The objects of each path of [identify] *)

Lemma standFor_members (db : Database) (p : Contact.t) :
  wellLinked db -> In p (rows db) -> live p = true -> isPrimary p = true ->
  standFor (membersOf (Contact.id p) db) (Contact.id p) db /\
  In p (membersOf (Contact.id p) db) /\
  (forall c, In c (membersOf (Contact.id p) db) -> isPrimary c = true -> c = p).
Proof.
  intros (Hu & Hpu & Hs) Hp Hlive Hprim. split; [split; [|split]|split].
  - intros c Hc. apply membersOf_In in Hc as (Hr & Hl & Hlink).
    exists c. repeat split; assumption.
  - intros r Hr Hl Hlink. exists r. split; [|apply sameRecord_refl].
    apply membersOf_In. auto.
  - intros r Hr Hl Hid.
    now rewrite (unique_row db r p Hu Hr Hp Hid).
  - apply membersOf_In. repeat split; try assumption.
    apply linkedTo_cases. now left.
  - intros c Hc Hcp. apply membersOf_In in Hc as (Hr & Hl & Hlink).
    apply (unique_row db c p Hu Hr Hp).
    apply linkedTo_cases in Hlink. destruct Hlink as [H|H]; [exact H|].
    rewrite (Hpu c Hr Hl Hcp) in H. discriminate.
Qed.

Lemma standFor_insert (clk : Clock) (request : IdentifyRequest.t)
  (contacts : list Contact.t) (primaryId : Z) (db : Database) :
  standFor contacts primaryId db ->
  (exists p, In p (rows db) /\ Contact.id p = primaryId) ->
  standFor (contacts ++ [createdObject clk (secondaryData request primaryId) db])
           primaryId (inserted clk (secondaryData request primaryId) db).
Proof.
  intros (Hobj & Hrow & Hprim) (p & Hp & Hid).
  assert (Hsame : sameRecord (createdObject clk (secondaryData request primaryId) db)
                             (createdRow clk (secondaryData request primaryId) db)).
  { unfold sameRecord. cbn. now rewrite !orNull_idem. }
  assert (Hlink : linkedTo primaryId
                    (createdRow clk (secondaryData request primaryId) db) = true).
  { apply linkedTo_cases. now right. }
  split; [|split]; cbn [inserted rows].
  - intros c Hc. apply in_app_or in Hc. destruct Hc as [Hc|[<-|[]]].
    + destruct (Hobj c Hc) as (r & Hr & H). exists r.
      split; [apply in_or_app; now left | exact H].
    + eexists. split; [apply in_or_app; right; now left|].
      split; [reflexivity|]. split; [exact Hlink | exact Hsame].
  - intros r Hr Hl Hlk. apply in_app_or in Hr. destruct Hr as [Hr|[<-|[]]].
    + destruct (Hrow r Hr Hl Hlk) as (c & Hc & H). exists c.
      split; [apply in_or_app; now left | exact H].
    + eexists. split; [apply in_or_app; right; now left | exact Hsame].
  - intros r Hr Hl Hrid. apply in_app_or in Hr. destruct Hr as [Hr|[<-|[]]].
    + now apply Hprim.
    + apply nextId_fresh in Hp. cbn in Hrid. lia.
Qed.

Lemma standFor_new_primary (clk : Clock) (request : IdentifyRequest.t)
  (db : Database) :
  wellLinked db ->
  standFor [createdObject clk (primaryData request) db] (nextId db)
           (inserted clk (primaryData request) db).
Proof.
  intros (Hu & Hpu & Hs).
  assert (Hsame : sameRecord (createdObject clk (primaryData request) db)
                             (createdRow clk (primaryData request) db)).
  { unfold sameRecord. cbn. now rewrite !orNull_idem. }
  assert (Hold : forall r, In r (rows db) -> live r = true ->
                           linkedTo (nextId db) r = true -> False).
  { intros r Hr Hl Hlk. apply linkedTo_cases in Hlk.
    destruct Hlk as [Hid|Hlk]; [apply nextId_fresh in Hr; lia|].
    destruct (precedence_cases r) as [(Hp & _)|(_ & Hsec & _)].
    - rewrite (Hpu r Hr Hl Hp) in Hlk. discriminate.
    - destruct (Hs r Hr Hl Hsec) as (q & Hq & _ & _ & Hql).
      apply nextId_fresh in Hq. rewrite Hql in Hlk. injection Hlk as Hlk. lia. }
  split; [|split]; cbn [inserted rows].
  - intros c [<-|[]]. eexists. split; [apply in_or_app; right; now left|].
    split; [reflexivity|]. split; [|exact Hsame].
    apply linkedTo_cases. now left.
  - intros r Hr Hl Hlk. apply in_app_or in Hr. destruct Hr as [Hr|[<-|[]]].
    + destruct (Hold r Hr Hl Hlk).
    + eexists. split; [now left | exact Hsame].
  - intros r Hr Hl Hid. apply in_app_or in Hr. destruct Hr as [Hr|[<-|[]]].
    + apply nextId_fresh in Hr. lia.
    + reflexivity.
Qed.

Lemma mergedObjects_map (oid : Z) (all : list Contact.t) :
  mergedObjects oid all = map (mergedObject oid) all.
Proof.
  unfold mergedObjects, afterRelink, afterDemote. rewrite map_map. reflexivity.
Qed.

Lemma mergedObject_cases (oid : Z) (c : Contact.t) :
  Contact.id (mergedObject oid c) = Contact.id c /\
  Contact.email (mergedObject oid c) = Contact.email c /\
  Contact.phoneNumber (mergedObject oid c) = Contact.phoneNumber c /\
  ((isPrimary c = true /\ Contact.id c = oid /\ mergedObject oid c = c) \/
   (isSecondary (mergedObject oid c) = true /\
    (isSecondary c = true \/ (isPrimary c = true /\ Contact.id c <> oid)))).
Proof.
  unfold mergedObject, visit, isOther, demote, linkedElsewhere.
  destruct c as [i ph em l [|] ca ua da]; cbn.
  - destruct (Z.eqb_spec i oid) as [->|Hne]; cbn.
    + repeat split. now left.
    + rewrite Z.eqb_refl. cbn. repeat split. right. split; [reflexivity|].
      right. now split.
  - destruct (negb (Js.strictEqNum l (Some oid))); cbn;
      repeat split; right; (split; [reflexivity | now left]).
Qed.

Lemma live_mergedRow (clk : Clock) (oid : Z) (all : list Contact.t)
  (r : Contact.t) :
  live (mergedRow clk oid all r) = live r.
Proof.
  unfold live.
  destruct (mergedRow_fields clk oid all r) as (_ & _ & _ & _ & ->).
  reflexivity.
Qed.

Lemma secondary_precedence (c : Contact.t) :
  isSecondary c = true -> Contact.linkPrecedence c = Secondary.
Proof.
  intro H. destruct (precedence_cases c) as [(_ & E & _)|(_ & _ & E)];
    [congruence | exact E].
Qed.

Lemma merged_member_row (clk : Clock) (oid : Z) (all : list Contact.t)
  (c : Contact.t) :
  In c all ->
  sameRecord (mergedObject oid c) (mergedRow clk oid all c) /\
  linkedTo oid (mergedRow clk oid all c) = true.
Proof.
  intro Hc.
  destruct (mergedObject_cases oid c) as (Hi & He & Hp & Hcase).
  destruct (mergedRow_fields clk oid all c) as (Ri & Re & Rp & _).
  unfold sameRecord. rewrite Hi, He, Hp, Ri, Re, Rp.
  destruct Hcase as [(Hprim & Hid & ->)|(Hsec & [Hcs|(Hprim & Hne)])].
  - rewrite (mergedRow_survivor clk oid all c Hid).
    split; [now repeat split|]. apply linkedTo_cases. left. congruence.
  - destruct (mergedRow_secondary clk oid all c Hc Hcs) as (-> & Hl).
    split; [|apply linkedTo_cases; now right].
    repeat split. now apply secondary_precedence.
  - destruct (mergedRow_other_primary clk oid all c Hc Hprim Hne) as (-> & Hl).
    split; [|apply linkedTo_cases; now right].
    repeat split. now apply secondary_precedence.
Qed.

Lemma survivor_governs (primaryIds : list Z) (db : Database) (survivor : Contact.t) :
  wellLinked db ->
  oldestOf (fetchedMembers primaryIds db) = Some survivor ->
  In (Contact.id survivor) primaryIds /\
  In survivor (rows db) /\ live survivor = true /\ isPrimary survivor = true.
Proof.
  intros (Hu & Hpu & Hs) Eo. destruct (oldestOf_In _ _ Eo) as [Hin Hp].
  apply fetchedMembers_In in Hin. destruct Hin as (pid & Hpid & Hm).
  apply membersOf_In in Hm as (Hr & Hl & Hlink).
  repeat split; try assumption.
  apply linkedTo_cases in Hlink. destruct Hlink as [H|H]; [now rewrite H|].
  rewrite (Hpu survivor Hr Hl Hp) in H. discriminate.
Qed.

Lemma standFor_merged (clk : Clock) (primaryIds : list Z) (db dbm : Database)
  (survivor : Contact.t) :
  wellLinked db ->
  oldestOf (fetchedMembers primaryIds db) = Some survivor ->
  rows dbm = map (mergedRow clk (Contact.id survivor) (fetchedMembers primaryIds db))
                 (rows db) ->
  standFor (mergedObjects (Contact.id survivor) (fetchedMembers primaryIds db))
           (Contact.id survivor) dbm /\
  (forall c, In c (mergedObjects (Contact.id survivor) (fetchedMembers primaryIds db)) ->
             isPrimary c = true -> c = survivor).
Proof.
  intros Hw Eo Hrows.
  destruct (survivor_governs primaryIds db survivor Hw Eo) as (Hsid & Hsr & Hsl & Hsp).
  destruct Hw as (Hu & Hpu & Hs).
  set (all := fetchedMembers primaryIds db) in *.
  set (sid := Contact.id survivor) in *.
  rewrite mergedObjects_map.
  split; [split; [|split]|].
  - intros m Hm. apply in_map_iff in Hm. destruct Hm as (c & <- & Hc).
    destruct (merged_member_row clk sid all c Hc) as [Hsame Hlink].
    destruct (fetchedMembers_rows _ _ _ Hc) as (Hcr & Hcl & _).
    exists (mergedRow clk sid all c). repeat split; try apply Hsame; try assumption.
    + rewrite Hrows. now apply in_map.
    + now rewrite live_mergedRow.
  - intros r' Hr' Hl' Hlink'. rewrite Hrows in Hr'.
    apply in_map_iff in Hr'. destruct Hr' as (r & <- & Hr).
    rewrite live_mergedRow in Hl'.
    destruct (member_or_outside primaryIds db r Hu Hr) as [Hin|Hout].
    + exists (mergedObject sid r). split; [now apply in_map|].
      now apply merged_member_row.
    + fold all in Hout. rewrite (mergedRow_outside clk sid all r Hout) in Hlink'.
      exfalso. apply (Hout r); [|reflexivity].
      apply fetchedMembers_In. exists sid. split; [exact Hsid|].
      apply membersOf_In. auto.
  - intros r' Hr' Hl' Hid'. rewrite Hrows in Hr'.
    apply in_map_iff in Hr'. destruct Hr' as (r & <- & Hr).
    rewrite mergedRow_id in Hid'.
    rewrite (unique_row db r survivor Hu Hr Hsr Hid').
    unfold isPrimary. rewrite (mergedRow_survivor clk sid all survivor eq_refl).
    exact Hsp.
  - intros m Hm Hmp. apply in_map_iff in Hm. destruct Hm as (c & <- & Hc).
    destruct (mergedObject_cases sid c) as (_ & _ & _ & [(Hcp & Hid & E)|(Hsec & _)]).
    + rewrite E. destruct (fetchedMembers_rows _ _ _ Hc) as (Hcr & _).
      now apply (unique_row db c survivor Hu).
    + rewrite isSecondary_negb, Hmp in Hsec. discriminate.
Qed.

Lemma wellLinked_governing (request : IdentifyRequest.t) (db : Database) :
  wellLinked db -> candidates request db <> [] -> governingIds request db <> [].
Proof.
  intros (_ & _ & Hs) Hc.
  destruct (candidates request db) as [|c t] eqn:Ec; [now elim Hc|].
  assert (Hin : In c (candidates request db)) by (rewrite Ec; now left).
  destruct (candidates_In _ _ _ Hin) as [Hr Hl].
  assert (Hx : exists x, In x (governingIds request db)).
  { unfold governingIds.
    destruct (precedence_cases c) as [(Hp & _)|(_ & Hsec & _)].
    - exists (Contact.id c). apply allPrimaryIdsOf_In. left. now exists c.
    - destruct (Hs c Hr Hl Hsec) as (p & _ & _ & _ & Hlp).
      exists (Contact.id p). apply allPrimaryIdsOf_In. right. now exists c. }
  destruct Hx as (x & Hx). intro E. rewrite E in Hx. destruct Hx.
Qed.

Lemma created_object_values (clk : Clock) (request : IdentifyRequest.t)
  (data : CreateContactData.t) (db : Database) :
  CreateContactData.email data = Js.orNull (IdentifyRequest.email request) ->
  CreateContactData.phoneNumber data
  = Js.orNull (IdentifyRequest.phoneNumber request) ->
  Contact.email (createdObject clk data db)
  = Js.orNull (IdentifyRequest.email request) /\
  Contact.phoneNumber (createdObject clk data db)
  = Js.orNull (IdentifyRequest.phoneNumber request).
Proof. intros He Hp. cbn. now rewrite He, Hp, !orNull_idem. Qed.

Lemma live_row_linked (db : Database) (r : Contact.t) :
  wellLinked db -> In r (rows db) -> live r = true ->
  isPrimary r = true \/ Contact.linkedId r <> None.
Proof.
  intros (_ & _ & Hs) Hr Hl.
  destruct (precedence_cases r) as [(Hp & _)|(_ & Hsec & _)]; [now left|].
  right. destruct (Hs r Hr Hl Hsec) as (p & _ & _ & _ & ->). discriminate.
Qed.

(** Under the invariant a candidate belongs to the identity of one of
    the governing ids. *)
Lemma candidate_governed (request : IdentifyRequest.t) (db : Database)
  (c : Contact.t) :
  wellLinked db -> In c (candidates request db) ->
  exists x, In x (governingIds request db) /\ linkedTo x c = true.
Proof.
  intros (_ & _ & Hs) Hc. destruct (candidates_In _ _ _ Hc) as [Hr Hl].
  unfold governingIds.
  destruct (precedence_cases c) as [(Hp & _)|(_ & Hsec & _)].
  - exists (Contact.id c). split; [|apply linkedTo_cases; now left].
    apply allPrimaryIdsOf_In. left. now exists c.
  - destruct (Hs c Hr Hl Hsec) as (p & _ & _ & _ & Hlp).
    exists (Contact.id p). split; [|apply linkedTo_cases; now right].
    apply allPrimaryIdsOf_In. right. now exists c.
Qed.

(** The objects from which [identify] makes its view on a store that
    satisfies the invariant. *)
Lemma identify_outcome (clk : Clock) (request : IdentifyRequest.t) (db : Database) :
  wellLinked db -> healthy db ->
  exists contacts p,
    snd (identify clk request db) = buildConsolidatedContact contacts /\
    In p contacts /\ isPrimary p = true /\
    (forall c, In c contacts -> isPrimary c = true -> c = p) /\
    standFor contacts (Contact.id p) (fst (identify clk request db)) /\
    (forall e, Js.orNull (IdentifyRequest.email request) = Some e ->
               exists c, In c contacts /\ Contact.email c = Some e) /\
    (forall n, Js.orNull (IdentifyRequest.phoneNumber request) = Some n ->
               exists c, In c contacts /\ Contact.phoneNumber c = Some n) /\
    (forall r, In r (rows (fst (identify clk request db))) -> live r = true ->
               sharesValue request r -> linkedTo (Contact.id p) r = true).
Proof.
  intros Hw Hh.
  assert (Hcand : forall r, In r (rows db) -> live r = true ->
                            sharesValue request r -> In r (candidates request db)).
  { intros r Hr Hl [(e & He & Hre)|(n & Hn & Hrn)];
      [apply (matching_candidate request db r e) | apply (matching_candidate request db r n)];
      auto. }
  assert (Hnew : forall data dbx,
             CreateContactData.email data = Js.orNull (IdentifyRequest.email request) ->
             CreateContactData.phoneNumber data
             = Js.orNull (IdentifyRequest.phoneNumber request) ->
             forall l,
               (forall e, Js.orNull (IdentifyRequest.email request) = Some e ->
                          exists c, In c (l ++ [createdObject clk data dbx]) /\
                                    Contact.email c = Some e) /\
               (forall n, Js.orNull (IdentifyRequest.phoneNumber request) = Some n ->
                          exists c, In c (l ++ [createdObject clk data dbx]) /\
                                    Contact.phoneNumber c = Some n)).
  { intros data dbx He Hp l.
    destruct (created_object_values clk request data dbx He Hp) as [Ee Ep].
    split; intros v Hv; exists (createdObject clk data dbx);
      (split; [apply in_or_app; right; now left | congruence]). }
  destruct (candidates request db) as [|c0 cs] eqn:Ec.
  - rewrite (identify_no_match clk request db Hh Ec). cbn [fst snd].
    exists [createdObject clk (primaryData request) db],
      (createdObject clk (primaryData request) db).
    split; [reflexivity|]. split; [now left|]. split; [reflexivity|].
    split; [now intros c [<-|[]]|].
    split; [now apply standFor_new_primary|].
    split; [apply (Hnew (primaryData request) db eq_refl eq_refl [])|].
    split; [apply (Hnew (primaryData request) db eq_refl eq_refl [])|].
    cbn [inserted rows]. intros r Hr Hl Hsh.
    apply in_app_or in Hr. destruct Hr as [Hr|[<-|[]]].
    + destruct (Hcand r Hr Hl Hsh).
    + apply linkedTo_cases. now left.
  - assert (Hc : candidates request db <> []) by (rewrite Ec; discriminate).
    rewrite <- Ec in Hcand.
    pose proof (wellLinked_governing request db Hw Hc) as Hg.
    rewrite (identify_matched clk request db Hh Hc).
    destruct (governingIds request db) as [|pid [|q rest]] eqn:Eg; [now elim Hg| |].
    + destruct (governing_is_primary request db pid Hw) as (p & Hp & Hl & Hpp & <-);
        [rewrite Eg; now left|].
      destruct (standFor_members db p Hw Hp Hl Hpp) as (Hst & Hin & Hone).
      assert (Hgath : forall r, In r (rows db) -> live r = true ->
                                sharesValue request r ->
                                linkedTo (Contact.id p) r = true).
      { intros r Hr Hrl Hsh.
        destruct (candidate_governed request db r Hw (Hcand r Hr Hrl Hsh))
          as (x & Hx & Hlx).
        rewrite Eg in Hx. destruct Hx as [<-|[]]. exact Hlx. }
      destruct (needsNewSecondaryContact _ _ _) eqn:En; cbn [fst snd].
      * eexists. exists p. split; [reflexivity|].
        split; [apply in_or_app; now left|]. split; [exact Hpp|].
        split; [|split; [|split; [|split]]].
        -- intros c Hcin Hcp. apply in_app_or in Hcin.
           destruct Hcin as [Hcin|[<-|[]]]; [now apply Hone | discriminate].
        -- apply standFor_insert; [exact Hst | now exists p].
        -- now apply Hnew.
        -- now apply Hnew.
        -- cbn [inserted rows]. intros r Hr Hrl Hsh.
           apply in_app_or in Hr. destruct Hr as [Hr|[<-|[]]]; [now apply Hgath|].
           apply linkedTo_cases. now right.
      * exists (membersOf (Contact.id p) db), p. split; [reflexivity|].
        split; [exact Hin|]. split; [exact Hpp|]. split; [exact Hone|].
        split; [exact Hst|].
        split; [now apply needsNew_false_met|].
        split; [now apply needsNew_false_met | exact Hgath].
    + set (pids := pid :: q :: rest) in *.
      assert (Hpn : pids <> []) by discriminate.
      rewrite <- Eg in Hpn.
      pose proof (wellLinked_fetched_primary request db Hw Hpn) as Hfp.
      rewrite Eg in Hfp. fold pids in Hfp.
      destruct (oldestOf_some _ Hfp) as (survivor & Eo).
      destruct (mergePrimaryContacts_healthy clk pids request db survivor Hh Eo)
        as (dbm & Hhm & _ & Hrows & _ & Hm).
      destruct (wellLinked_merge clk pids db dbm survivor Hw Eo Hrows) as [Hwm Hsm].
      destruct (standFor_merged clk pids db dbm survivor Hw Eo Hrows) as [Hst Hone].
      destruct (oldestOf_In _ _ Eo) as [Hsin Hsp].
      pose proof (merged_keeps_oldest _ _ Hsin Hsp) as Hkeep.
      assert (Hgath : forall r, In r (rows dbm) -> live r = true ->
                                sharesValue request r ->
                                linkedTo (Contact.id survivor) r = true).
      { intros r' Hr' Hrl Hsh. rewrite Hrows in Hr'.
        apply in_map_iff in Hr'. destruct Hr' as (r & <- & Hr).
        rewrite live_mergedRow in Hrl.
        destruct (mergedRow_fields clk (Contact.id survivor) (fetchedMembers pids db) r)
          as (_ & Re & Rp & _).
        unfold sharesValue in Hsh. rewrite Re, Rp in Hsh.
        pose proof (Hcand r Hr Hrl Hsh) as Hrc.
        apply merged_member_row.
        rewrite <- Eg. apply candidate_member; [exact Hrc|].
        now apply (live_row_linked db r Hw). }
      rewrite Hm.
      destruct (needsNewSecondaryContact _ _ _) eqn:En; cbn [fst snd].
      * eexists. exists survivor. split; [reflexivity|].
        split; [apply in_or_app; now left|]. split; [exact Hsp|].
        split; [|split; [|split; [|split]]].
        -- intros c Hcin Hcp. apply in_app_or in Hcin.
           destruct Hcin as [Hcin|[<-|[]]]; [now apply Hone | discriminate].
        -- apply standFor_insert; [exact Hst | now exists survivor].
        -- now apply Hnew.
        -- now apply Hnew.
        -- cbn [inserted rows]. intros r Hr Hrl Hsh.
           apply in_app_or in Hr. destruct Hr as [Hr|[<-|[]]]; [now apply Hgath|].
           apply linkedTo_cases. now right.
      * eexists. exists survivor. split; [reflexivity|].
        split; [exact Hkeep|]. split; [exact Hsp|]. split; [exact Hone|].
        split; [exact Hst|].
        split; [now apply needsNew_false_met|].
        split; [now apply needsNew_false_met | exact Hgath].
Qed.

(** [X10] On a store that satisfies the invariant and answers, a call of
    [identify] resolves, and its view is the identity of its primary as
    the store holds it after the call: the primary is a live primary of
    the table, the secondary identifiers are exactly those of the live
    secondaries linked to it, and the emails and phone numbers are
    exactly those of these records. *)
Theorem identify_view_is_stored_identity (clk : Clock)
  (request : IdentifyRequest.t) (db : Database) :
  wellLinked db -> healthy db ->
  exists view,
    snd (identify clk request db) = Resolved view /\
    viewOfStore view (fst (identify clk request db)).
Proof.
  intros Hw Hh.
  destruct (identify_outcome clk request db Hw Hh)
    as (contacts & p & Hsnd & Hin & Hp & Hone & Hst & _).
  destruct (viewOfStore_build contacts p _ Hin Hp Hone Hst)
    as (view & Hv & _ & Hview & _).
  exists view. split; [congruence | exact Hview].
Qed.

Lemma identify_view_is_stored_identity_witness :
  exists view,
    snd (identify (mkClock 400 400)
           (IdentifyRequest.mk (Some "george@x"%string) (Some "717171"%string))
           georgeBiffStore) = Resolved view /\
    viewOfStore view
      (fst (identify (mkClock 400 400)
              (IdentifyRequest.mk (Some "george@x"%string) (Some "717171"%string))
              georgeBiffStore)).
Proof.
  apply identify_view_is_stored_identity; [|reflexivity].
  apply afterCalls_preserves; [apply wellLinked_emptyStore | reflexivity].
Defined.

(** [X11] On a store that satisfies the invariant and answers, the view
    that [identify] resolves to holds the email and the phone number of
    the observation, each when it is given. *)
Theorem identify_view_holds_observation (clk : Clock)
  (request : IdentifyRequest.t) (db : Database) :
  wellLinked db -> healthy db ->
  exists view,
    snd (identify clk request db) = Resolved view /\
    (forall e, Js.orNull (IdentifyRequest.email request) = Some e ->
               In e (emails view)) /\
    (forall n, Js.orNull (IdentifyRequest.phoneNumber request) = Some n ->
               In n (phoneNumbers view)).
Proof.
  intros Hw Hh.
  destruct (identify_outcome clk request db Hw Hh)
    as (contacts & p & Hsnd & Hin & Hp & Hone & Hst & Hem & Hph & _).
  destruct (viewOfStore_build contacts p _ Hin Hp Hone Hst)
    as (view & Hv & _ & _ & He & Hn).
  exists view. split; [congruence|]. split.
  - intros e Hreq. apply He. destruct (Hem e Hreq) as (c & Hc & Hce).
    exists c. split; [exact Hc|]. rewrite Hce.
    apply orNull_some in Hreq as [Hreq Ht].
    rewrite <- Hreq. now apply truthy_orNull.
  - intros n Hreq. apply Hn. destruct (Hph n Hreq) as (c & Hc & Hce).
    exists c. split; [exact Hc|]. rewrite Hce.
    apply orNull_some in Hreq as [Hreq Ht].
    rewrite <- Hreq. now apply truthy_orNull.
Qed.

Lemma identify_view_holds_observation_witness :
  exists view,
    snd (identify (mkClock 300 300)
           (IdentifyRequest.mk (Some "doc@x"%string) (Some "123"%string))
           lorraineStore) = Resolved view /\
    In "doc@x"%string (emails view) /\ In "123"%string (phoneNumbers view).
Proof.
  destruct (identify_view_holds_observation (mkClock 300 300)
              (IdentifyRequest.mk (Some "doc@x"%string) (Some "123"%string))
              lorraineStore) as (view & Hv & He & Hn).
  - apply afterCalls_preserves; [apply wellLinked_emptyStore | reflexivity].
  - reflexivity.
  - exists view. split; [exact Hv|]. split; [now apply He | now apply Hn].
Defined.

(* ================================================================== *)
(** ** What the writes of a call leave alone *)

Lemma keptAs_refl (r : Contact.t) : keptAs r r.
Proof. unfold keptAs. tauto. Qed.

Lemma keptAs_trans (a b c : Contact.t) : keptAs a b -> keptAs b c -> keptAs a c.
Proof.
  unfold keptAs.
  intros (A1 & A2 & A3 & A4 & A5 & A6 & A7) (B1 & B2 & B3 & B4 & B5 & B6 & B7).
  repeat split; try congruence; auto.
Qed.

Lemma Forall2_refl_on {A : Type} (R : A -> A -> Prop) (l : list A) :
  (forall x, R x x) -> Forall2 R l l.
Proof. intro H. induction l; constructor; auto. Qed.

Lemma Forall2_compose {A : Type} (R : A -> A -> Prop) (l1 l2 l3 : list A) :
  (forall x y z, R x y -> R y z -> R x z) ->
  Forall2 R l1 l2 -> Forall2 R l2 l3 -> Forall2 R l1 l3.
Proof.
  intros Ht H12. revert l3. induction H12; intros l3 H23; inversion H23; subst;
    constructor; eauto.
Qed.

Lemma Forall2_In_left {A : Type} (R : A -> A -> Prop) (l l' : list A) (x : A) :
  Forall2 R l l' -> In x l -> exists y, In y l' /\ R x y.
Proof.
  induction 1 as [|a b l l' Hab H IH]; intros [ ]; subst.
  - exists b. split; [now left | assumption].
  - destruct (IH H0) as (y & Hy & Hr). exists y. split; [now right | assumption].
Qed.

Lemma Forall2_In_right {A : Type} (R : A -> A -> Prop) (l l' : list A) (y : A) :
  Forall2 R l l' -> In y l' -> exists x, In x l /\ R x y.
Proof.
  induction 1 as [|a b l l' Hab H IH]; intros [ ]; subst.
  - exists a. split; [now left | assumption].
  - destruct (IH H0) as (x & Hx & Hr). exists x. split; [now right | assumption].
Qed.

Lemma keptAs_ids (rs kept : list Contact.t) :
  Forall2 keptAs rs kept -> map Contact.id kept = map Contact.id rs.
Proof.
  induction 1 as [|a b l l' Hab H IH]; simpl; [reflexivity|].
  destruct Hab as (-> & _). now rewrite IH.
Qed.

Lemma grownBy_refl (rs : list Contact.t) : grownBy 0 rs rs.
Proof.
  exists rs, []. rewrite app_nil_r. split; [reflexivity|].
  split; [apply Forall2_refl_on, keptAs_refl|].
  split; [reflexivity|]. split; [now intros c r []|auto].
Qed.

Lemma grownBy_trans (n m : nat) (a b c : list Contact.t) :
  grownBy n a b -> grownBy m b c -> grownBy (n + m) a c.
Proof.
  intros (k1 & a1 & -> & Hk1 & Hn & Hid1 & Hnd1) (k2 & a2 & -> & Hk2 & Hm & Hid2 & Hnd2).
  apply Forall2_app_inv_l in Hk2. destruct Hk2 as (k21 & k22 & Hk21 & Hk22 & ->).
  exists k21, (k22 ++ a2). split; [now rewrite app_assoc|].
  split; [eapply Forall2_compose; [apply keptAs_trans | exact Hk1 | exact Hk21]|].
  split; [rewrite length_app, <- (Forall2_length Hk22); lia|].
  split; [|auto].
  intros x r Hx Hr. apply in_app_or in Hx. destruct Hx as [Hx|Hx].
  - destruct (Forall2_In_right _ _ _ _ Hk22 Hx) as (y & Hy & (E & _)).
    rewrite E. now apply Hid1.
  - destruct (Forall2_In_left _ _ _ _ Hk1 Hr) as (y & Hy & (E & _)).
    rewrite <- E. apply Hid2; [exact Hx|]. apply in_or_app. now left.
Qed.

Lemma grownBy_execute (clk : Clock) (cmd : Command) (db : Database) :
  linkingWrite cmd ->
  grownBy (if isInsertion cmd then 1 else 0) (rows db) (rows (execute clk db cmd)).
Proof.
  intro Hg. destruct cmd as [data|target updates]; cbn [execute isInsertion].
  - cbn [inserted rows]. exists (rows db), [createdRow clk data db].
    split; [reflexivity|].
    split; [apply Forall2_refl_on, keptAs_refl|]. split; [reflexivity|]. split.
    + intros c r [<-|[]] Hr. now apply nextId_fresh.
    + intro Hnd. rewrite map_app. simpl.
      apply NoDup_app; [exact Hnd | repeat constructor; now intros [] |].
      intros x Hx [<-|[]]. now apply (nextId_not_in db).
  - cbn [updated rows]. exists (updateRows clk target updates (rows db)), [].
    rewrite app_nil_r. split; [reflexivity|].
    assert (Hk : Forall2 keptAs (rows db) (updateRows clk target updates (rows db))).
    { unfold updateRows. induction (rows db) as [|r t IH]; simpl; constructor;
        [|exact IH].
      destruct (Contact.id r =? target); [|apply keptAs_refl].
      destruct Hg as [Hl Hp]. unfold keptAs, applyUpdates, isSecondary. cbn.
      repeat split.
      - destruct (ContactUpdates.linkPrecedence updates) as [[|]|];
          [congruence | reflexivity | auto].
      - destruct (ContactUpdates.linkedId updates); [discriminate | auto]. }
    split; [exact Hk|]. split; [reflexivity|]. split; [now intros c r []|].
    now rewrite (keptAs_ids _ _ Hk).
Qed.

Lemma grownBy_replay (clk : Clock) (cmds : list Command) (db : Database) :
  Forall linkingWrite cmds ->
  grownBy (insertions cmds) (rows db) (rows (replay clk cmds db)).
Proof.
  revert db. unfold replay, insertions.
  induction cmds as [|c t IH]; intros db Hg; simpl; [apply grownBy_refl|].
  inversion Hg as [|? ? Hc Ht]; subst.
  pose proof (grownBy_execute clk c db Hc) as H1.
  pose proof (IH (execute clk db c) Ht) as H2.
  pose proof (grownBy_trans _ _ _ _ _ H1 H2) as H.
  destruct (isInsertion c); exact H.
Qed.

Section Writes.
Variable clk : Clock.

Lemma writesWithin_le {A : Type} (n m : nat) (x : Async A) :
  (n <= m)%nat -> writesWithin n clk x -> writesWithin m clk x.
Proof.
  intros Hle H db. destruct (H db) as (cmds & Hg & Hn & Hs).
  exists cmds. split; [exact Hg|]. split; [lia | exact Hs].
Qed.

Lemma writesWithin_pure {A : Type} (o : Outcome A) :
  writesWithin 0 clk (fun db => (db, o)).
Proof. intro db. exists []. split; [constructor|]. now split. Qed.

Lemma writesWithin_bind {A B : Type} (n m : nat) (x : Async A) (k : A -> Async B) :
  writesWithin n clk x -> (forall a, writesWithin m clk (k a)) ->
  writesWithin (n + m) clk (bind x k).
Proof.
  intros Hx Hk db. destruct (Hx db) as (c1 & G1 & N1 & H1). unfold bind.
  destruct (x db) as [db1 [a|e]]; cbn [fst] in *.
  - destruct (Hk a db1) as (c2 & G2 & N2 & H2). exists (c1 ++ c2).
    split; [now apply Forall_app|]. split.
    + unfold insertions in *. rewrite filter_app, length_app. lia.
    + rewrite H2. unfold replay. rewrite fold_left_app.
      now apply replay_stored.
  - exists c1. split; [exact G1|]. split; [lia | exact H1].
Qed.

Lemma writesWithin_statement : writesWithin 0 clk statement.
Proof.
  intro db. exists []. split; [constructor|]. split; [reflexivity|].
  unfold statement. destruct (faultAt db) as [[|n]|]; reflexivity.
Qed.

Lemma writesWithin_selectWhere (cond : Contact.t -> bool) :
  writesWithin 0 clk (selectWhere cond).
Proof.
  apply (writesWithin_bind 0 0); [apply writesWithin_statement|].
  intros _ db. exists []. split; [constructor|]. now split.
Qed.

Lemma writesWithin_findContactsByEmailOrPhone (email phoneNumber : option string) :
  writesWithin 0 clk (findContactsByEmailOrPhone email phoneNumber).
Proof.
  unfold findContactsByEmailOrPhone.
  destruct (whereEmailOrPhone email phoneNumber);
    [apply writesWithin_selectWhere | apply writesWithin_pure].
Qed.

Lemma writesWithin_findAllLinkedContacts (primaryId : Z) :
  writesWithin 0 clk (findAllLinkedContacts primaryId).
Proof.
  apply (writesWithin_bind 0 0); [apply writesWithin_selectWhere|].
  intro. apply writesWithin_pure.
Qed.

Lemma writesWithin_promiseAll (primaryIds : list Z) :
  writesWithin 0 clk (promiseAll findAllLinkedContacts primaryIds).
Proof.
  induction primaryIds as [|p t IH]; simpl; [apply writesWithin_pure|].
  apply (writesWithin_bind 0 0); [apply writesWithin_findAllLinkedContacts|]. intro.
  apply (writesWithin_bind 0 0); [exact IH | intro; apply writesWithin_pure].
Qed.

Lemma writesWithin_createContact (data : CreateContactData.t) :
  writesWithin 1 clk (createContact clk data).
Proof.
  apply (writesWithin_bind 0 1); [apply writesWithin_statement|].
  intros _ db. exists [Insert data].
  split; [constructor; [exact I | constructor]|]. now split.
Qed.

Lemma writesWithin_updateContact (target : Z) (updates : ContactUpdates.t) :
  linkingWrite (Update target updates) ->
  writesWithin 0 clk (updateContact clk target updates).
Proof.
  intro Hg. apply (writesWithin_bind 0 0); [apply writesWithin_statement|].
  intros _. destruct (noKey updates); [apply writesWithin_pure|].
  intro db. exists [Update target updates].
  split; [constructor; [exact Hg | constructor]|]. now split.
Qed.

Lemma writesWithin_oldestPrimaryId (heap : list Contact.t) (oldest : option nat) :
  writesWithin 0 clk (oldestPrimaryId heap oldest).
Proof.
  unfold oldestPrimaryId. destruct oldest as [r|]; [|apply writesWithin_pure].
  destruct (nth_error heap r); apply writesWithin_pure.
Qed.

Lemma writesWithin_demoteOtherPrimaries (oldest : option nat) (refs : list nat)
  (heap : list Contact.t) :
  writesWithin 0 clk (demoteOtherPrimaries clk oldest refs heap).
Proof.
  revert heap. induction refs as [|r t IH]; intro heap; simpl;
    [apply writesWithin_pure|].
  destruct (nth_error heap r) as [c|]; [|apply IH].
  apply (writesWithin_bind 0 0); [apply writesWithin_oldestPrimaryId|]. intro oid.
  destruct (negb _); [|apply IH].
  apply (writesWithin_bind 0 0); [|intro; apply IH].
  apply writesWithin_updateContact. split; discriminate.
Qed.

Lemma writesWithin_relinkSecondaries (oldest : option nat) (refs : list nat)
  (heap : list Contact.t) :
  writesWithin 0 clk (relinkSecondaries clk oldest refs heap).
Proof.
  revert heap. induction refs as [|r t IH]; intro heap; simpl;
    [apply writesWithin_pure|].
  destruct (nth_error heap r) as [c|]; [|apply IH].
  apply (writesWithin_bind 0 0); [apply writesWithin_oldestPrimaryId|]. intro oid.
  destruct (negb _); [|apply IH].
  apply (writesWithin_bind 0 0); [|intro; apply IH].
  apply writesWithin_updateContact. split; discriminate.
Qed.

Lemma writesWithin_mergePrimaryContacts (primaryIds : list Z)
  (email phoneNumber : option string) :
  writesWithin 1 clk (mergePrimaryContacts clk primaryIds email phoneNumber).
Proof.
  unfold mergePrimaryContacts.
  apply (writesWithin_bind 0 1); [apply writesWithin_promiseAll|]. intro groups.
  apply (writesWithin_bind 0 1); [apply writesWithin_demoteOtherPrimaries|]. intro heap1.
  apply (writesWithin_bind 0 1); [apply writesWithin_relinkSecondaries|]. intro heap2.
  destruct (needsNewSecondaryContact _ _ _);
    [|apply (writesWithin_le 0 1); [lia | apply writesWithin_pure]].
  apply (writesWithin_bind 0 1); [apply writesWithin_oldestPrimaryId|]. intro oid.
  apply (writesWithin_bind 1 0); [apply writesWithin_createContact|].
  intro. apply writesWithin_pure.
Qed.

Lemma writesWithin_identify (request : IdentifyRequest.t) :
  writesWithin 1 clk (identify clk request).
Proof.
  unfold identify.
  apply (writesWithin_bind 0 1); [apply writesWithin_findContactsByEmailOrPhone|].
  intro existing. destruct (List.length existing =? 0)%nat.
  - apply (writesWithin_bind 1 0); [apply writesWithin_createContact|].
    intro. apply writesWithin_pure.
  - destruct (allPrimaryIdsOf existing) as [|p [|q rest]].
    + apply (writesWithin_le 0 1); [lia | apply writesWithin_pure].
    + apply (writesWithin_bind 0 1); [apply writesWithin_findAllLinkedContacts|].
      intro members.
      destruct (needsNewSecondaryContact _ _ _);
        [|apply (writesWithin_le 0 1); [lia | apply writesWithin_pure]].
      apply (writesWithin_bind 1 0); [apply writesWithin_createContact|].
      intro. apply writesWithin_pure.
    + apply writesWithin_mergePrimaryContacts.
Qed.
End Writes.

(** [X12] Whatever the store holds and whichever statement fails, a call
    of [identify] removes no row and rewrites no data: the rows of the
    table stay in place with their identifier, email, phone number, time
    of creation and removal mark, a secondary stays a secondary and a
    link stays a link; at most one row is added, after them and under a
    larger identifier, so that distinct identifiers stay distinct. *)
Theorem identify_only_adds_and_links (clk : Clock)
  (request : IdentifyRequest.t) (db : Database) :
  exists kept added,
    rows (fst (identify clk request db)) = kept ++ added /\
    Forall2 keptAs (rows db) kept /\
    (List.length added <= 1)%nat /\
    (forall c r, In c added -> In r (rows db) -> Contact.id r < Contact.id c) /\
    (uniqueIds db -> uniqueIds (fst (identify clk request db))).
Proof.
  destruct (writesWithin_identify clk request db) as (cmds & Hg & Hn & Hs).
  destruct (grownBy_replay clk cmds db Hg) as (kept & added & Hr & Hk & Hl & Hid & Hnd).
  unfold stored in Hs. injection Hs as Hrows _ _.
  exists kept, added. unfold uniqueIds. rewrite Hrows.
  repeat split; try assumption. lia.
Qed.

(* ================================================================== *)
(** ** The identity that a call returns *)

(** [X13] On a store that satisfies the invariant and answers, a call of
    [identify] leaves every live record that has the email or the phone
    number of the observation in one identity, the one of its view: such
    a record is the primary of the view or is linked to it. *)
Theorem identify_gathers_matching_records (clk : Clock)
  (request : IdentifyRequest.t) (db : Database) :
  wellLinked db -> healthy db ->
  exists view,
    snd (identify clk request db) = Resolved view /\
    forall r, In r (rows (fst (identify clk request db))) -> live r = true ->
              sharesValue request r ->
              linkedTo (primaryContactId view) r = true.
Proof.
  intros Hw Hh.
  destruct (identify_outcome clk request db Hw Hh)
    as (contacts & p & Hsnd & Hin & Hp & Hone & Hst & _ & _ & Hg).
  destruct (viewOfStore_build contacts p _ Hin Hp Hone Hst)
    as (view & Hv & Hid & _).
  exists view. split; [congruence|]. now rewrite Hid.
Qed.

Lemma identify_gathers_matching_records_witness :
  let outcome :=
    identify (mkClock 400 400)
      (IdentifyRequest.mk (Some "george@x"%string) (Some "717171"%string))
      georgeBiffStore in
  exists view,
    snd outcome = Resolved view /\
    forall r, In r (rows (fst outcome)) -> live r = true ->
              Contact.phoneNumber r = Some "717171"%string ->
              linkedTo (primaryContactId view) r = true.
Proof.
  intro outcome.
  destruct (identify_gathers_matching_records (mkClock 400 400)
              (IdentifyRequest.mk (Some "george@x"%string) (Some "717171"%string))
              georgeBiffStore) as (view & Hv & H).
  - apply afterCalls_preserves; [apply wellLinked_emptyStore | reflexivity].
  - reflexivity.
  - exists view. split; [exact Hv|]. intros r Hr Hl Hph.
    apply H; try assumption. right. exists "717171"%string.
    split; [reflexivity | exact Hph].
Defined.

Lemma candidate_shares (request : IdentifyRequest.t) (db : Database)
  (c : Contact.t) :
  In c (candidates request db) -> sharesValue request c.
Proof.
  unfold candidates, whereEmailOrPhone, sharesValue, emailIs, phoneIs.
  destruct (Js.orNull (IdentifyRequest.email request)) as [e|],
           (Js.orNull (IdentifyRequest.phoneNumber request)) as [n|];
    intro H; try (now destruct H);
    apply filter_In in H as [_ H]; apply andb_true_iff in H as [_ H].
  - apply orb_true_iff in H. destruct H as [H|H].
    + left. exists e. split; [reflexivity|].
      destruct (Contact.email c); [|discriminate].
      apply String.eqb_eq in H. now subst.
    + right. exists n. split; [reflexivity|].
      destruct (Contact.phoneNumber c); [|discriminate].
      apply String.eqb_eq in H. now subst.
  - left. exists e. split; [reflexivity|].
    destruct (Contact.email c); [|discriminate].
    apply String.eqb_eq in H. now subst.
  - right. exists n. split; [reflexivity|].
    destruct (Contact.phoneNumber c); [|discriminate].
    apply String.eqb_eq in H. now subst.
Qed.

Lemma NoDup_all_equal {A : Type} (l : list A) (a : A) :
  NoDup l -> (forall x, In x l -> x = a) -> l <> [] -> l = [a].
Proof.
  intros Hnd Hall Hne. destruct l as [|x [|y t]]; [now elim Hne| |].
  - now rewrite (Hall x (or_introl eq_refl)).
  - exfalso. inversion Hnd as [|? ? Hx _]; subst. apply Hx.
    rewrite (Hall x), (Hall y); [now left | right; now left | now left].
Qed.

Lemma viewOfStore_same (v w : ConsolidatedContact) (db : Database) :
  viewOfStore v db -> viewOfStore w db ->
  primaryContactId v = primaryContactId w -> sameIdentity v w.
Proof.
  intros (_ & Vs & Ve & Vn) (_ & Ws & We & Wn) E.
  split; [exact E|]. rewrite E in Vs, Ve, Vn.
  split; [|split]; intro x.
  - now rewrite Vs, Ws.
  - now rewrite Ve, We.
  - now rewrite Vn, Wn.
Qed.

(** The view of the members of a primary of the store. *)
Lemma members_view (db : Database) (p : Contact.t) :
  wellLinked db -> In p (rows db) -> live p = true -> isPrimary p = true ->
  exists view,
    buildConsolidatedContact (membersOf (Contact.id p) db) = Resolved view /\
    primaryContactId view = Contact.id p /\
    viewOfStore view db.
Proof.
  intros Hw Hp Hl Hpp.
  destruct (standFor_members db p Hw Hp Hl Hpp) as (Hst & Hin & Hone).
  destruct (viewOfStore_build _ p db Hin Hpp Hone Hst)
    as (view & Hv & Hid & Hview & _).
  now exists view.
Qed.

(** The second of two calls with the same observation: it finds one
    governing id, the primary of the first view, and nothing to add. *)
Lemma identify_second_call (clk1 clk2 : Clock)
  (request : IdentifyRequest.t) (db : Database) :
  wellLinked db -> healthy db ->
  Js.truthy (IdentifyRequest.email request) ||
  Js.truthy (IdentifyRequest.phoneNumber request) = true ->
  exists first p1,
    snd (identify clk1 request db) = Resolved first /\
    viewOfStore first (fst (identify clk1 request db)) /\
    In p1 (rows (fst (identify clk1 request db))) /\
    live p1 = true /\ isPrimary p1 = true /\
    Contact.id p1 = primaryContactId first /\
    identify clk2 request (fst (identify clk1 request db))
    = (fst (identify clk1 request db),
       buildConsolidatedContact
         (membersOf (Contact.id p1) (fst (identify clk1 request db)))).
Proof.
  intros Hw Hh Ht.
  pose proof (second_call_creates_no_record clk1 clk2 request db Hw Hh Ht)
    as [Hids _].
  destruct (identify_preserves clk1 request db Hw Hh) as [Hw1 Hh1].
  destruct (identify_outcome clk1 request db Hw Hh)
    as (contacts & p & Hsnd & Hin & Hp & Hone & Hst & Hem & Hph & Hg).
  destruct (viewOfStore_build contacts p _ Hin Hp Hone Hst)
    as (first & Hv & Hid & Hview & He & Hn).
  set (db1 := fst (identify clk1 request db)) in *.
  destruct Hview as (Hprim & Hrest).
  destruct Hprim as (p1 & Hp1 & Hl1 & Hpp1 & Hid1).
  assert (Hview : viewOfStore first db1).
  { split; [now exists p1 | exact Hrest]. }
  rewrite Hid in Hid1.
  (* the stored record that has a value of the observation *)
  assert (Hc : candidates request db1 <> []).
  { destruct (truthy_value _ _ Ht) as (v & [Hv1|Hv1]).
    - destruct (Hem v Hv1) as (c & Hc & Hce).
      destruct Hst as (Hobj & _).
      destruct (Hobj c Hc) as (r & Hr & Hrl & _ & (_ & Hre & _)).
      assert (Hrc : In r (candidates request db1)).
      { apply (matching_candidate request db1 r v); auto. left. split; congruence. }
      intro E. rewrite E in Hrc. destruct Hrc.
    - destruct (Hph v Hv1) as (c & Hc & Hce).
      destruct Hst as (Hobj & _).
      destruct (Hobj c Hc) as (r & Hr & Hrl & _ & (_ & _ & Hrp & _)).
      assert (Hrc : In r (candidates request db1)).
      { apply (matching_candidate request db1 r v); auto. right. split; congruence. }
      intro E. rewrite E in Hrc. destruct Hrc. }
  (* one governing id, the primary of the first view *)
  assert (Eg : governingIds request db1 = [Contact.id p]).
  { apply NoDup_all_equal;
      [apply newSet_NoDup | | now apply wellLinked_governing].
    intros x Hx. unfold governingIds in Hx. apply allPrimaryIdsOf_In in Hx.
    destruct Hw1 as (Hu1 & Hpu1 & _).
    destruct Hx as [(c & Hcc & Hcp & <-)|(c & Hcc & Hcs & Hcl)];
      destruct (candidates_In _ _ _ Hcc) as [Hcr Hcl'];
      pose proof (Hg c Hcr Hcl' (candidate_shares _ _ _ Hcc)) as Hlink;
      apply linkedTo_cases in Hlink.
    - destruct Hlink as [H|H]; [exact H|].
      rewrite (Hpu1 c Hcr Hcl' Hcp) in H. discriminate.
    - destruct Hlink as [H|H]; [|congruence].
      rewrite <- Hid1 in H.
      rewrite (unique_row db1 c p1 Hu1 Hcr Hp1 H) in Hcs.
      rewrite isSecondary_negb, Hpp1 in Hcs. discriminate. }
  rewrite (identify_matched clk2 request db1 Hh1 Hc) in *. rewrite Eg in *.
  destruct (needsNewSecondaryContact _ _ _).
  - cbn [fst inserted rows] in Hids. apply (f_equal (@List.length Z)) in Hids.
    rewrite !length_map, length_app in Hids. simpl in Hids. lia.
  - exists first, p1. rewrite Hid1.
    split; [congruence|]. split; [exact Hview|].
    split; [exact Hp1|]. split; [exact Hl1|]. split; [exact Hpp1|].
    split; [congruence | reflexivity].
Qed.

(** [X14] On a store that satisfies the invariant and answers, an
    observation that gives a value and is submitted a second time
    leaves the store as the first call left it, and resolves to a view
    of the same identity: the same primary and the same identifiers,
    emails and phone numbers. *)
Theorem identify_repeated_is_stable (clk1 clk2 : Clock)
  (request : IdentifyRequest.t) (db : Database) :
  wellLinked db -> healthy db ->
  Js.truthy (IdentifyRequest.email request) ||
  Js.truthy (IdentifyRequest.phoneNumber request) = true ->
  exists first second,
    snd (identify clk1 request db) = Resolved first /\
    identify clk2 request (fst (identify clk1 request db))
    = (fst (identify clk1 request db), Resolved second) /\
    sameIdentity second first.
Proof.
  intros Hw Hh Ht.
  destruct (identify_preserves clk1 request db Hw Hh) as [Hw1 _].
  destruct (identify_second_call clk1 clk2 request db Hw Hh Ht)
    as (first & p1 & Hfirst & Hview & Hp1 & Hl1 & Hpp1 & Hid1 & Hsecond).
  destruct (members_view _ p1 Hw1 Hp1 Hl1 Hpp1) as (second & Hv2 & Hid2 & Hview2).
  exists first, second. split; [exact Hfirst|].
  split; [now rewrite Hsecond, Hv2|].
  apply (viewOfStore_same second first _ Hview2 Hview). congruence.
Qed.

Lemma identify_repeated_is_stable_witness :
  let request := IdentifyRequest.mk (Some "george@x"%string) (Some "717171"%string) in
  exists first second,
    snd (identify (mkClock 400 400) request georgeBiffStore) = Resolved first /\
    identify (mkClock 500 500) request
      (fst (identify (mkClock 400 400) request georgeBiffStore))
    = (fst (identify (mkClock 400 400) request georgeBiffStore), Resolved second) /\
    sameIdentity second first.
Proof.
  intro request.
  apply identify_repeated_is_stable; [|reflexivity|reflexivity].
  apply afterCalls_preserves; [apply wellLinked_emptyStore | reflexivity].
Defined.

(* ================================================================== *)
(** ** The endpoints *)




Lemma truthy_orNull_same (v : option string) :
  Js.truthy (Js.orNull v) = Js.truthy v.
Proof. unfold Js.truthy. now rewrite orNull_idem. Qed.

Lemma foreign_truthy (v : ContactController.Field) :
  ContactController.foreign v = true ->
  ContactController.truthy v = true /\ ContactController.isText v = false.
Proof.
  unfold ContactController.foreign. intro H.
  apply andb_true_iff in H as [Ht Hn]. now apply negb_true_iff in Hn.
Qed.

Lemma truthy_asText (v : ContactController.Field) :
  ContactController.foreign v = false ->
  Js.truthy (ContactController.asText v) = ContactController.truthy v.
Proof.
  destruct v as [|s|t o]; cbn; try reflexivity.
  unfold ContactController.foreign. cbn. rewrite andb_true_r. now intros ->.
Qed.

Lemma toString_rejects (v : ContactController.Field) (e : Error) :
  ContactController.toString v = Rejected e -> e = TypeError.
Proof. destruct v as [|s|t [shown|]]; cbn; congruence. Qed.

(** The check of the email has one of three results. *)
Lemma email_cases (v : ContactController.Field) :
  unreadable v \/ emailWrong v \/ emailPasses v.
Proof.
  destruct (ContactController.truthy v) eqn:Ht; [|right; right; now left].
  destruct (ContactController.toString v) as [s|e] eqn:Hs.
  - right. destruct (ContactController.isValidEmail s) eqn:Hv.
    + right. right. exists s. now repeat split.
    + left. exists s. now repeat split.
  - left. split; [exact Ht|]. now rewrite (toString_rejects v e Hs) in Hs.
Qed.

Lemma email_unreadable (v : ContactController.Field) :
  unreadable v ->
  ContactController.givenButNot ContactController.isValidEmailOf v
  = Rejected TypeError.
Proof.
  intros [Ht Hs].
  unfold ContactController.givenButNot, ContactController.isValidEmailOf.
  now rewrite Ht, Hs.
Qed.

Lemma email_wrong (v : ContactController.Field) :
  emailWrong v ->
  ContactController.givenButNot ContactController.isValidEmailOf v
  = Resolved true.
Proof.
  intros (s & [Ht Hs] & Hv).
  unfold ContactController.givenButNot, ContactController.isValidEmailOf.
  now rewrite Ht, Hs, Hv.
Qed.

Lemma email_passes (v : ContactController.Field) :
  emailPasses v ->
  ContactController.givenButNot ContactController.isValidEmailOf v
  = Resolved false.
Proof.
  unfold ContactController.givenButNot, ContactController.isValidEmailOf.
  intros [Ht|(s & [Ht Hs] & Hv)]; rewrite Ht; [reflexivity|].
  now rewrite Hs, Hv.
Qed.

(** The check of the phone number has one of three results. *)
Lemma phone_cases (v : ContactController.Field) :
  phoneThrows v \/ phoneWrong v \/ phonePasses v.
Proof.
  destruct (ContactController.truthy v) eqn:Ht; [|right; right; now left].
  destruct v as [|n|t o].
  - discriminate Ht.
  - right. destruct (ContactController.isValidPhoneNumber n) eqn:Hv.
    + right. right. now exists n.
    + left. left. split; [exact Ht|]. now exists n.
  - cbn in Ht. subst t.
    destruct o as [s|]; [|left; split; [reflexivity | now left]].
    destruct (Regex.test ContactController.phoneRegex s) eqn:Hm.
    + left. split; [reflexivity|]. right. now exists s.
    + right. left. right. split; [reflexivity|]. now exists s.
Qed.

Lemma phone_throws (v : ContactController.Field) :
  phoneThrows v ->
  ContactController.givenButNot ContactController.isValidPhoneNumberOf v
  = Rejected TypeError.
Proof.
  intros [Hf H]. destruct (foreign_truthy v Hf) as [Ht Hn].
  unfold ContactController.givenButNot. rewrite Ht.
  destruct v as [|n|t o]; try discriminate.
  unfold ContactController.isValidPhoneNumberOf.
  destruct H as [H|(s & H & Hm)]; rewrite H; [reflexivity|].
  now rewrite Hm.
Qed.

Lemma phone_wrong (v : ContactController.Field) :
  phoneWrong v ->
  ContactController.givenButNot ContactController.isValidPhoneNumberOf v
  = Resolved true.
Proof.
  unfold ContactController.givenButNot.
  intros [(Ht & n & -> & Hv)|(Hf & s & Hs & Hm)].
  - rewrite Ht. cbn. now rewrite Hv.
  - destruct (foreign_truthy v Hf) as [Ht Hn]. rewrite Ht.
    destruct v as [|n|t o]; try discriminate.
    unfold ContactController.isValidPhoneNumberOf. now rewrite Hs, Hm.
Qed.

Lemma phone_passes (v : ContactController.Field) :
  phonePasses v ->
  ContactController.givenButNot ContactController.isValidPhoneNumberOf v
  = Resolved false /\ ContactController.foreign v = false.
Proof.
  unfold ContactController.givenButNot, ContactController.foreign.
  intros [Ht|(n & -> & Hv)].
  - now rewrite Ht.
  - cbn. rewrite Hv, andb_false_r.
    split; [now destruct (Js.truthy (Some n)) | reflexivity].
Qed.

(** What the validation of the handler finds in the two fields. *)
Lemma validation_cases (email phoneNumber : ContactController.Field) :
  (ContactController.truthy email = false /\
   ContactController.truthy phoneNumber = false) \/
  emailWrong email \/
  unreadable email \/
  (emailPasses email /\ phoneWrong phoneNumber) \/
  (emailPasses email /\ phoneThrows phoneNumber) \/
  (ContactController.truthy email || ContactController.truthy phoneNumber = true /\
   emailPasses email /\ phonePasses phoneNumber).
Proof.
  destruct (ContactController.truthy email || ContactController.truthy phoneNumber)
    eqn:Ht; [|left; now apply orb_false_iff].
  right.
  destruct (email_cases email) as [He|[He|He]]; [tauto | tauto |].
  destruct (phone_cases phoneNumber) as [Hp|[Hp|Hp]]; tauto.
Qed.

Section Handler.
Variable beyond :
  ContactController.Field -> ContactController.Field -> Async ConsolidatedContact.
Variable clk : Clock.
Variables email phoneNumber : ContactController.Field.
Variable db : Database.

Lemma handler_neither :
  ContactController.truthy email = false ->
  ContactController.truthy phoneNumber = false ->
  ContactController.identify beyond clk (Some (email, phoneNumber)) db
  = (db, ContactController.respond 400
           (ContactController.ErrorBody
              "At least one of email or phoneNumber must be provided")).
Proof.
  intros He Hp. unfold ContactController.identify. now rewrite He, Hp.
Qed.

Lemma handler_email_wrong :
  emailWrong email ->
  ContactController.identify beyond clk (Some (email, phoneNumber)) db
  = (db, ContactController.respond 400
           (ContactController.ErrorBody "Invalid email format")).
Proof.
  intro H. unfold ContactController.identify. rewrite (email_wrong email H).
  destruct H as (s & [Ht _] & _). now rewrite Ht.
Qed.

Lemma handler_email_unreadable :
  unreadable email ->
  ContactController.identify beyond clk (Some (email, phoneNumber)) db
  = (db, ContactController.internalError).
Proof.
  intro H. unfold ContactController.identify. rewrite (email_unreadable email H).
  destruct H as [Ht _]. now rewrite Ht.
Qed.

Lemma handler_phone_wrong :
  emailPasses email -> phoneWrong phoneNumber ->
  ContactController.identify beyond clk (Some (email, phoneNumber)) db
  = (db, ContactController.respond 400
           (ContactController.ErrorBody "Invalid phone number format")).
Proof.
  intros He Hp. unfold ContactController.identify.
  rewrite (email_passes email He), (phone_wrong phoneNumber Hp).
  assert (Ht : ContactController.truthy phoneNumber = true).
  { destruct Hp as [[Ht _]|[Hf _]]; [exact Ht | now apply foreign_truthy]. }
  now rewrite Ht, andb_false_r.
Qed.

Lemma handler_phone_throws :
  emailPasses email -> phoneThrows phoneNumber ->
  ContactController.identify beyond clk (Some (email, phoneNumber)) db
  = (db, ContactController.internalError).
Proof.
  intros He Hp. unfold ContactController.identify.
  rewrite (email_passes email He), (phone_throws phoneNumber Hp).
  destruct Hp as [Hf _]. apply foreign_truthy in Hf as [Ht _].
  now rewrite Ht, andb_false_r.
Qed.

(** The handler calls the service when its validation finds nothing to
    refuse. *)
Lemma controller_passes :
  ContactController.truthy email || ContactController.truthy phoneNumber = true ->
  emailPasses email -> phonePasses phoneNumber ->
  ContactController.identify beyond clk (Some (email, phoneNumber)) db
  = match (if ContactController.foreign email
           then beyond email phoneNumber
           else identify clk
                  (IdentifyRequest.mk (ContactController.orUndefined email)
                                      (ContactController.orUndefined phoneNumber)))
            db with
    | (db', Resolved view) =>
        (db', ContactController.respond 200 (ContactController.ContactBody view))
    | (db', Rejected _) => (db', ContactController.internalError)
    end.
Proof.
  intros Ht He Hp. unfold ContactController.identify.
  rewrite (email_passes email He).
  destruct (phone_passes phoneNumber Hp) as [-> ->].
  rewrite orb_false_r.
  destruct (ContactController.truthy email),
           (ContactController.truthy phoneNumber); try reflexivity.
  discriminate.
Qed.

End Handler.

(** The two ways the call of the service ends, in a hypothesis on the
    response. *)
Ltac service_result H :=
  match type of H with
  | context [let (_, _) := ?call in _] => destruct call as [? [?|?]]
  end.

(** [X16] The validation of the identify endpoint, on any store and for
    any values of the two fields of the body. Without a body the
    response is the 500 of the catch block. The response is a 400
    exactly when neither field is truthy, or the email is truthy and
    does not read as a well-formed email, or the email passes and the
    phone number is a string that is given and not well formed or
    another truthy value that does not read as the characters of a phone
    number. The response is the 500 of the catch block when [String]
    throws on a truthy email, or when the email passes and the phone
    number is a truthy value that is not a string and on which [String]
    throws or which reads as the characters of a phone number. In all
    these cases the store is as it was. In the one case left the service
    is called: with the values that are given, the empty string counting
    as absent, when the email is a string or not given, and with the
    values as they are otherwise; its view makes a 200 and any rejection
    the 500 of the catch block. *)
Theorem identify_endpoint_validation
  (beyond : ContactController.Field -> ContactController.Field ->
            Async ConsolidatedContact)
  (clk : Clock) (email phoneNumber : ContactController.Field) (db : Database) :
  ContactController.identify beyond clk None db
  = (db, ContactController.internalError) /\
  (ContactController.status
     (snd (ContactController.identify beyond clk (Some (email, phoneNumber)) db))
   = 400 <->
   (ContactController.truthy email = false /\
    ContactController.truthy phoneNumber = false) \/
   emailWrong email \/
   (emailPasses email /\ phoneWrong phoneNumber)) /\
  (ContactController.status
     (snd (ContactController.identify beyond clk (Some (email, phoneNumber)) db))
   = 400 ->
   fst (ContactController.identify beyond clk (Some (email, phoneNumber)) db) = db) /\
  (unreadable email \/ (emailPasses email /\ phoneThrows phoneNumber) ->
   ContactController.identify beyond clk (Some (email, phoneNumber)) db
   = (db, ContactController.internalError)) /\
  (ContactController.truthy email || ContactController.truthy phoneNumber = true ->
   emailPasses email -> phonePasses phoneNumber ->
   ContactController.identify beyond clk (Some (email, phoneNumber)) db
   = match (if ContactController.foreign email
            then beyond email phoneNumber
            else identify clk
                   (IdentifyRequest.mk (Js.orNull (ContactController.asText email))
                                       (Js.orNull (ContactController.asText phoneNumber))))
             db with
     | (db', Resolved view) =>
         (db', ContactController.respond 200 (ContactController.ContactBody view))
     | (db', Rejected _) =>
         (db', ContactController.respond 500
                 (ContactController.ErrorBody "Internal server error"))
     end) /\
  ((ContactController.truthy email = false /\
    ContactController.truthy phoneNumber = false) \/
   emailWrong email \/
   unreadable email \/
   (emailPasses email /\ phoneWrong phoneNumber) \/
   (emailPasses email /\ phoneThrows phoneNumber) \/
   (ContactController.truthy email || ContactController.truthy phoneNumber = true /\
    emailPasses email /\ phonePasses phoneNumber)).
Proof.
  split; [reflexivity|].
  pose proof (validation_cases email phoneNumber) as Hcases.
  split; [|split; [|split; [|split; [|exact Hcases]]]].
  - split.
    + intro H400.
      destruct Hcases as [H|[H|[H|[[He Hp]|[[He Hp]|(Ht & He & Hp)]]]]]; auto.
      * rewrite (handler_email_unreadable beyond clk email phoneNumber db H)
          in H400. discriminate H400.
      * rewrite (handler_phone_throws beyond clk email phoneNumber db He Hp)
          in H400. discriminate H400.
      * rewrite (controller_passes beyond clk email phoneNumber db Ht He Hp)
          in H400.
        now service_result H400.
    + intros [[He Hp]|[H|[He Hp]]].
      * now rewrite handler_neither.
      * now rewrite handler_email_wrong.
      * now rewrite handler_phone_wrong.
  - intro H400.
    destruct Hcases as [[He Hp]|[H|[H|[[He Hp]|[[He Hp]|(Ht & He & Hp)]]]]].
    + now rewrite handler_neither.
    + now rewrite handler_email_wrong.
    + now rewrite handler_email_unreadable.
    + now rewrite handler_phone_wrong.
    + now rewrite handler_phone_throws.
    + rewrite (controller_passes beyond clk email phoneNumber db Ht He Hp)
        in H400.
      now service_result H400.
  - intros [H|[He Hp]].
    + now apply handler_email_unreadable.
    + now apply handler_phone_throws.
  - intros Ht He Hp. now apply controller_passes.
Qed.

(** The service on a store that satisfies the invariant and answers,
    called with the values that are given: it resolves to the identity
    of its primary as the store then holds it, which holds the values of
    the request, and the same request sent again resolves to the same
    identity and leaves the store as it is. *)
Lemma service_on_consistent_store (clk clk2 : Clock)
  (email phoneNumber : option string) (db : Database) :
  wellLinked db -> healthy db ->
  Js.truthy email || Js.truthy phoneNumber = true ->
  exists db1 view again,
    identify clk (IdentifyRequest.mk (Js.orNull email) (Js.orNull phoneNumber)) db
    = (db1, Resolved view) /\
    wellLinked db1 /\ healthy db1 /\
    viewOfStore view db1 /\
    (forall e, Js.orNull email = Some e -> In e (emails view)) /\
    (forall n, Js.orNull phoneNumber = Some n -> In n (phoneNumbers view)) /\
    identify clk2 (IdentifyRequest.mk (Js.orNull email) (Js.orNull phoneNumber)) db1
    = (db1, Resolved again) /\
    sameIdentity again view.
Proof.
  intros Hw Hh Ht.
  set (request := IdentifyRequest.mk (Js.orNull email) (Js.orNull phoneNumber)).
  assert (Htr : Js.truthy (IdentifyRequest.email request) ||
                Js.truthy (IdentifyRequest.phoneNumber request) = true)
    by (cbn; now rewrite !truthy_orNull_same).
  destruct (identify_preserves clk request db Hw Hh) as [Hw1 Hh1].
  destruct (identify_second_call clk clk2 request db Hw Hh Htr)
    as (first & p1 & H1 & Hview1 & Hp1 & Hl1 & Hpp1 & Hid1 & H2).
  destruct (members_view _ p1 Hw1 Hp1 Hl1 Hpp1) as (second & Hv2 & Hid2 & Hview2).
  rewrite Hv2 in H2.
  assert (Hsame : sameIdentity second first)
    by (apply (viewOfStore_same second first _ Hview2 Hview1); congruence).
  clear Hview1 Hview2 Hp1.
  destruct (identify_outcome clk request db Hw Hh)
    as (contacts & p & Hsnd & Hin & Hp & Hone & Hst & Hem & Hph & _).
  destruct (viewOfStore_build contacts p _ Hin Hp Hone Hst)
    as (view & Hv & _ & Hview & He & Hn).
  assert (Efirst : view = first) by congruence. subst view.
  destruct (identify clk request db) as [db1 o] eqn:E1. cbn [fst snd] in *.
  subst o.
  exists db1, first, second. split; [reflexivity|].
  split; [exact Hw1|]. split; [exact Hh1|]. split; [exact Hview|].
  split; [|split; [|split; [|exact Hsame]]].
  - intros e Hreq. apply He.
    destruct (Hem e) as (c & Hc & Hce); [cbn; now rewrite orNull_idem|].
    exists c. split; [exact Hc|]. rewrite Hce.
    apply orNull_some in Hreq as [Hreq Htv]. rewrite <- Hreq.
    now apply truthy_orNull.
  - intros n Hreq. apply Hn.
    destruct (Hph n) as (c & Hc & Hce); [cbn; now rewrite orNull_idem|].
    exists c. split; [exact Hc|]. rewrite Hce.
    apply orNull_some in Hreq as [Hreq Htv]. rewrite <- Hreq.
    now apply truthy_orNull.
  - now rewrite H2.
Qed.

(** [X17] The identify endpoint on a store that satisfies the invariant
    and answers, for any values of the two fields of the body but an
    email that is not a string and reads as a well-formed email. The
    store satisfies the invariant afterwards and still answers. The
    response is a 400 that leaves the store as it is, or the 500 of the
    catch block, with the store as it is, and then [String] throws on
    the email or the phone number is a truthy value that is not a
    string, or a 200. The view of a 200 is the identity of its primary
    as the store then holds it and it holds the strings of the request;
    the same request sent again gets a 200 for the same identity and
    leaves the store as it is. *)
Theorem identify_endpoint_on_consistent_store
  (beyond : ContactController.Field -> ContactController.Field ->
            Async ConsolidatedContact)
  (clk clk2 : Clock) (email phoneNumber : ContactController.Field)
  (db : Database) :
  wellLinked db -> healthy db ->
  ~ foreignEmailPasses email ->
  wellLinked
    (fst (ContactController.identify beyond clk (Some (email, phoneNumber)) db)) /\
  healthy
    (fst (ContactController.identify beyond clk (Some (email, phoneNumber)) db)) /\
  ((ContactController.status
      (snd (ContactController.identify beyond clk (Some (email, phoneNumber)) db))
    = 400 /\
    fst (ContactController.identify beyond clk (Some (email, phoneNumber)) db)
    = db) \/
   (ContactController.identify beyond clk (Some (email, phoneNumber)) db
    = (db, ContactController.respond 500
             (ContactController.ErrorBody "Internal server error")) /\
    (unreadable email \/ ContactController.foreign phoneNumber = true)) \/
   exists view again,
     snd (ContactController.identify beyond clk (Some (email, phoneNumber)) db)
     = ContactController.respond 200 (ContactController.ContactBody view) /\
     viewOfStore view
       (fst (ContactController.identify beyond clk (Some (email, phoneNumber)) db)) /\
     (forall e, Js.orNull (ContactController.asText email) = Some e ->
                In e (emails view)) /\
     (forall n, Js.orNull (ContactController.asText phoneNumber) = Some n ->
                In n (phoneNumbers view)) /\
     ContactController.identify beyond clk2 (Some (email, phoneNumber))
       (fst (ContactController.identify beyond clk (Some (email, phoneNumber)) db))
     = (fst (ContactController.identify beyond clk (Some (email, phoneNumber)) db),
        ContactController.respond 200 (ContactController.ContactBody again)) /\
     sameIdentity again view).
Proof.
  intros Hw Hh Hnot.
  destruct (validation_cases email phoneNumber)
    as [[He Hp]|[H|[H|[[He Hp]|[[He Hp]|(Ht & He & Hp)]]]]].
  - rewrite handler_neither by assumption. cbn. auto.
  - rewrite handler_email_wrong by assumption. cbn. auto.
  - rewrite handler_email_unreadable by assumption. cbn.
    split; [exact Hw|]. split; [exact Hh|]. right. left. auto.
  - rewrite handler_phone_wrong by assumption. cbn. auto.
  - rewrite handler_phone_throws by assumption. cbn.
    split; [exact Hw|]. split; [exact Hh|]. right. left.
    split; [reflexivity|]. right. now destruct Hp.
  - assert (Hfe : ContactController.foreign email = false).
    { destruct (ContactController.foreign email) eqn:Hf; [|reflexivity].
      exfalso. apply Hnot. split; [exact Hf|].
      apply foreign_truthy in Hf as [Hte _].
      destruct He as [He|(s & [_ Hs] & Hv)]; [congruence|]. now exists s. }
    destruct (phone_passes phoneNumber Hp) as [_ Hfp].
    assert (Htr : Js.truthy (ContactController.asText email) ||
                  Js.truthy (ContactController.asText phoneNumber) = true)
      by now rewrite !truthy_asText.
    destruct (service_on_consistent_store clk clk2 _ _ db Hw Hh Htr)
      as (db1 & view & again & H1 & Hw1 & Hh1 & Hview & Hem & Hph & H2 & Hsame).
    rewrite (controller_passes beyond clk email phoneNumber db Ht He Hp).
    rewrite (controller_passes beyond clk2 email phoneNumber _ Ht He Hp).
    rewrite Hfe. unfold ContactController.orUndefined. rewrite H1. cbn [fst snd].
    rewrite H2.
    split; [exact Hw1|]. split; [exact Hh1|]. right. right.
    exists view, again. auto 10.
Qed.

Lemma identify_endpoint_on_consistent_store_witness :
  (exists view,
     snd (ContactController.identify (fun _ _ => throw TypeError) (mkClock 300 300)
            (Some (ContactController.Text "doc@x.org",
                   ContactController.Text ""))
            lorraineStore)
     = ContactController.respond 200 (ContactController.ContactBody view) /\
     In "doc@x.org"%string (emails view)) /\
  ContactController.identify (fun _ _ => throw TypeError) (mkClock 300 300)
    (Some (ContactController.Missing,
           ContactController.Other true (Some "123456"%string)))
    emptyStore
  = (emptyStore, ContactController.respond 500
                   (ContactController.ErrorBody "Internal server error")).
Proof.
  split.
  - destruct (identify_endpoint_on_consistent_store (fun _ _ => throw TypeError)
                (mkClock 300 300) (mkClock 400 400)
                (ContactController.Text "doc@x.org") (ContactController.Text "")
                lorraineStore)
      as (_ & _ & [[H _]|[[H _]|(view & again & Hv & _ & He & _)]]).
    + apply afterCalls_preserves; [apply wellLinked_emptyStore | reflexivity].
    + reflexivity.
    + intros [Hf _]. discriminate Hf.
    + discriminate H.
    + discriminate H.
    + exists view. split; [exact Hv|]. now apply He.
  - destruct (identify_endpoint_on_consistent_store (fun _ _ => throw TypeError)
                (mkClock 300 300) (mkClock 400 400)
                ContactController.Missing
                (ContactController.Other true (Some "123456"%string))
                emptyStore)
      as (_ & _ & [[H _]|[[H _]|(view & again & Hv & _)]]).
    + apply wellLinked_emptyStore.
    + reflexivity.
    + intros [Hf _]. discriminate Hf.
    + discriminate H.
    + exact H.
    + discriminate Hv.
Defined.

(* ================================================================== *)
(** ** The lookup by value *)

Lemma candidates_sharing (request : IdentifyRequest.t) (db : Database)
  (c : Contact.t) :
  In c (candidates request db) <->
  In c (rows db) /\ live c = true /\ sharesValue request c.
Proof.
  split.
  - intro H. destruct (candidates_In _ _ _ H) as [Hr Hl].
    repeat split; try assumption. now apply (candidate_shares request db).
  - intros (Hr & Hl & [(e & He & Hce)|(n & Hn & Hcn)]).
    + apply (matching_candidate request db c e); auto.
    + apply (matching_candidate request db c n); auto.
Qed.

(** [X18] [findContactsByEmailOrPhone] on a store that answers resolves
    to the records that are not removed and have the given email or the
    given phone number; a value that is missing or the empty string
    selects nothing, and a record whose field is NULL is never selected
    through that field. When neither value is given the call resolves
    to the empty array without a statement, whatever the state of the
    store. *)
Theorem lookup_by_value (email phoneNumber : option string) (db : Database) :
  (healthy db ->
   exists found,
     findContactsByEmailOrPhone email phoneNumber db = (db, Resolved found) /\
     forall c, In c found <->
               In c (rows db) /\ live c = true /\
               sharesValue (IdentifyRequest.mk email phoneNumber) c) /\
  (Js.truthy email = false -> Js.truthy phoneNumber = false ->
   findContactsByEmailOrPhone email phoneNumber db = (db, Resolved [])).
Proof.
  split.
  - intro Hh. exists (candidates (IdentifyRequest.mk email phoneNumber) db).
    split; [|intro c; apply candidates_sharing].
    apply (findContactsByEmailOrPhone_healthy (IdentifyRequest.mk email phoneNumber)
             db Hh).
  - unfold Js.truthy, findContactsByEmailOrPhone, whereEmailOrPhone.
    destruct (Js.orNull email), (Js.orNull phoneNumber); try discriminate.
    reflexivity.
Qed.

(** [X19] A call of [identify] with neither an email nor a phone number
    matches no record, not even a record without values that an earlier
    such call stored: on a store that answers it adds a primary without
    email, phone number and link, and resolves to a view with the new
    identifier and nothing else. *)
Theorem identify_without_values (clk : Clock) (request : IdentifyRequest.t)
  (db : Database) :
  healthy db ->
  Js.truthy (IdentifyRequest.email request) = false ->
  Js.truthy (IdentifyRequest.phoneNumber request) = false ->
  rows (fst (identify clk request db))
  = rows db ++ [Contact.mk (nextId db) None None None Primary
                           (dbNow clk) (dbNow clk) None] /\
  snd (identify clk request db)
  = Resolved (mkConsolidated (nextId db) [] [] []).
Proof.
  intros Hh He Hp.
  assert (Ee : Js.orNull (IdentifyRequest.email request) = None).
  { unfold Js.truthy in He. now destruct (Js.orNull _). }
  assert (Ep : Js.orNull (IdentifyRequest.phoneNumber request) = None).
  { unfold Js.truthy in Hp. now destruct (Js.orNull _). }
  assert (Ec : candidates request db = []).
  { unfold candidates, whereEmailOrPhone. now rewrite Ee, Ep. }
  rewrite (identify_no_match clk request db Hh Ec).
  cbn [fst snd inserted rows]. unfold createdRow, createdObject, primaryData.
  cbn. rewrite Ee, Ep. split; reflexivity.
Qed.

Lemma identify_without_values_witness :
  let request := IdentifyRequest.mk (Some ""%string) None in
  map Contact.id
      (rows (afterCalls [(mkClock 100 100, request); (mkClock 200 200, request)]
                        emptyStore)) = [1; 2].
Proof.
  intro request. unfold afterCalls. cbn [fold_left fst snd].
  destruct (identify_without_values (mkClock 100 100) request emptyStore
              eq_refl eq_refl eq_refl) as [H1 _].
  destruct (identify_without_values (mkClock 200 200) request
              (fst (identify (mkClock 100 100) request emptyStore))
              eq_refl eq_refl eq_refl) as [H2 _].
  rewrite H2, H1. reflexivity.
Defined.

(* ================================================================== *)
(** ** The oldest record of an identity *)

Lemma earliest_insert_primary (clk : Clock) (request : IdentifyRequest.t)
  (db : Database) :
  wellLinked db -> primaryEarliest db ->
  primaryEarliest (inserted clk (primaryData request) db).
Proof.
  intros (_ & _ & Hs) He p c Hp Hc Hpl Hcl Hpp Hcs Hlink.
  cbn [inserted rows] in Hp, Hc.
  apply in_app_or in Hc. destruct Hc as [Hc|[<-|[]]]; [|discriminate].
  apply in_app_or in Hp. destruct Hp as [Hp|[<-|[]]]; [now apply He|].
  exfalso. destruct (Hs c Hc Hcl Hcs) as (q & Hq & _ & _ & Hql).
  apply nextId_fresh in Hq. rewrite Hql in Hlink. injection Hlink as Hlink.
  cbn in Hlink. lia.
Qed.

Lemma earliest_insert_secondary (clk : Clock) (request : IdentifyRequest.t)
  (target : Z) (db : Database) :
  primaryEarliest db -> notAfter (dbNow clk) db ->
  primaryEarliest (inserted clk (secondaryData request target) db).
Proof.
  intros He Hn p c Hp Hc Hpl Hcl Hpp Hcs Hlink.
  cbn [inserted rows] in Hp, Hc.
  apply in_app_or in Hp. destruct Hp as [Hp|[<-|[]]]; [|discriminate].
  apply in_app_or in Hc. destruct Hc as [Hc|[<-|[]]]; [now apply He|].
  cbn. now apply Hn.
Qed.

Lemma notAfter_inserted (clk : Clock) (data : CreateContactData.t) (t : Z)
  (db : Database) :
  notAfter t db -> t <= dbNow clk -> notAfter (dbNow clk) (inserted clk data db).
Proof.
  intros Hn Ht r Hr. cbn [inserted rows] in Hr.
  apply in_app_or in Hr. destruct Hr as [Hr|[<-|[]]].
  - specialize (Hn r Hr). lia.
  - cbn. lia.
Qed.

Lemma notAfter_merged (clk : Clock) (oid : Z) (all : list Contact.t) (t : Z)
  (db dbm : Database) :
  notAfter t db -> rows dbm = map (mergedRow clk oid all) (rows db) ->
  notAfter t dbm.
Proof.
  intros Hn Hrows r' Hr'. rewrite Hrows in Hr'.
  apply in_map_iff in Hr'. destruct Hr' as (r & <- & Hr).
  destruct (mergedRow_fields clk oid all r) as (_ & _ & _ & -> & _).
  now apply Hn.
Qed.

Lemma notAfter_later (t u : Z) (db : Database) :
  notAfter t db -> t <= u -> notAfter u db.
Proof. intros Hn Htu r Hr. specialize (Hn r Hr). lia. Qed.

Lemma oldest_is_earliest (all : list Contact.t) (survivor q : Contact.t) :
  oldestOf all = Some survivor -> In q all -> isPrimary q = true ->
  Contact.createdAt survivor <= Contact.createdAt q.
Proof.
  intros Eo Hq Hqp.
  destruct (oldestOf_first_earliest all survivor Eo)
    as (before & after & -> & _ & Hb & Ha).
  apply in_app_or in Hq. destruct Hq as [Hq|[<-|Hq]].
  - specialize (Hb q Hq Hqp). lia.
  - lia.
  - now apply Ha.
Qed.

Lemma mergedRow_primary_survivor (clk : Clock) (oid : Z) (all : list Contact.t)
  (r : Contact.t) :
  In r all -> isPrimary (mergedRow clk oid all r) = true ->
  isPrimary r = true /\ Contact.id r = oid.
Proof.
  intros Hr Hp.
  destruct (precedence_cases r) as [(Hrp & _)|(_ & Hrs & _)].
  - split; [exact Hrp|].
    destruct (Z.eq_dec (Contact.id r) oid) as [E|Hne]; [exact E|].
    destruct (mergedRow_other_primary clk oid all r Hr Hrp Hne) as [Hl _].
    unfold isPrimary in Hp. rewrite Hl in Hp. discriminate.
  - destruct (mergedRow_secondary clk oid all r Hr Hrs) as [Hl _].
    unfold isPrimary in Hp. rewrite Hl in Hp. discriminate.
Qed.

Lemma earliest_merge (clk : Clock) (primaryIds : list Z) (db dbm : Database)
  (survivor : Contact.t) :
  wellLinked db -> primaryEarliest db ->
  (forall x, In x primaryIds ->
             exists q, In q (rows db) /\ live q = true /\ isPrimary q = true /\
                       Contact.id q = x) ->
  oldestOf (fetchedMembers primaryIds db) = Some survivor ->
  rows dbm = map (mergedRow clk (Contact.id survivor) (fetchedMembers primaryIds db))
                 (rows db) ->
  primaryEarliest dbm.
Proof.
  intros Hw He Hgov Eo Hrows.
  destruct (survivor_governs primaryIds db survivor Hw Eo) as (Hsid & Hsr & Hsl & Hsp).
  destruct Hw as (Hu & Hpu & Hs).
  set (all := fetchedMembers primaryIds db) in *.
  set (sid := Contact.id survivor) in *.
  assert (Hmem : forall r, In r (rows db) -> live r = true ->
                           Contact.linkedId r = Some sid -> In r all).
  { intros r Hr Hl Hlk. apply fetchedMembers_In. exists sid. split; [exact Hsid|].
    apply membersOf_In. repeat split; try assumption.
    apply linkedTo_cases. now right. }
  intros p' c' Hp' Hc' Hpl Hcl Hpp Hcs Hlink.
  rewrite Hrows in Hp', Hc'.
  apply in_map_iff in Hp'. destruct Hp' as (p & <- & Hp).
  apply in_map_iff in Hc'. destruct Hc' as (c & <- & Hc).
  rewrite live_mergedRow in Hpl, Hcl. rewrite mergedRow_id in Hlink.
  destruct (mergedRow_fields clk sid all p) as (_ & _ & _ & -> & _).
  destruct (mergedRow_fields clk sid all c) as (_ & _ & _ & -> & _).
  destruct (member_or_outside primaryIds db p Hu Hp) as [Hpin|Hpout];
    destruct (member_or_outside primaryIds db c Hu Hc) as [Hcin|Hcout];
    try fold all in Hpin; try fold all in Hpout;
    try fold all in Hcin; try fold all in Hcout.
  - (* both fetched: [p] is the survivor *)
    destruct (mergedRow_primary_survivor clk sid all p Hpin Hpp) as [Hppr Hpid].
    rewrite (unique_row db p survivor Hu Hp Hsr Hpid).
    destruct (precedence_cases c) as [(Hcp & _)|(_ & Hcsec & _)].
    + now apply (oldest_is_earliest all).
    + apply fetchedMembers_In in Hcin. destruct Hcin as (x & Hx & Hcm).
      apply membersOf_In in Hcm as (_ & _ & Hcx).
      destruct (Hgov x Hx) as (q & Hq & Hql & Hqp & Hqid).
      apply linkedTo_cases in Hcx. destruct Hcx as [Hcx|Hcx].
      * rewrite <- Hqid in Hcx.
        rewrite (unique_row db c q Hu Hc Hq Hcx) in Hcsec.
        rewrite isSecondary_negb, Hqp in Hcsec. discriminate.
      * assert (Hqall : In q all).
        { apply fetchedMembers_In. exists x. split; [exact Hx|].
          apply membersOf_In. repeat split; try assumption.
          apply linkedTo_cases. now left. }
        pose proof (oldest_is_earliest all survivor q Eo Hqall Hqp).
        rewrite <- Hqid in Hcx.
        pose proof (He q c Hq Hc Hql Hcl Hqp Hcsec Hcx). lia.
  - (* [c] is outside, and linked to the survivor: it was fetched *)
    destruct (mergedRow_primary_survivor clk sid all p Hpin Hpp) as [Hppr Hpid].
    rewrite (mergedRow_outside clk sid all c Hcout) in Hlink.
    exfalso. apply (Hcout c); [|reflexivity].
    apply Hmem; try assumption. now rewrite Hlink, Hpid.
  - (* [p] is outside and [c] fetched: [c] is linked to the survivor *)
    exfalso. apply (Hpout survivor); [now apply (oldestOf_In all)|].
    fold sid. destruct (precedence_cases c) as [(Hcp & _)|(_ & Hcsec & _)].
    + destruct (Z.eq_dec (Contact.id c) sid) as [E|Hne].
      * pose proof (mergedRow_survivor_same clk primaryIds db sid c Hu Hcin Hcp E)
          as Hsame.
        fold all in Hsame. rewrite Hsame in Hcs.
        rewrite isSecondary_negb, Hcp in Hcs. discriminate.
      * destruct (mergedRow_other_primary clk sid all c Hcin Hcp Hne) as [_ Hl].
        rewrite Hl in Hlink. now injection Hlink.
    + destruct (mergedRow_secondary clk sid all c Hcin Hcsec) as [_ Hl].
      rewrite Hl in Hlink. now injection Hlink.
  - (* both outside: the rows are as before *)
    rewrite (mergedRow_outside clk sid all p Hpout) in Hpp.
    rewrite (mergedRow_outside clk sid all c Hcout) in Hcs, Hlink.
    now apply He.
Qed.

(** One call keeps the primaries the earliest of their identities when
    the clock of the store is not behind its records. *)
Lemma identify_keeps_earliest (clk : Clock) (request : IdentifyRequest.t)
  (t : Z) (db : Database) :
  wellLinked db -> healthy db -> primaryEarliest db -> notAfter t db ->
  t <= dbNow clk ->
  primaryEarliest (fst (identify clk request db)) /\
  notAfter (dbNow clk) (fst (identify clk request db)).
Proof.
  intros Hw Hh He Hn Ht.
  pose proof (notAfter_later t (dbNow clk) db Hn Ht) as Hn'.
  destruct (candidates request db) as [|c0 cs] eqn:Ec.
  - rewrite (identify_no_match clk request db Hh Ec). cbn [fst].
    split; [now apply earliest_insert_primary | now apply (notAfter_inserted clk _ t)].
  - assert (Hc : candidates request db <> []) by (rewrite Ec; discriminate).
    rewrite (identify_matched clk request db Hh Hc).
    destruct (governingIds request db) as [|pid [|q rest]] eqn:Eg.
    + split; assumption.
    + destruct (needsNewSecondaryContact _ _ _); cbn [fst]; [|split; assumption].
      split; [now apply earliest_insert_secondary
             | now apply (notAfter_inserted clk _ t)].
    + set (pids := pid :: q :: rest) in *.
      assert (Hgov : forall x, In x pids ->
                exists r, In r (rows db) /\ live r = true /\ isPrimary r = true /\
                          Contact.id r = x).
      { intros x Hx. apply (governing_is_primary request db x Hw). now rewrite Eg. }
      destruct (oldestOf (fetchedMembers pids db)) as [survivor|] eqn:Eo.
      * destruct (mergePrimaryContacts_healthy clk pids request db survivor Hh Eo)
          as (dbm & Hhm & _ & Hrows & _ & Hm).
        pose proof (earliest_merge clk pids db dbm survivor Hw He Hgov Eo Hrows) as Hem.
        pose proof (notAfter_merged clk _ _ _ db dbm Hn' Hrows) as Hnm.
        rewrite Hm.
        destruct (needsNewSecondaryContact _ _ _); cbn [fst]; [|split; assumption].
        split; [now apply earliest_insert_secondary
               | now apply (notAfter_inserted clk _ (dbNow clk)); [|lia]].
      * exfalso. apply oldestOf_none in Eo.
        assert (Hpn : governingIds request db <> []) by (rewrite Eg; discriminate).
        pose proof (wellLinked_fetched_primary request db Hw Hpn) as Hfp.
        rewrite Eg in Hfp. now apply Hfp.
Qed.

(** [X20] The primary of an identity is its earliest record: from a
    store in which no primary is younger than a secondary linked to it
    and that satisfies the invariant, and while the store answers and
    its clock does not run backwards, every call of a series leaves a
    store in which no primary is younger than a secondary linked to
    it. *)
Theorem primary_is_earliest_of_identity
  (calls : list (Clock * IdentifyRequest.t)) (t : Z) (db : Database) :
  wellLinked db -> healthy db -> primaryEarliest db -> notAfter t db ->
  clockAdvances t calls ->
  primaryEarliest (afterCalls calls db).
Proof.
  revert t db. induction calls as [|[clk request] rest IH];
    intros t db Hw Hh He Hn [Hf Hsorted]; [exact He|].
  inversion Hf as [|? ? Ht Hf']; subst.
  inversion Hsorted as [|? ? Hs' Hall]; subst.
  destruct (identify_preserves clk request db Hw Hh) as [Hw1 Hh1].
  destruct (identify_keeps_earliest clk request t db Hw Hh He Hn Ht) as [He1 Hn1].
  unfold afterCalls. cbn [fold_left fst snd].
  apply (IH (dbNow clk)); try assumption. now split.
Qed.

Lemma primary_is_earliest_of_identity_witness :
  let calls :=
    [(mkClock 100 100,
      IdentifyRequest.mk (Some "george@x"%string) (Some "919191"%string));
     (mkClock 200 200,
      IdentifyRequest.mk (Some "biff@x"%string) (Some "717171"%string));
     (mkClock 300 300,
      IdentifyRequest.mk (Some "biff@x"%string) (Some "555555"%string));
     (mkClock 400 400,
      IdentifyRequest.mk (Some "george@x"%string) (Some "717171"%string))] in
  clockAdvances 0 calls /\ primaryEarliest (afterCalls calls emptyStore).
Proof.
  intro calls.
  assert (Hc : clockAdvances 0 calls).
  { split; repeat constructor; cbn; lia. }
  split; [exact Hc|].
  apply (primary_is_earliest_of_identity calls 0 emptyStore);
    [exact wellLinked_emptyStore | reflexivity | | | exact Hc].
  - intros p c [].
  - intros r [].
Defined.

(* ================================================================== *)
(** ** The empty string *)

Lemma bind_ext {A B : Type} (m : Async A) (k k' : A -> Async B) (db : Database) :
  (forall a db', k a db' = k' a db') -> bind m k db = bind m k' db.
Proof.
  intro H. unfold bind. destruct (m db) as [db' [a|e]]; [apply H | reflexivity].
Qed.

Lemma strictEq_orNull (field v : option string) :
  Js.truthy v = true -> Js.strictEq field (Js.orNull v) = Js.strictEq field v.
Proof. intro H. now rewrite truthy_orNull. Qed.

Lemma needsNew_orNull (members : list Contact.t) (email phoneNumber : option string) :
  needsNewSecondaryContact members (Js.orNull email) (Js.orNull phoneNumber)
  = needsNewSecondaryContact members email phoneNumber.
Proof.
  unfold needsNewSecondaryContact. rewrite !orNull_idem, !truthy_orNull_same.
  destruct (existsb _ members); [reflexivity|].
  f_equal.
  - destruct (Js.truthy email) eqn:E; [|reflexivity].
    now rewrite (truthy_orNull email E).
  - destruct (Js.truthy phoneNumber) eqn:E; [|reflexivity].
    now rewrite (truthy_orNull phoneNumber E).
Qed.

Lemma find_orNull (email phoneNumber : option string) :
  findContactsByEmailOrPhone (Js.orNull email) (Js.orNull phoneNumber)
  = findContactsByEmailOrPhone email phoneNumber.
Proof.
  unfold findContactsByEmailOrPhone, whereEmailOrPhone.
  now rewrite !orNull_idem.
Qed.

Lemma merge_orNull (clk : Clock) (primaryIds : list Z)
  (email phoneNumber : option string) (db : Database) :
  mergePrimaryContacts clk primaryIds (Js.orNull email) (Js.orNull phoneNumber) db
  = mergePrimaryContacts clk primaryIds email phoneNumber db.
Proof.
  unfold mergePrimaryContacts.
  apply bind_ext. intros groups db1.
  apply bind_ext. intros heap1 db2.
  apply bind_ext. intros heap2 db3.
  now rewrite needsNew_orNull, !orNull_idem.
Qed.

(** [X21] [identify] reads an empty string as a missing value: a
    request and the request with its empty strings left out have the
    same outcome and leave the same store, on every store. *)
Theorem identify_reads_empty_as_missing (clk : Clock)
  (request : IdentifyRequest.t) (db : Database) :
  identify clk
    (IdentifyRequest.mk (Js.orNull (IdentifyRequest.email request))
                        (Js.orNull (IdentifyRequest.phoneNumber request))) db
  = identify clk request db.
Proof.
  unfold identify. cbn [IdentifyRequest.email IdentifyRequest.phoneNumber].
  rewrite find_orNull. apply bind_ext. intros existing db1.
  rewrite !orNull_idem.
  destruct (List.length existing =? 0)%nat; [reflexivity|].
  destruct (allPrimaryIdsOf existing) as [|p [|q rest]]; [reflexivity| |].
  - apply bind_ext. intros members db2.
    now rewrite needsNew_orNull.
  - apply merge_orNull.
Qed.
